(** * LibraryLint: title normaliser, episode parser, quality scorer,
      content hasher and duplicate detector

    A shallow embedding of the duplicate-detection core of [librarylint.py]
    and the properties its specification states about it; then of more of
    the program (the season folders, the HDR format, the subtitles, the
    folder names, the patterns of unnecessary files, the retry of failed
    operations and the transcoding check) and properties the code shows.

    Conventions of the embedding.
    - A Python [str] is a list of characters, [pystr].  Characters are the
      code points below 256 (Latin-1, which contains ASCII); the character
      tables below ([\d], [\s], [str.lower]) are Python's, restricted to
      that range.
    - A regular expression of the source is a value of type [regex]; the
      matcher [rmatch] is a backtracking matcher with the priorities of
      Python's [re] module (alternatives left to right, greedy and lazy
      repetition), so that a pattern of the source is embedded by writing it
      down, not by re-implementing what it computes.
    - Python dictionaries that are iterated are association lists in
      insertion order; the entry dictionaries that the detector mutates in
      place live in a heap and are referred to by their index. *)

From Stdlib Require Import ZArith NArith String Ascii Floats Uint63.
From Stdlib Require Import DecimalString Strings.Byte.
From stdpp Require Import base tactics option list strings gmap.

Set Default Proof Using "Type".
Local Open Scope nat_scope.
Local Open Scope bool_scope.

(** ** Python strings *)

Definition pystr : Type := list ascii.
#[global] Typeclasses Transparent pystr.

Definition str (s : string) : pystr := list_ascii_of_string s.
Coercion str : string >-> pystr.

Definition code (c : ascii) : nat := nat_of_ascii c.

Definition char_eqb (a b : ascii) : bool := Ascii.eqb a b.

(** [\d] on the code points below 256: the ASCII digits. *)
Definition is_digit (c : ascii) : bool :=
  (48 <=? code c) && (code c <=? 57).

(** [\s] and [str.isspace] on the code points below 256: TAB, LF, VT, FF,
    CR, the separators FS, GS, RS, US, the space, NEL and the no-break
    space. *)
Definition is_space (c : ascii) : bool :=
  let n := code c in
  ((9 <=? n) && (n <=? 13)) || ((28 <=? n) && (n <=? 32))
  || (n =? 133) || (n =? 160).

Definition newline : ascii := ascii_of_nat 10.

(** [.] without DOTALL: any character but the line feed. *)
Definition not_newline (c : ascii) : bool := negb (char_eqb c newline).

(** [str.lower] on one character: A-Z, and the Latin-1 capitals
    (0xC0-0xDE but the multiplication sign 0xD7). *)
Definition lower_char (c : ascii) : ascii :=
  let n := code c in
  if ((65 <=? n) && (n <=? 90))
     || ((192 <=? n) && (n <=? 222) && negb (n =? 215))
  then ascii_of_nat (n + 32) else c.

Definition lower (s : pystr) : pystr := map lower_char s.

Fixpoint lstrip (s : pystr) : pystr :=
  match s with
  | c :: s' => if is_space c then lstrip s' else s
  | [] => []
  end.

Definition rstrip (s : pystr) : pystr := reverse (lstrip (reverse s)).

(** [str.strip()] *)
Definition strip (s : pystr) : pystr := rstrip (lstrip s).

Fixpoint starts_with (p s : pystr) : bool :=
  match p, s with
  | [], _ => true
  | a :: p', b :: s' => char_eqb a b && starts_with p' s'
  | _ :: _, [] => false
  end.

(** [p in s] for strings *)
Fixpoint contains (p s : pystr) : bool :=
  starts_with p s ||
  match s with
  | [] => false
  | _ :: s' => contains p s'
  end.

(** [any(x in s for x in ps)] *)
Definition contains_any (ps : list pystr) (s : pystr) : bool :=
  existsb (fun p => contains p s) ps.

(** [int(s)] for a string of ASCII digits *)
Definition int_of_digits (s : pystr) : Z :=
  fold_left (fun acc c => (10 * acc + (Z.of_nat (code c) - 48))%Z) s 0%Z.

(** ** Regular expressions: the fragment the source uses *)

Module Re.

Inductive regex : Type :=
  | Eps                              (* the empty pattern *)
  | Cls (p : ascii -> bool)          (* one character of a class *)
  | Cat (r1 r2 : regex)              (* r1 r2 *)
  | Alt (r1 r2 : regex)              (* r1|r2, r1 tried first *)
  | Star (r : regex)                 (* r*, greedy *)
  | LazyStar (r : regex)             (* r*?, lazy *)
  | Grp (n : nat) (r : regex)        (* capturing group number n *)
  | Bos                              (* ^ without MULTILINE *)
  | Eos.                             (* $ without MULTILINE *)

Definition Opt (r : regex) : regex := Alt r Eps.          (* r? *)
Definition Plus (r : regex) : regex := Cat r (Star r).    (* r+ *)
Definition LazyPlus (r : regex) : regex := Cat r (LazyStar r). (* r+? *)
Definition Rep2 (r : regex) : regex := Cat r r.           (* r{2} *)
Definition Rep12 (r : regex) : regex := Cat r (Opt r).    (* r{1,2} *)

Definition Chr (c : ascii) : regex := Cls (char_eqb c).
(** a literal character under IGNORECASE *)
Definition ChrI (c : ascii) : regex :=
  Cls (fun x => char_eqb (lower_char x) (lower_char c)).
Definition OneOf (cs : pystr) : regex :=
  Cls (fun x => existsb (char_eqb x) cs).
Definition Any : regex := Cls not_newline.                 (* . *)
Definition Digit : regex := Cls is_digit.                  (* \d *)
Definition Space : regex := Cls is_space.                  (* \s *)

Fixpoint Lit (s : pystr) : regex :=
  match s with
  | [] => Eps
  | [c] => Chr c
  | c :: s' => Cat (Chr c) (Lit s')
  end.

Fixpoint LitI (s : pystr) : regex :=
  match s with
  | [] => Eps
  | [c] => ChrI c
  | c :: s' => Cat (ChrI c) (LitI s')
  end.

(** [a|b|c|...] *)
Fixpoint Alts (rs : list regex) : regex :=
  match rs with
  | [] => Cls (fun _ => false)
  | [r] => r
  | r :: rs' => Alt r (Alts rs')
  end.

(** The state of a match attempt: the offset reached in the subject, the
    text that is left, and the groups captured so far (latest first). *)
Record mstate : Type := MState {
  pos : nat;
  rest : pystr;
  caps : list (nat * pystr)
  }.

Definition advance (st : mstate) (s' : pystr) : mstate :=
  MState (S (pos st)) s' (caps st).

(** the text between two states of one attempt *)
Definition consumed (st st' : mstate) : pystr :=
  take (length (rest st) - length (rest st')) (rest st).

Definition set_group (n : nat) (st st' : mstate) : mstate :=
  MState (pos st') (rest st') ((n, consumed st st') :: caps st').

Definition orelse {A} (x y : option A) : option A :=
  match x with
  | Some a => Some a
  | None => y
  end.

(** [$]: the end of the text, or just before a line feed that ends it *)
Definition at_eos (s : pystr) : bool :=
  match s with
  | [] => true
  | [c] => char_eqb c newline
  | _ => false
  end.

(** One repetition loop serves [r*] and [r*?]: [body] matches [r] once; a
    greedy loop tries one more round before it tries to stop, a lazy loop
    the other way round.  A round counts only when it consumed a character,
    so the fuel, the length of the text that is left, is never the reason
    the loop stops. *)
Fixpoint rep_loop (greedy : bool)
         (body : mstate -> (mstate -> option mstate) -> option mstate)
         (k : mstate -> option mstate) (fuel : nat) (st : mstate)
         {struct fuel} : option mstate :=
  match fuel with
  | 0 => k st
  | S fuel' =>
      let again :=
        body st (fun st1 =>
          if length (rest st1) <? length (rest st)
          then rep_loop greedy body k fuel' st1 else None) in
      if greedy then orelse again (k st) else orelse (k st) again
  end.

(** The matcher, in continuation-passing style: [rmatch r st k] matches [r]
    at [st] and hands the state reached to [k]; when [k] fails, the next
    way of matching [r] is tried, in the order Python tries them. *)
Fixpoint rmatch (r : regex) (st : mstate) (k : mstate -> option mstate)
         {struct r} : option mstate :=
  match r with
  | Eps => k st
  | Cls p =>
      match rest st with
      | c :: s' => if p c then k (advance st s') else None
      | [] => None
      end
  | Cat r1 r2 => rmatch r1 st (fun st1 => rmatch r2 st1 k)
  | Alt r1 r2 => orelse (rmatch r1 st k) (rmatch r2 st k)
  | Star r1 => rep_loop true (rmatch r1) k (length (rest st)) st
  | LazyStar r1 => rep_loop false (rmatch r1) k (length (rest st)) st
  | Grp n r1 => rmatch r1 st (fun st1 => k (set_group n st st1))
  | Bos => if pos st =? 0 then k st else None
  | Eos => if at_eos (rest st) then k st else None
  end.

(** A match object: where the match starts, the text it covers (group 0)
    and its groups. *)
Record pymatch : Type := PyMatch {
  m_start : nat;
  m_text : pystr;
  m_caps : list (nat * pystr)
  }.

Fixpoint lookup_group (n : nat) (cs : list (nat * pystr)) : option pystr :=
  match cs with
  | [] => None
  | (i, s) :: cs' => if i =? n then Some s else lookup_group n cs'
  end.

(** [m.group(n)]; [None] for a group that took no part in the match *)
Definition group (m : pymatch) (n : nat) : option pystr :=
  lookup_group n (m_caps m).

(** one attempt, at offset [i], with [s] the text from there on *)
Definition match_at (r : regex) (i : nat) (s : pystr) : option pymatch :=
  let st := MState i s [] in
  match rmatch r st Some with
  | Some st' => Some (PyMatch i (consumed st st') (caps st'))
  | None => None
  end.

(** [re.match(r, s)] *)
Definition re_match (r : regex) (s : pystr) : option pymatch :=
  match_at r 0 s.

Fixpoint search_from (r : regex) (i : nat) (s : pystr) : option pymatch :=
  match match_at r i s with
  | Some m => Some m
  | None =>
      match s with
      | [] => None
      | _ :: s' => search_from r (S i) s'
      end
  end.

(** [re.search(r, s)]: the leftmost offset at which [r] matches *)
Definition re_search (r : regex) (s : pystr) : option pymatch :=
  search_from r 0 s.

(** [re.sub(r, repl, s)] for a replacement without group references: the
    matches are replaced from left to right; after an empty match the scan
    moves on by one character. *)
Fixpoint sub_from (fuel : nat) (r : regex) (repl : pystr)
         (i : nat) (s : pystr) : pystr :=
  match fuel with
  | 0 => s
  | S fuel' =>
      let skip :=
        match s with
        | [] => []
        | c :: s' => c :: sub_from fuel' r repl (S i) s'
        end in
      match match_at r i s with
      | Some m =>
          let n := length (m_text m) in
          if n =? 0 then repl ++ skip
          else repl ++ sub_from fuel' r repl (i + n) (drop n s)
      | None => skip
      end
  end.

Definition re_sub (r : regex) (repl : pystr) (s : pystr) : pystr :=
  sub_from (S (length s)) r repl 0 s.

End Re.
Import Re.

(** ** [pathlib]: [Path(name).stem], POSIX flavour

    The last component of the path that is neither empty nor [.], without
    its last suffix; a dot that starts or ends the component starts no
    suffix. *)

Definition slash : ascii := "/"%char.
Definition dot : ascii := "."%char.

(** [s.split(sep)] *)
Fixpoint split_on (sep : ascii) (s : pystr) : list pystr :=
  match s with
  | [] => [[]]
  | c :: s' =>
      match split_on sep s' with
      | w :: ws => if char_eqb c sep then [] :: w :: ws else (c :: w) :: ws
      | [] => [[]]
      end
  end.

Definition path_name (p : pystr) : pystr :=
  let parts :=
    filter (fun x => x ≠ [] ∧ x ≠ [dot]) (split_on slash p) in
  default [] (last parts).

(** [s.rfind('.')]: the index of the last dot *)
Fixpoint rfind_dot (s : pystr) : option nat :=
  match s with
  | [] => None
  | c :: s' =>
      match rfind_dot s' with
      | Some i => Some (S i)
      | None => if char_eqb c dot then Some 0 else None
      end
  end.

Definition path_stem (p : pystr) : pystr :=
  let name := path_name p in
  match rfind_dot name with
  | Some i =>
      if (0 <? i) && (i <? length name - 1) then take i name else name
  | None => name
  end.

(** ** Title normaliser: [get_normalized_title] *)

(** [r1 r2 ... rn] *)
Fixpoint Seq (rs : list regex) : regex :=
  match rs with
  | [] => Eps
  | [r] => r
  | r :: rs' => Cat r (Seq rs')
  end.

(** [(19|20)\d{2}] *)
Definition year_re : regex :=
  Seq [Grp 1 (Alt (Lit "19") (Lit "20")); Rep2 Digit].

(** [[\(\[]?(19|20)\d{2}[\)\]]?.*$] *)
Definition year_tail_re : regex :=
  Seq [Opt (OneOf "(["); Grp 1 (Alt (Lit "19") (Lit "20")); Rep2 Digit;
       Opt (OneOf ")]"); Star Any; Eos].

Definition quality_tags : list string :=
  ["720p"; "1080p"; "2160p"; "4K"; "HDRip"; "DVDRip"; "BRRip"; "BluRay";
   "WEB-DL"; "WEBRip"; "x264"; "x265"; "HEVC"]%string.

(** [\s*(720p|1080p|...|HEVC).*$] with IGNORECASE *)
Definition quality_tail_re : regex :=
  Seq [Star Space; Grp 1 (Alts (map (fun t : string => LitI t) quality_tags));
       Star Any; Eos].

(** [^(the|a|an)\s+] *)
Definition article_re : regex :=
  Seq [Bos; Grp 1 (Alts [Lit "the"; Lit "a"; Lit "an"]); Plus Space].

Record title_info : Type := TitleInfo {
  normalized_title : pystr;
  year : option pystr
}.

(** The function from the stem on: everything [get_normalized_title] does
    after [basename = Path(name).stem]. *)
Definition normalize_stem (basename : pystr) : title_info :=
  (* Try to extract year *)
  let year := m_text <$> re_search year_re basename in
  (* Remove everything after year or quality tags *)
  let title := re_sub year_tail_re "" basename in
  let title := re_sub quality_tail_re "" title in
  (* Normalize *)
  let title := re_sub (Chr ".") " " title in
  let title := re_sub (OneOf "_-") " " title in
  let title := re_sub (Plus Space) " " title in
  let title := lower (strip title) in
  (* Remove common articles *)
  let title := re_sub article_re "" title in
  TitleInfo title year.

Definition get_normalized_title (name : pystr) : title_info :=
  normalize_stem (path_stem name).

(** ** Episode identifier: [get_episode_info] *)

(** [[.\s_-]] *)
Definition is_sep (c : ascii) : bool :=
  char_eqb c "." || is_space c || char_eqb c "_" || char_eqb c "-".

(** [[Ee-](\d{1,2})] with its group numbered [n] *)
Definition one_more (n : nat) : regex :=
  Cat (OneOf "Ee-") (Grp n (Rep12 Digit)).

(** [(?:[Ee-](\d{1,2}))?] with its group numbered [n] *)
Definition extra_episode (n : nat) : regex := Opt (one_more n).

(** The patterns below end in a group around [.*], written [( .* )] here.

    [^(.+?)[.\s_-]+[Ss](\d{1,2})[Ee](\d{1,2})(?:[Ee-](\d{1,2}))?(?:[Ee-](\d{1,2}))?( .* )$] *)
Definition sxxexx_re : regex :=
  Seq [Bos; Grp 1 (LazyPlus Any); Plus (Cls is_sep); OneOf "Ss";
       Grp 2 (Rep12 Digit); OneOf "Ee"; Grp 3 (Rep12 Digit);
       extra_episode 4; extra_episode 5; Grp 6 (Star Any); Eos].

(** [^(.+?)[.\s_-]+(\d{1,2})x(\d{1,2})( .* )$] *)
Definition nxnn_re : regex :=
  Seq [Bos; Grp 1 (LazyPlus Any); Plus (Cls is_sep); Grp 2 (Rep12 Digit);
       Chr "x"; Grp 3 (Rep12 Digit); Grp 4 (Star Any); Eos].

(** [^(.+?)[.\s_-]+Season\s*(\d{1,2})[.\s_-]+Episode\s*(\d{1,2})( .* )$]
    with IGNORECASE *)
Definition season_episode_re : regex :=
  Seq [Bos; Grp 1 (LazyPlus Any); Plus (Cls is_sep); LitI "Season";
       Star Space; Grp 2 (Rep12 Digit); Plus (Cls is_sep); LitI "Episode";
       Star Space; Grp 3 (Rep12 Digit); Grp 4 (Star Any); Eos].

Definition episode_tags : list string :=
  ["720p"; "1080p"; "2160p"; "4K"; "HDTV"; "WEB-DL"; "WEBRip"; "BluRay";
   "x264"; "x265"; "HEVC"; "AAC"; "AC3"]%string.

(** [\s*(720p|1080p|...|AC3).*$] with IGNORECASE *)
Definition episode_tail_re : regex :=
  Seq [Star Space; Grp 1 (Alts (map (fun t : string => LitI t) episode_tags));
       Star Any; Eos].

Record episode_info : Type := EpisodeInfo {
  season : option Z;
  episode : option Z;
  episodes : list Z;
  show_title : option pystr;
  episode_title : option pystr;
  is_multi_episode : bool
}.

(** [if m.group(n):] holds for a group that matched a non-empty text; on
    success it gives that text. *)
Definition group_text (m : pymatch) (n : nat) : option pystr :=
  match group m n with
  | Some (c :: s) => Some (c :: s)
  | _ => None
  end.

(** [m.group(n)] of a group that every match of the pattern sets *)
Definition group_of (m : pymatch) (n : nat) : pystr :=
  default [] (group m n).

Definition group_int (m : pymatch) (n : nat) : Z :=
  int_of_digits (group_of m n).

Definition title_of_group (m : pymatch) : pystr :=
  strip (re_sub (Chr ".") " " (group_of m 1)).

Definition append_opt {A} (l : list A) (o : option A) : list A :=
  match o with
  | Some x => l ++ [x]
  | None => l
  end.

Definition episode_title_of (remainder : pystr) : option pystr :=
  let remainder := re_sub (Cat Bos (Plus (Cls is_sep))) "" remainder in
  let remainder := re_sub (Chr ".") " " remainder in
  let remainder := re_sub episode_tail_re "" remainder in
  match strip remainder with
  | [] => None
  | t => Some t
  end.

Definition get_episode_info (filename : pystr) : episode_info :=
  let basename := path_stem filename in
  (* Pattern 1: S01E01 or S01E01E02 or S01E01-E03 *)
  match re_match sxxexx_re basename with
  | Some m =>
      let e := group_int m 3 in
      let e4 := int_of_digits <$> group_text m 4 in
      let e5 := int_of_digits <$> group_text m 5 in
      EpisodeInfo (Some (group_int m 2)) (Some e)
        (append_opt (append_opt [e] e4) e5)
        (Some (title_of_group m))
        (group_text m 6 ≫= episode_title_of)
        (bool_decide (is_Some e4))
  | None =>
  (* Pattern 2: 1x01 format *)
  match re_match nxnn_re basename with
  | Some m =>
      let e := group_int m 3 in
      EpisodeInfo (Some (group_int m 2)) (Some e) [e]
        (Some (title_of_group m)) None false
  | None =>
  (* Pattern 3: Season 1 Episode 1 *)
  match re_match season_episode_re basename with
  | Some m =>
      let e := group_int m 3 in
      EpisodeInfo (Some (group_int m 2)) (Some e) [e]
        (Some (title_of_group m)) None false
  | None => EpisodeInfo None None [] None None false
  end end end.

(** ** Quality scorer: [get_quality_score] *)

(** [str(n)] for an integer *)
Definition str_of_Z (z : Z) : pystr :=
  str (DecimalString.NilZero.string_of_int (Z.to_int z)).

(** What [get_mediainfo_details] returns for a file (the fields the scorer
    reads), and the [format] entry of [get_mediainfo_hdr_format]. *)
Record media_info : Type := MediaInfo {
  mi_video_codec : pystr;
  mi_audio_codec : pystr;
  mi_width : Z;
  mi_height : Z;
  mi_bitrate : Z;
  mi_hdr : bool;
  mi_audio_channels : Z
}.

(** The outcome of probing one file: [probe_info] is [None] when there is
    no file path, no such file, no prober, or the prober failed. *)
Record probe : Type := Probe {
  probe_info : option media_info;
  probe_hdr_format : option pystr
}.

Definition no_probe : probe := Probe None None.

(** One line of the rationale: its label, whether it was measured by the
    prober, and the points.  The text the source renders from it (with the
    measured width, height or bitrate) is the report's business. *)
Record detail : Type := Detail {
  d_label : pystr;
  d_measured : bool;
  d_points : Z
}.

Record quality : Type := Quality {
  score : Z;
  resolution : pystr;
  codec : pystr;
  source : pystr;
  audio : pystr;
  hdr : bool;
  hdr_format : option pystr;
  bitrate : Z;
  width : Z;
  height : Z;
  audio_channels : Z;
  details : list detail;
  data_source : pystr
}.

Definition initial_quality : quality :=
  Quality 0 "Unknown" "Unknown" "Unknown" "Unknown" false None 0 0 0 0 []
          "Filename".

(** [quality['score'] += points; quality['details'].append(...)] *)
Definition award (measured : bool) (label : pystr) (points : Z)
           (q : quality) : quality :=
  Quality (score q + points) (resolution q) (codec q) (source q) (audio q)
          (hdr q) (hdr_format q) (bitrate q) (width q) (height q)
          (audio_channels q) (details q ++ [Detail label measured points])
          (data_source q).

Definition set_resolution (v : pystr) (q : quality) : quality :=
  Quality (score q) v (codec q) (source q) (audio q) (hdr q) (hdr_format q)
          (bitrate q) (width q) (height q) (audio_channels q) (details q)
          (data_source q).

Definition set_codec (v : pystr) (q : quality) : quality :=
  Quality (score q) (resolution q) v (source q) (audio q) (hdr q)
          (hdr_format q) (bitrate q) (width q) (height q) (audio_channels q)
          (details q) (data_source q).

Definition set_source (v : pystr) (q : quality) : quality :=
  Quality (score q) (resolution q) (codec q) v (audio q) (hdr q)
          (hdr_format q) (bitrate q) (width q) (height q) (audio_channels q)
          (details q) (data_source q).

Definition set_audio (v : pystr) (q : quality) : quality :=
  Quality (score q) (resolution q) (codec q) (source q) v (hdr q)
          (hdr_format q) (bitrate q) (width q) (height q) (audio_channels q)
          (details q) (data_source q).

Definition set_hdr (v : bool) (q : quality) : quality :=
  Quality (score q) (resolution q) (codec q) (source q) (audio q) v
          (hdr_format q) (bitrate q) (width q) (height q) (audio_channels q)
          (details q) (data_source q).

Definition set_hdr_format (v : option pystr) (q : quality) : quality :=
  Quality (score q) (resolution q) (codec q) (source q) (audio q) (hdr q) v
          (bitrate q) (width q) (height q) (audio_channels q) (details q)
          (data_source q).

Definition set_measured (mi : media_info) (q : quality) : quality :=
  Quality (score q) (resolution q) (codec q) (source q) (audio q) (hdr q)
          (hdr_format q) (mi_bitrate mi) (mi_width mi) (mi_height mi)
          (mi_audio_channels mi) (details q) "MediaInfo".

Definition set_data_source (v : pystr) (q : quality) : quality :=
  Quality (score q) (resolution q) (codec q) (source q) (audio q) (hdr q)
          (hdr_format q) (bitrate q) (width q) (height q) (audio_channels q)
          (details q) v.

(** a pattern under [re.search(..., re.IGNORECASE)] *)
Definition found (r : regex) (s : pystr) : bool :=
  bool_decide (is_Some (re_search r s)).

(** [HEVC|H\.?265] and the like: a letter, an optional dot, digits *)
Definition h26x (digits : string) : regex :=
  Seq [ChrI "H"; Opt (Chr "."); LitI digits].

(** [codec_map], in the order of the dictionary *)
Definition codec_map : list (regex * (string * Z)) :=
  [ (Alt (LitI "HEVC") (h26x "265"), ("HEVC/x265", 20%Z));
    (Alt (LitI "AVC") (h26x "264"), ("x264", 15%Z));
    (LitI "AV1", ("AV1", 25%Z));
    (LitI "VP9", ("VP9", 18%Z));
    (Alts [LitI "MPEG-4"; LitI "DivX"; LitI "XviD"], ("XviD", 5%Z));
    (Alt (LitI "VC-1") (LitI "WMV"), ("VC-1", 8%Z)) ]%string.

(** [audio_map], in the order of the dictionary *)
Definition audio_map : list (regex * (string * Z)) :=
  [ (LitI "Atmos", ("Atmos", 15%Z));
    (LitI "TrueHD", ("TrueHD", 12%Z));
    (Alt (LitI "DTS-HD") (Seq [LitI "DTS"; Star Any; LitI "HD"]),
     ("DTS-HD", 10%Z));
    (Alt (Seq [LitI "DTS"; Star Any; ChrI "X"]) (LitI "DTS:X"),
     ("DTS:X", 14%Z));
    (Seq [Bos; LitI "DTS"; Eos], ("DTS", 8%Z));
    (Alt (LitI "E-AC-3") (LitI "EAC3"), ("EAC3", 7%Z));
    (Alt (LitI "AC-3") (LitI "AC3"), ("AC3", 5%Z));
    (LitI "AAC", ("AAC", 3%Z));
    (LitI "FLAC", ("FLAC", 6%Z));
    (LitI "Opus", ("Opus", 4%Z)) ]%string.

(** [for pattern, (name, points) in table.items(): if re.search(...): ...
    break] *)
Fixpoint first_found (table : list (regex * (string * Z))) (s : pystr)
  : option (string * Z) :=
  match table with
  | [] => None
  | (r, v) :: table' => if found r s then Some v else first_found table' s
  end.

(** [hdr_scores.get(format, 10)] *)
Definition hdr_scores (format : pystr) : Z :=
  if bool_decide (format = str "Dolby Vision") then 18
  else if bool_decide (format = str "HDR10+") then 16
  else if bool_decide (format = str "HDR10") then 12
  else if bool_decide (format = str "HLG") then 10
  else if bool_decide (format = str "HDR") then 10
  else 10.

Definition truthy (s : pystr) : bool :=
  match s with
  | [] => false
  | _ :: _ => true
  end.

Local Open Scope Z_scope.

(** The blocks under [if media_info:], in their order. *)

(** [# Resolution from actual dimensions] *)
Definition measured_resolution (mi : media_info) (q : quality) : quality :=
  let h := mi_height mi in
  if 2160 <=? h then
    award true "4K/2160p" 100 (set_resolution "2160p" q)
  else if 1080 <=? h then
    award true "1080p" 80 (set_resolution "1080p" q)
  else if 720 <=? h then
    award true "720p" 60 (set_resolution "720p" q)
  else if 480 <=? h then
    award true "480p" 40 (set_resolution "480p" q)
  else if 0 <? h then
    let label := (str_of_Z h ++ str "p")%list in
    award true label 20 (set_resolution label q)
  else q.

(** [# Video codec from MediaInfo] *)
Definition measured_codec (mi : media_info) (q : quality) : quality :=
  let video_codec := mi_video_codec mi in
  if truthy video_codec then
    match first_found codec_map video_codec with
    | Some (name, points) => award true name points (set_codec name q)
    | None => award true video_codec 10 (set_codec video_codec q)
    end
  else q.

(** [# Audio codec from MediaInfo] *)
Definition measured_audio (mi : media_info) (q : quality) : quality :=
  let audio_codec := mi_audio_codec mi in
  if truthy audio_codec then
    match first_found audio_map audio_codec with
    | Some (name, points) => award true name points (set_audio name q)
    | None => q
    end
  else q.

(** [# HDR detection from MediaInfo] *)
Definition measured_hdr (mi : media_info) (hdr_probe : option pystr)
           (q : quality) : quality :=
  if mi_hdr mi then
    let q := set_hdr true q in
    match hdr_probe with
    | Some (c :: f) =>
        let format := c :: f in
        award true format (hdr_scores format)
              (set_hdr_format (Some format) q)
    | _ => award true "HDR" 10 q
    end
  else q.

(** [# Bitrate bonus]: [bitrate / 1000000] against 40, 20, 10 and 5 *)
Definition measured_bitrate (q : quality) : quality :=
  if 0 <? bitrate q then
    if 40000000 <=? bitrate q then award true "High Bitrate" 20 q
    else if 20000000 <=? bitrate q then award true "Good Bitrate" 15 q
    else if 10000000 <=? bitrate q then award true "Moderate Bitrate" 10 q
    else if 5000000 <=? bitrate q then award true "Low Bitrate" 5 q
    else q
  else q.

Definition score_measured (mi : media_info) (hdr_probe : option pystr)
           (q : quality) : quality :=
  let q := set_measured mi q in
  let q := measured_resolution mi q in
  let q := measured_codec mi q in
  let q := measured_audio mi q in
  let q := measured_hdr mi hdr_probe q in
  measured_bitrate q.

(** [[\s.\-]] *)
Definition is_gap (c : ascii) : bool :=
  is_space c || char_eqb c "." || char_eqb c "-".

(** [dts[\s.\-]?x|dtsx] *)
Definition dtsx_re : regex :=
  Alt (Seq [Lit "dts"; Opt (Cls is_gap); Chr "x"]) (Lit "dtsx").

(** [dts-hd|dtshd|dts[\s.\-]?hd[\s.\-]?ma] *)
Definition dtshd_re : regex :=
  Alts [Lit "dts-hd"; Lit "dtshd";
        Seq [Lit "dts"; Opt (Cls is_gap); Lit "hd"; Opt (Cls is_gap);
             Lit "ma"]].

(** [dolby[\s.\-]?vision|dovi|dv[\s.\-]hdr|\.dv\.] *)
Definition dolby_vision_re : regex :=
  Alts [Seq [Lit "dolby"; Opt (Cls is_gap); Lit "vision"]; Lit "dovi";
        Seq [Lit "dv"; Cls is_gap; Lit "hdr"]; Lit ".dv."].

(** [hdr10\+|hdr10plus] *)
Definition hdr10plus_re : regex :=
  Alt (Lit "hdr10+") (Lit "hdr10plus").

Definition has (p : string) (s : pystr) : bool := contains p s.
Definition has_any (ps : list string) (s : pystr) : bool :=
  contains_any (map str ps) s.

(** The blocks under [if not media_info:], in their order; each reads the
    lower-cased file name. *)

(** [# Resolution scoring] *)
Definition filename_resolution (filename_lower : pystr) (q : quality)
  : quality :=
  if has_any ["2160p"; "4k"; "uhd"]%string filename_lower then
    award false "4K/2160p" 100 (set_resolution "2160p" q)
  else if has "1080p" filename_lower then
    award false "1080p" 80 (set_resolution "1080p" q)
  else if has "720p" filename_lower then
    award false "720p" 60 (set_resolution "720p" q)
  else if has_any ["480p"; "dvd"]%string filename_lower then
    award false "480p" 40 (set_resolution "480p" q)
  else q.

(** [# Codec scoring] *)
Definition filename_codec (filename_lower : pystr) (q : quality) : quality :=
  if has "av1" filename_lower then
    award false "AV1" 25 (set_codec "AV1" q)
  else if has_any ["x265"; "h265"; "h.265"; "hevc"]%string filename_lower
  then award false "HEVC/x265" 20 (set_codec "HEVC/x265" q)
  else if has "vp9" filename_lower then
    award false "VP9" 18 (set_codec "VP9" q)
  else if has_any ["x264"; "h264"; "h.264"; "avc"]%string filename_lower
  then award false "x264" 15 (set_codec "x264" q)
  else if has_any ["xvid"; "divx"]%string filename_lower then
    award false "XviD" 5 (set_codec "XviD" q)
  else q.

(** [# Audio scoring] *)
Definition filename_audio (filename_lower : pystr) (q : quality) : quality :=
  if has "atmos" filename_lower then
    award false "Atmos" 15 (set_audio "Atmos" q)
  else if found dtsx_re filename_lower then
    award false "DTS:X" 14 (set_audio "DTS:X" q)
  else if has "truehd" filename_lower then
    award false "TrueHD" 12 (set_audio "TrueHD" q)
  else if found dtshd_re filename_lower then
    award false "DTS-HD" 10 (set_audio "DTS-HD" q)
  else if has "dts" filename_lower then
    award false "DTS" 8 (set_audio "DTS" q)
  else if has_any ["eac3"; "ddp"; "dd+"]%string filename_lower then
    award false "EAC3/DD+" 7 (set_audio "EAC3" q)
  else if has_any ["ac3"; "dd5.1"]%string filename_lower then
    award false "AC3" 5 (set_audio "AC3" q)
  else if has "flac" filename_lower then
    award false "FLAC" 6 (set_audio "FLAC" q)
  else if has "aac" filename_lower then
    award false "AAC" 3 (set_audio "AAC" q)
  else q.

Definition hdr_as (format : string) (points : Z) (q : quality) : quality :=
  award false format points
        (set_hdr_format (Some (str format)) (set_hdr true q)).

(** [# HDR scoring] *)
Definition filename_hdr (filename_lower : pystr) (q : quality) : quality :=
  if found dolby_vision_re filename_lower then hdr_as "Dolby Vision" 18 q
  else if found hdr10plus_re filename_lower then hdr_as "HDR10+" 16 q
  else if has "hdr10" filename_lower then hdr_as "HDR10" 12 q
  else if has "hlg" filename_lower then hdr_as "HLG" 10 q
  else if has "hdr" filename_lower then hdr_as "HDR" 10 q
  else q.

Definition score_filename (filename : pystr) (q : quality) : quality :=
  let q := set_data_source "Filename" q in
  let filename_lower := lower filename in
  let q := filename_resolution filename_lower q in
  let q := filename_codec filename_lower q in
  let q := filename_audio filename_lower q in
  filename_hdr filename_lower q.

(** The block under [# Source scoring (always from filename)]. *)
Definition score_source (filename : pystr) (q : quality) : quality :=
  let filename_lower := lower filename in
  if has "remux" filename_lower then
    award false "Remux" 35 (set_source "Remux" q)
  else if has_any ["bluray"; "blu-ray"; "bdrip"; "brrip"]%string
                  filename_lower then
    award false "BluRay" 30 (set_source "BluRay" q)
  else if has_any ["web-dl"; "webdl"]%string filename_lower then
    award false "WEB-DL" 25 (set_source "WEB-DL" q)
  else if has "webrip" filename_lower then
    award false "WEBRip" 20 (set_source "WEBRip" q)
  else if has "hdtv" filename_lower then
    award false "HDTV" 15 (set_source "HDTV" q)
  else if has "dvdrip" filename_lower then
    award false "DVDRip" 10 (set_source "DVDRip" q)
  else q.

(** The quality before the source block. *)
Definition score_attributes (filename : pystr) (p : probe) : quality :=
  match probe_info p with
  | Some mi => score_measured mi (probe_hdr_format p) initial_quality
  | None => score_filename filename initial_quality
  end.

Definition get_quality_score (filename : pystr) (p : probe) : quality :=
  score_source filename (score_attributes filename p).

Local Close Scope Z_scope.

(** ** Exceptions and the log *)

Inductive exn : Type :=
| OSError
| ZeroDivisionError.

(** The outcome of code that may raise. *)
Inductive result (A : Type) : Type :=
| Ok (a : A)
| Raise (e : exn).
Arguments Ok {A} a.
Arguments Raise {A} e.

#[global] Instance result_ret : MRet result := fun A a => Ok a.
#[global] Instance result_bind : MBind result := fun A B f m =>
  match m with
  | Ok a => f a
  | Raise e => Raise e
  end.

Inductive log_entry : Type :=
| LogInfo (message : pystr)
| LogWarning (message : pystr) (e : exn)
| LogError (message : pystr) (e : exn).

(** ** Content hasher: [get_file_partial_hash] *)

(** What the hasher can observe of the file at one path: the size
    [os.path.getsize] reports (or the error it raises), the bytes a handle
    from [open(path, 'rb')] reads (or the error [open] raises), and which
    of the later operations on the handle (numbered from 0) raise. *)
Record file_state : Type := FileState {
  fs_getsize : result Z;
  fs_open : result (list byte);
  fs_fault : nat -> bool
}.

Record handle : Type := Handle {
  h_data : list byte;
  h_pos : nat;
  h_ops : nat;
  h_fault : nat -> bool
}.

Definition open_rb (f : file_state) : result handle :=
  data ← fs_open f; Ok (Handle data 0 0 (fs_fault f)).

(** every operation on a handle first meets the fault of its turn *)
Definition op_turn (h : handle) : result handle :=
  if h_fault h (h_ops h) then Raise OSError
  else Ok (Handle (h_data h) (h_pos h) (S (h_ops h)) (h_fault h)).

Definition moved (h : handle) (p : nat) : handle :=
  Handle (h_data h) p (h_ops h) (h_fault h).

(** [f.read()] *)
Definition read_all (h : handle) : result (list byte * handle) :=
  h ← op_turn h;
  Ok (drop (h_pos h) (h_data h),
      moved h (h_pos h `max` length (h_data h))).

(** [f.read(n)]; a negative [n] reads to the end *)
Definition read (h : handle) (n : Z) : result (list byte * handle) :=
  if (n <? 0)%Z then read_all h
  else
    h ← op_turn h;
    let bytes := take (Z.to_nat n) (drop (h_pos h) (h_data h)) in
    Ok (bytes, moved h (h_pos h + length bytes)).

(** [f.seek(offset, 2)]: from the end; a position before the start of the
    file is an error *)
Definition seek_end (h : handle) (offset : Z) : result handle :=
  h ← op_turn h;
  let p := (Z.of_nat (length (h_data h)) + offset)%Z in
  if (p <? 0)%Z then Raise OSError else Ok (moved h (Z.to_nat p)).

(** [str(n).encode()] *)
Definition encode (s : pystr) : list byte := map byte_of_ascii s.

Definition default_sample_size : Z := 1024 * 1024.

Section Hasher.

(** [hashlib.md5]: the hex digest of a byte string.  A hasher object is
    the bytes it was fed so far. *)
Variable md5_hexdigest : list byte -> pystr.

Definition hasher : Type := list byte.
Definition md5_new : hasher := [].
Definition update (h : hasher) (data : list byte) : hasher := h ++ data.
Definition hexdigest (h : hasher) : pystr := md5_hexdigest h.

(** the body of the [try] *)
Definition partial_hash_body (file : file_state) (sample_size : Z)
  : result pystr :=
  file_size ← fs_getsize file;
  if (file_size <=? sample_size * 2)%Z then
    (* For small files, hash the entire file *)
    let hasher := md5_new in
    f ← open_rb file;
    '(data, f) ← read_all f;
    let hasher := update hasher data in
    Ok (hexdigest hasher)
  else
    (* For large files, hash first and last chunks plus size *)
    let hasher := md5_new in
    f ← open_rb file;
    (* Read first chunk *)
    '(chunk, f) ← read f sample_size;
    let hasher := update hasher chunk in
    (* Seek to end and read last chunk *)
    f ← seek_end f (- sample_size);
    '(chunk, f) ← read f sample_size;
    let hasher := update hasher chunk in
    (* Add file size for uniqueness *)
    let hasher := update hasher (encode (str_of_Z file_size)) in
    Ok (hexdigest hasher).

(** [get_file_partial_hash(file_path, sample_size)], with the file at
    [file_path] as its argument; the second component is what it logs. *)
Definition get_file_partial_hash (file : file_state) (sample_size : Z)
  : option pystr * list log_entry :=
  match partial_hash_body file sample_size with
  | Ok digest => (Some digest, [])
  | Raise e => (None, [LogWarning "Error calculating hash" e])
  end.

End Hasher.

(** ** Ranking of a group: [sorted(group, key=score, reverse=True)] *)

(** [sorted(l, key=key, reverse=True)]: descending by key, and stable,
    elements of equal key keep the order they have in [l]. *)
Fixpoint insert_desc {A} (key : A -> Z) (x : A) (l : list A) : list A :=
  match l with
  | [] => [x]
  | y :: l' =>
      if (key x <? key y)%Z then y :: insert_desc key x l' else x :: y :: l'
  end.

Fixpoint sorted_desc {A} (key : A -> Z) (l : list A) : list A :=
  match l with
  | [] => []
  | x :: l' => insert_desc key x (sorted_desc key l')
  end.

(** ** Numbers: Python's [int / int], [float / float] and [int - float]

    Floats are binary64, as Python's.  [float_of_int] is exact below 2^53
    in magnitude, and so is every file size a file system reports. *)

Definition float_of_int (z : Z) : float :=
  if (z <? 0)%Z then PrimFloat.opp (PrimFloat.of_uint63 (Uint63.of_Z (- z)))
  else PrimFloat.of_uint63 (Uint63.of_Z z).

(** [a / b] on integers: an error for [b = 0], the float zero for [a = 0],
    else the quotient of the two as floats. *)
Definition int_true_div (a b : Z) : result float :=
  if (b =? 0)%Z then Raise ZeroDivisionError
  else if (a =? 0)%Z then Ok PrimFloat.zero
  else Ok (PrimFloat.div (float_of_int a) (float_of_int b)).

(** [x / y] on floats: an error for a zero [y] *)
Definition float_div (x y : float) : result float :=
  if PrimFloat.eqb y PrimFloat.zero then Raise ZeroDivisionError
  else Ok (PrimFloat.div x y).

(** the float written [0.1] *)
Definition one_tenth : float := 0x1.999999999999ap-4%float.

(** ** Duplicate detector *)

Inductive match_tag : Type :=
| ExactHash
| TitleMatch
| SimilarSize.

#[global] Instance match_tag_eq_dec : EqDecision match_tag.
Proof. solve_decision. Defined.

(** One file with a video extension, as the scan of its folder sees it:
    its path, the size [stat] reports, what [get_file_partial_hash]
    returns for it, and what the prober returns for it. *)
Record video : Type := Video {
  video_path : pystr;
  video_size : Z;
  video_hash : option pystr;
  video_probe : probe
}.

(** One directory under the library root, with its files that have a video
    extension, in the order [iterdir] lists them. *)
Record folder : Type := Folder {
  folder_path : pystr;
  folder_name : pystr;
  folder_videos : list video
}.

(** The [entry] dictionary of the enhanced detector. *)
Record entry : Type := Entry {
  path : pystr;
  original_name : pystr;
  entry_year : option pystr;
  entry_quality : quality;
  file_size : Z;
  file_path : pystr;
  file_hash : option pystr;
  match_type : list match_tag
}.

(** [entry['match_type'].append(t)] *)
Definition append_tag (t : match_tag) (e : entry) : entry :=
  Entry (path e) (original_name e) (entry_year e) (entry_quality e)
        (file_size e) (file_path e) (file_hash e) (match_type e ++ [t]).

(** The entries are objects shared by the two indices and by the groups
    that are returned: a heap holds them, and an index or a group holds
    their positions in the heap. *)
Abbreviation heap := (list entry) (only parsing).
Abbreviation ref := nat (only parsing).

Definition tag (t : match_tag) (r : ref) (h : heap) : heap :=
  alter (append_tag t) r h.

(** A dictionary from strings to lists of entries, in insertion order. *)
Abbreviation index := (list (pystr * list ref)) (only parsing).

(** [if key not in d: d[key] = []] then [d[key].append(r)] *)
Fixpoint index_append (key : pystr) (r : ref) (d : index) : index :=
  match d with
  | [] => [(key, [r])]
  | (k, rs) :: d' =>
      if bool_decide (k = key) then (k, rs ++ [r]) :: d'
      else (k, rs) :: index_append key r d'
  end.

(** [max(video_files, key=lambda f: f.stat().st_size)]: the first of the
    largest files *)
Definition largest (vs : list video) : option video :=
  foldl (fun best v =>
           match best with
           | None => Some v
           | Some b =>
               if (video_size b <? video_size v)%Z then Some v else Some b
           end) None vs.

(** the title key: the normalized title, then [|] and the year when there
    is one *)
Definition title_key (t : title_info) : pystr :=
  match year t with
  | Some (c :: y) => normalized_title t ++ str "|" ++ c :: y
  | _ => normalized_title t
  end.

Record scan_state : Type := ScanState {
  scan_heap : heap;
  title_lookup : index;
  hash_lookup : index
}.

(** One round of [for i, folder in enumerate(movie_folders, 1)]. *)
Definition scan_folder (st : scan_state) (f : folder) : scan_state :=
  (* Find main video file *)
  match largest (folder_videos f) with
  | None => st
  | Some video_file =>
      let title_info := get_normalized_title (folder_name f) in
      let quality :=
        get_quality_score (folder_name f) (video_probe video_file) in
      (* Calculate partial hash *)
      let file_hash := video_hash video_file in
      let entry :=
        Entry (folder_path f) (folder_name f) (year title_info) quality
              (video_size video_file) (video_path video_file) file_hash [] in
      let r := length (scan_heap st) in
      (* Add to title lookup *)
      let key := title_key title_info in
      let title_lookup := index_append key r (title_lookup st) in
      (* Add to hash lookup *)
      let hash_lookup :=
        match file_hash with
        | Some (c :: h) => index_append (c :: h) r (hash_lookup st)
        | _ => hash_lookup st
        end in
      ScanState (scan_heap st ++ [entry]) title_lookup hash_lookup
  end.

Record detect_state : Type := DetectState {
  det_heap : heap;
  processed_paths : gset pystr;
  duplicates : list (list ref)
}.

(** [entry['match_type'].append('ExactHash');
     processed_paths.add(entry['path'])] *)
Definition mark_exact (st : detect_state) (r : ref) : detect_state :=
  let h := tag ExactHash r (det_heap st) in
  let processed :=
    match h !! r with
    | Some e => {[ path e ]} ∪ processed_paths st
    | None => processed_paths st
    end in
  DetectState h processed (duplicates st).

(** One round of [for hash_val, entries in hash_lookup.items()]. *)
Definition hash_group (st : detect_state) (item : pystr * list ref)
  : detect_state :=
  let entries := item.2 in
  if 1 <? length entries then
    let st := foldl mark_exact st entries in
    DetectState (det_heap st) (processed_paths st)
                (duplicates st ++ [entries])
  else st.

Definition size_of (h : heap) (r : ref) : Z :=
  default 0%Z (file_size <$> h !! r).

(** [sum(e['file_size'] for e in unprocessed)] *)
Definition total_size (h : heap) (rs : list ref) : Z :=
  foldl (fun acc r => (acc + size_of h r)%Z) 0%Z rs.

(** [abs(entry['file_size'] - avg_size) / avg_size < 0.1] with
    [avg_size = sum(...) / len(unprocessed)] *)
Definition similar_size (h : heap) (unprocessed : list ref) (r : ref)
  : result bool :=
  avg_size ← int_true_div (total_size h unprocessed)
                          (Z.of_nat (length unprocessed));
  ratio ← float_div
            (PrimFloat.abs
               (PrimFloat.sub (float_of_int (size_of h r)) avg_size))
            avg_size;
  Ok (PrimFloat.ltb ratio one_tenth).

(** One round of [for entry in unprocessed]. *)
Definition tag_title (unprocessed : list ref) (h : heap) (r : ref)
  : result heap :=
  let h := tag TitleMatch r h in
  (* Check if file sizes are similar (within 10%) *)
  similar ← similar_size h unprocessed r;
  Ok (if similar : bool then tag SimilarSize r h else h).

(** a [for] loop whose body may raise *)
Fixpoint for_each {S A} (body : S -> A -> result S) (st : S) (l : list A)
  : result S :=
  match l with
  | [] => Ok st
  | x :: l' => st ← body st x; for_each body st l'
  end.

Definition is_processed (st : detect_state) (r : ref) : bool :=
  match det_heap st !! r with
  | Some e => bool_decide (path e ∈ processed_paths st)
  | None => false
  end.

(** [[e for e in entries if e['path'] not in processed_paths]] *)
Definition unprocessed_of (st : detect_state) (entries : list ref)
  : list ref :=
  List.filter (fun r => negb (is_processed st r)) entries.

(** One round of [for key, entries in title_lookup.items()]. *)
Definition title_group (st : detect_state) (item : pystr * list ref)
  : result detect_state :=
  let entries := item.2 in
  let unprocessed := unprocessed_of st entries in
  if 1 <? length unprocessed then
    h ← for_each (tag_title unprocessed) (det_heap st) unprocessed;
    Ok (DetectState h (processed_paths st)
                    (duplicates st ++ [unprocessed]))
  else Ok st.

Definition trailers : pystr := str "_Trailers".

(** the directories the scan visits *)
Definition movie_folders (dirs : list folder) : list folder :=
  List.filter (fun f => negb (bool_decide (folder_name f = trailers))) dirs.

Definition scan (dirs : list folder) : scan_state :=
  foldl scan_folder (ScanState [] [] []) (movie_folders dirs).

(** The part of the [try] from [# Find duplicates] on: the groups, as
    lists of references, and the heap they point into. *)
Definition find_groups (sc : scan_state) : result (list (list ref) * heap) :=
  let st := DetectState (scan_heap sc) ∅ [] in
  (* First, find exact duplicates by hash *)
  let st := foldl hash_group st (hash_lookup sc) in
  (* Then find title-based duplicates *)
  st ← for_each title_group st (title_lookup sc);
  Ok (duplicates st, det_heap st).

(** the entries a group refers to *)
Definition deref (h : heap) (group : list ref) : list entry :=
  omap (fun r => h !! r) group.

(** [find_duplicate_movies_enhanced(path)], with the directories under
    [path] as its argument: the groups it returns and what it logs. *)
Definition find_duplicate_movies_enhanced (dirs : list folder)
  : list (list entry) * list log_entry :=
  let start := LogInfo "Starting enhanced duplicate scan" in
  match movie_folders dirs with
  | [] => ([], [start])
  | _ :: _ =>
      match find_groups (scan dirs) with
      | Ok (groups, h) =>
          (map (deref h) groups,
           [start;
            LogInfo (str "Enhanced duplicate scan found "
                     ++ str_of_Z (Z.of_nat (length groups))
                     ++ str " duplicate groups")])
      | Raise e =>
          ([], [start; LogError "Error in enhanced duplicate scan" e])
      end
  end.

Definition entry_score (e : entry) : Z := score (entry_quality e).

Inductive verdict : Type := KEEP | DEL.

(** [for i, movie in enumerate(sorted_group)]: the first is to keep *)
Definition verdicts (sorted_group : list entry) : list (verdict * entry) :=
  imap (fun i movie => (if i =? 0 then KEEP else DEL, movie)) sorted_group.

(** [show_enhanced_duplicate_report(path)]: the lines it prints for each
    group, in the order it prints them. *)
Definition show_enhanced_duplicate_report (dirs : list folder)
  : list (list (verdict * entry)) :=
  map (fun group => verdicts (sorted_desc entry_score group))
      (find_duplicate_movies_enhanced dirs).1.

(** ** The plain detector: [find_duplicate_movies] *)

Module Plain.

(** The [entry] dictionary of the plain detector. *)
Record entry : Type := Entry {
  path : pystr;
  original_name : pystr;
  entry_year : option pystr;
  entry_quality : quality;
  file_size : Z
}.

Definition index : Type := list (pystr * list entry).

Fixpoint index_append (key : pystr) (e : entry) (d : index) : index :=
  match d with
  | [] => [(key, [e])]
  | (k, es) :: d' =>
      if bool_decide (k = key) then (k, es ++ [e]) :: d'
      else (k, es) :: index_append key e d'
  end.

(** [max((f.stat().st_size for f in video_files), default=0)] *)
Definition max_size (vs : list video) : Z :=
  match vs with
  | [] => 0%Z
  | v :: vs' => foldl (fun m v => Z.max m (video_size v)) (video_size v) vs'
  end.

(** One round of [for folder in movie_folders]. *)
Definition scan_folder (title_lookup : index) (f : folder) : index :=
  let title_info := get_normalized_title (folder_name f) in
  let quality := get_quality_score (folder_name f) no_probe in
  (* Find main video file *)
  let file_size := max_size (folder_videos f) in
  let entry :=
    Entry (folder_path f) (folder_name f) (year title_info) quality
          file_size in
  let key := title_key title_info in
  index_append key entry title_lookup.

(** [find_duplicate_movies(path)], with the directories under [path] as
    its argument. *)
Definition find_duplicate_movies (dirs : list folder) : list (list entry) :=
  let title_lookup := foldl scan_folder [] (movie_folders dirs) in
  (* Find duplicates *)
  List.filter (fun entries => 1 <? length entries) (map snd title_lookup).

Definition entry_score (e : entry) : Z := score (entry_quality e).

(** [show_duplicate_report(path)]: each group as it is listed. *)
Definition show_duplicate_report (dirs : list folder)
  : list (list entry) :=
  map (sorted_desc entry_score) (find_duplicate_movies dirs).

End Plain.

(** ** Vocabulary of the properties *)

(** The matches of a pattern, as a relation between the state where a
    match starts and the state where it ends: what [rmatch] enumerates. *)
Inductive Matches : regex -> mstate -> mstate -> Prop :=
| M_eps st : Matches Eps st st
| M_cls p st c s' :
    rest st = c :: s' -> p c = true -> Matches (Cls p) st (advance st s')
| M_cat r1 r2 st st1 st2 :
    Matches r1 st st1 -> Matches r2 st1 st2 -> Matches (Cat r1 r2) st st2
| M_alt_l r1 r2 st st' : Matches r1 st st' -> Matches (Alt r1 r2) st st'
| M_alt_r r1 r2 st st' : Matches r2 st st' -> Matches (Alt r1 r2) st st'
| M_star_stop r st : Matches (Star r) st st
| M_star_step r st st1 st2 :
    Matches r st st1 -> length (rest st1) < length (rest st) ->
    Matches (Star r) st1 st2 -> Matches (Star r) st st2
| M_lazy_stop r st : Matches (LazyStar r) st st
| M_lazy_step r st st1 st2 :
    Matches r st st1 -> length (rest st1) < length (rest st) ->
    Matches (LazyStar r) st1 st2 -> Matches (LazyStar r) st st2
| M_grp n r st st1 :
    Matches r st st1 -> Matches (Grp n r) st (set_group n st st1)
| M_bos st : pos st = 0 -> Matches Bos st st
| M_eos st : at_eos (rest st) = true -> Matches Eos st st.

(** a text without line feed *)
Definition newline_free (s : pystr) : bool := forallb not_newline s.

(** The text starts with a year token: [19] or [20], then two digits. *)
Definition is_year_at (s : pystr) : bool :=
  match s with
  | c1 :: c2 :: d1 :: d2 :: _ =>
      ((char_eqb "1" c1 && char_eqb "9" c2)
       || (char_eqb "2" c1 && char_eqb "0" c2))
      && is_digit d1 && is_digit d2
  | _ => false
  end.

(** The leftmost year token of a text. *)
Fixpoint first_year (s : pystr) : option pystr :=
  if is_year_at s then Some (take 4 s)
  else match s with
       | [] => None
       | _ :: s' => first_year s'
       end.

(** The text holds a year token somewhere. *)
Fixpoint has_year (s : pystr) : bool :=
  is_year_at s ||
  match s with
  | [] => false
  | _ :: s' => has_year s'
  end.

(** The references of an index entry that the hash pass left unsettled. *)
Definition settled (sc : scan_state) : detect_state :=
  foldl hash_group (DetectState (scan_heap sc) ∅ []) (hash_lookup sc).

Definition unsettled (sc : scan_state) (entries : list ref) : list ref :=
  unprocessed_of (settled sc) entries.

(** A list is in descending order of a key. *)
Fixpoint descending {A} (key : A -> Z) (l : list A) : Prop :=
  match l with
  | [] => True
  | x :: l' => Forall (fun y => (key y <= key x)%Z) l' /\ descending key l'
  end.

(** the elements of a list that have a given key, in their order *)
Definition with_key {A} (key : A -> Z) (k : Z) (l : list A) : list A :=
  List.filter (fun x => (key x =? k)%Z) l.

(** the text holds no character [c] *)
Definition lacks (c : ascii) (s : pystr) : bool :=
  forallb (fun x => negb (char_eqb x c)) s.

Definition blank : pystr := str " ".

(** The text up to the first offset where [r] matches. *)
Fixpoint cut_at (r : regex) (i : nat) (s : pystr) : pystr :=
  match match_at r i s with
  | Some _ => []
  | None =>
      match s with
      | [] => []
      | c :: s' => c :: cut_at r (S i) s'
      end
  end.

(** Every match of the pattern ends where [$] holds. *)
Definition ends_at_eos (r : regex) : Prop :=
  forall st st', Matches r st st' -> at_eos (rest st') = true.

(** whether a pattern holds the group [n] *)
Fixpoint sets_group (r : regex) (n : nat) : bool :=
  match r with
  | Eps | Cls _ | Bos | Eos => false
  | Cat r1 r2 | Alt r1 r2 => sets_group r1 n || sets_group r2 n
  | Star r1 | LazyStar r1 => sets_group r1 n
  | Grp m r1 => (m =? n) || sets_group r1 n
  end.

(** the pattern from its first optional suffix on *)
Definition sxxexx_rest : regex :=
  Seq [extra_episode 4; extra_episode 5; Grp 6 (Star Any); Eos].

(** The source labels and their points. *)
Definition source_table : list (pystr * Z) :=
  [(str "Remux", 35%Z); (str "BluRay", 30%Z); (str "WEB-DL", 25%Z);
   (str "WEBRip", 20%Z); (str "HDTV", 15%Z); (str "DVDRip", 10%Z)].

(** the operations on the handle that a run of the hasher performs *)
Definition handle_ops (file_size sample_size : Z) : nat :=
  if (file_size <=? sample_size * 2)%Z then 1 else 3.

(** a file as a toy hash sees it: the text of its bytes *)
Definition toy_digest (data : list byte) : pystr := map ascii_of_byte data.

(** A movie folder of a test library: one video file of the given size and
    fingerprint, and no prober. *)
Definition movie (name : string) (size : Z) (fingerprint : option string)
  : folder :=
  Folder (str "/library/" ++ str name) name
         [Video (str "/library/" ++ str name ++ str "/movie.mkv") size
                (str <$> fingerprint) no_probe].

(** what a line of the report shows of its entry *)
Definition line_summary (line : verdict * entry)
  : verdict * pystr * Z * Z :=
  (line.1, original_name line.2, entry_score line.2, file_size line.2).

(** the references of a group point into a heap of [n] entries *)
Definition valid_refs (n : nat) (g : list ref) : Prop :=
  Forall (fun r => r < n) g.

Definition valid_index (n : nat) (d : index) : Prop :=
  Forall (fun item : pystr * list ref => valid_refs n item.2) d.

(** a genuine group: more than one member, all in the heap *)
Definition genuine (n : nat) (g : list ref) : Prop :=
  1 < length g /\ valid_refs n g.

(** the groups found so far are genuine *)
Definition groups_ok (n : nat) (st : detect_state) : Prop :=
  length (det_heap st) = n /\ Forall (genuine n) (duplicates st).

(** an entry without its match types *)
Definition untagged (e : entry) : entry :=
  Entry (path e) (original_name e) (entry_year e) (entry_quality e)
        (file_size e) (file_path e) (file_hash e) [].

(** two heaps that differ in match types only *)
Definition same_entries (h h' : heap) : Prop :=
  untagged <$> h = untagged <$> h'.

(** what the detector logs and returns when its scan is aborted *)
Definition aborted (e : exn) : list (list entry) * list log_entry :=
  ([], [LogInfo "Starting enhanced duplicate scan";
        LogError "Error in enhanced duplicate scan" e]).

(** what a returned entry shows: its name, size and match types *)
Definition entry_summary (e : entry) : pystr * Z * list match_tag :=
  (original_name e, file_size e, match_type e).

(** the entry at [r] carries the tag [t] *)
Definition has_tag (h : heap) (r : ref) (t : match_tag) : Prop :=
  exists e, h !! r = Some e /\ t ∈ match_type e.

(** the index files [r] under [key] *)
Definition in_index (d : index) (key : pystr) (r : ref) : Prop :=
  exists rs, (key, rs) ∈ d /\ r ∈ rs.

(** the match types of the entry at [r] *)
Definition tags (h : heap) (r : ref) : list match_tag :=
  default [] (match_type <$> h !! r).

(** what the title pass appends to an entry of the group [u] *)
Definition title_tags (h : heap) (u : list ref) (r : ref) : list match_tag :=
  match similar_size h u r with
  | Ok true => [TitleMatch; SimilarSize]
  | _ => [TitleMatch]
  end.

(** all the references of an index *)
Definition index_refs (d : index) : list ref := mjoin d.*2.

(** In the hash pass, an entry gets a match type only with its path among
    the processed paths. *)
Definition tagged_processed (st : detect_state) : Prop :=
  forall r e, det_heap st !! r = Some e -> match_type e <> [] ->
              path e ∈ processed_paths st.

(** ** File names of the first episode pattern *)

(** one or two digits *)
Definition digits12 (s : pystr) : bool :=
  match s with
  | [d1] => is_digit d1
  | [d1; d2] => is_digit d1 && is_digit d2
  | _ => false
  end.

(** the character is one of [cs] *)
Definition one_of (cs : pystr) (c : ascii) : bool := existsb (char_eqb c) cs.

(** A file name of the first pattern, taken apart: the show as it is
    written, the separators before the season mark, the season mark [S] or
    [s] and the season number, the episode mark [E] or [e] and the episode
    number, the additional suffixes (each a mark [E], [e] or [-] and a
    number), and what follows them. *)
Record episode_name : Type := EpisodeName {
  name_show : pystr;
  name_seps : pystr;
  name_s : ascii;
  name_season : pystr;
  name_e : ascii;
  name_episode : pystr;
  name_suffixes : list (ascii * pystr);
  name_tail : pystr
}.

Definition suffix_text (x : ascii * pystr) : pystr := x.1 :: x.2.

Definition suffixes_text (l : list (ascii * pystr)) : pystr :=
  flat_map suffix_text l.

(** the stem that the parts spell *)
Definition spell (n : episode_name) : pystr :=
  name_show n ++ name_seps n ++ name_s n :: name_season n
  ++ name_e n :: name_episode n
  ++ suffixes_text (name_suffixes n) ++ name_tail n.

Definition starts_digit (s : pystr) : bool :=
  match s with
  | c :: _ => is_digit c
  | [] => false
  end.

(** the text starts with an additional suffix: a mark, then a digit *)
Definition starts_suffix (s : pystr) : bool :=
  match s with
  | m :: s' => one_of "Ee-" m && starts_digit s'
  | [] => false
  end.

(** the text starts with a separator, [S] or [s], and a digit *)
Definition starts_mark (s : pystr) : bool :=
  match s with
  | a :: b :: c :: _ => is_sep a && one_of "Ss" b && is_digit c
  | _ => false
  end.

(** no separator of the text is followed by [S] or [s] and a digit *)
Fixpoint mark_free (s : pystr) : bool :=
  negb (starts_mark s) &&
  match s with
  | _ :: s' => mark_free s'
  | [] => true
  end.

Definition ends_in_sep (s : pystr) : bool :=
  match last s with
  | Some c => is_sep c
  | None => false
  end.

(** The parts are what they are called.  The show is not empty, has no
    line feed, does not end in a separator and holds no season mark; the
    separators are separators, and at least one; the numbers have one or
    two digits; what follows the suffixes has no line feed and starts
    neither with a digit nor with one more suffix. *)
Definition well_formed (n : episode_name) : bool :=
  (0 <? length (name_show n)) && newline_free (name_show n)
  && negb (ends_in_sep (name_show n)) && mark_free (name_show n)
  && (0 <? length (name_seps n)) && forallb is_sep (name_seps n)
  && one_of "Ss" (name_s n) && digits12 (name_season n)
  && one_of "Ee" (name_e n) && digits12 (name_episode n)
  && forallb (fun x => one_of "Ee-" x.1 && digits12 x.2) (name_suffixes n)
  && newline_free (name_tail n)
  && negb (starts_digit (name_tail n)) && negb (starts_suffix (name_tail n)).

(** the first pattern from the separators on *)
Definition sxxexx_after_show : regex :=
  Seq [Plus (Cls is_sep); OneOf "Ss"; Grp 2 (Rep12 Digit); OneOf "Ee";
       Grp 3 (Rep12 Digit); extra_episode 4; extra_episode 5;
       Grp 6 (Star Any); Eos].

(** the groups of the suffixes that the first pattern takes, latest first *)
Definition suffix_groups (l : list (ascii * pystr)) : list (nat * pystr) :=
  match l with
  | [] => []
  | [x] => [(4, x.2)]
  | x :: y :: _ => [(5, y.2); (4, x.2)]
  end.

(** ** More of the program: seasons, HDR formats, subtitles and folder
      names *)

(** [f"{n:02d}"] *)
Definition format_02d (n : Z) : pystr :=
  if (n <? 0)%Z then str_of_Z n
  else if (n <? 10)%Z then "0"%char :: str_of_Z n
  else str_of_Z n.

(** What [organize_seasons] does with one video file, by the name of the
    file and of the folder it lies in. *)
Inductive season_action : Type :=
| AlreadyOrganized
| MoveTo (season_folder : pystr)
| CouldNotParse.

Definition organize_episode (file_name parent_name : pystr)
  : season_action :=
  let ep_info := get_episode_info file_name in
  match season ep_info with
  | Some s =>
      let season_folder := (str "Season " ++ format_02d s)%list in
      (* Skip if already in correct folder *)
      if bool_decide (parent_name = season_folder) then AlreadyOrganized
      else MoveTo season_folder
  | None => CouldNotParse
  end.

(** ** HDR format of a file: [get_mediainfo_hdr_format] *)
(** The MediaInfo command line for one file: whether the executable is
    installed, and what a run with an [--Inform] template prints on its
    standard output, or the error the run raises. *)
Record mediainfo : Type := MediaInfoCli {
  mediainfo_installed : bool;
  mediainfo_inform : pystr -> result pystr
}.

(** The dictionary [get_mediainfo_hdr_format] returns. *)
Record hdr_info : Type := HdrInfo {
  hi_format : option pystr;
  hi_profile : option pystr;
  hi_compatibility : option pystr;
  hi_color_primaries : option pystr;
  hi_transfer_characteristics : option pystr
}.

(** [if proc.stdout.strip(): result[key] = proc.stdout.strip()] *)
Definition stdout_field (stdout : pystr) : option pystr :=
  if truthy (strip stdout) then Some (strip stdout) else None.

Definition inform_hdr_format : pystr := str "--Inform=Video;%HDR_Format%".
Definition inform_transfer : pystr :=
  str "--Inform=Video;%transfer_characteristics%".
Definition inform_primaries : pystr :=
  str "--Inform=Video;%colour_primaries%".

(** [# Normalize HDR format names], for a format that was reported *)
Definition normalize_hdr_format (format : pystr) : pystr :=
  if found (Alt (LitI "Dolby Vision") (LitI "DOVI")) format
  then str "Dolby Vision"
  else if found (Alt (LitI "HDR10+") (LitI "SMPTE ST 2094")) format
  then str "HDR10+"
  else if found (Alt (LitI "SMPTE ST 2086") (LitI "HDR10")) format
  then str "HDR10"
  else if found (Alt (LitI "HLG") (LitI "ARIB STD-B67")) format
  then str "HLG"
  else format.

(** the [if] ... [elif] ... [elif] under [# Normalize HDR format names] *)
Definition hdr_format_of (format transfer primaries : option pystr)
  : option pystr :=
  match format with
  | Some (c :: f) => Some (normalize_hdr_format (c :: f))
  | _ =>
      match transfer with
      | Some (c :: t) =>
          let transfer_characteristics := c :: t in
          if contains "PQ" transfer_characteristics
             || contains "SMPTE ST 2084" transfer_characteristics
          then Some (str "HDR10")
          else if contains "HLG" transfer_characteristics
          then Some (str "HLG")
          else format
      | _ =>
          match primaries with
          | Some color_primaries =>
              if truthy color_primaries && contains "BT.2020" color_primaries
              then Some (str "HDR")
              else format
          | None => format
          end
      end
  end.

(** the body of the [try] *)
Definition hdr_format_body (cli : mediainfo) : result (option hdr_info) :=
  (* Get HDR_Format *)
  stdout ← mediainfo_inform cli inform_hdr_format;
  let format := stdout_field stdout in
  (* Get transfer characteristics *)
  stdout ← mediainfo_inform cli inform_transfer;
  let transfer_characteristics := stdout_field stdout in
  (* Get color primaries *)
  stdout ← mediainfo_inform cli inform_primaries;
  let color_primaries := stdout_field stdout in
  (* Normalize HDR format names *)
  let format := hdr_format_of format transfer_characteristics
                              color_primaries in
  match format with
  | Some (c :: f) =>
      Ok (Some (HdrInfo format None None color_primaries
                        transfer_characteristics))
  | _ => Ok None
  end.

(** [get_mediainfo_hdr_format(file_path)], with the command line for the
    file as its argument; the second component is what it logs. *)
Definition get_mediainfo_hdr_format (cli : mediainfo)
  : option hdr_info * list log_entry :=
  if negb (mediainfo_installed cli) then (None, [])
  else
    match hdr_format_body cli with
    | Ok result => (result, [])
    | Raise e => (None, [LogWarning "Error getting HDR format" e])
    end.

(** What [get_quality_score] makes of a file, from what
    [get_mediainfo_details] returned for it and the command line. *)
Definition probe_of (details : option media_info) (cli : mediainfo)
  : probe :=
  Probe details ((get_mediainfo_hdr_format cli).1 ≫= hi_format).

(** ** Subtitles: which files [process_subtitles] keeps *)
Definition preferred_subtitle_languages : list string :=
  ["eng"; "en"; "english"]%string.

(** [\.{lang}$|\.{lang}\.|_{lang}$|_{lang}[_.]] *)
Definition language_re (lang : string) : regex :=
  Alts [Seq [Chr "."; Lit lang; Eos]; Seq [Chr "."; Lit lang; Chr "."];
        Seq [Chr "_"; Lit lang; Eos]; Seq [Chr "_"; Lit lang; OneOf "_."]].

Definition language_codes : list string :=
  ["eng"; "en"; "english"; "spa"; "es"; "spanish"; "fre"; "fr"; "french";
   "ger"; "de"; "german"]%string.

(** [\.(eng|en|...|german)(\.|$|_)] *)
Definition language_tag_re : regex :=
  Seq [Chr "."; Grp 1 (Alts (map (fun l : string => Lit l) language_codes));
       Grp 2 (Alts [Chr "."; Eos; Chr "_"])].

(** the value of [is_preferred] for a subtitle of the given stem *)
Definition is_preferred_subtitle (stem : pystr) : bool :=
  let sub_name_lower := lower stem in
  (* Check if preferred language *)
  let is_preferred :=
    existsb (fun lang => found (language_re lang) sub_name_lower)
            preferred_subtitle_languages in
  (* If no language tag, assume default language *)
  let has_lang_tag := found language_tag_re sub_name_lower in
  if negb has_lang_tag then true else is_preferred.

(** whether the subtitle file of the given name is kept *)
Definition keeps_subtitle (keep_subtitles : bool) (name : pystr) : bool :=
  keep_subtitles && is_preferred_subtitle (path_stem name).

(** ** Folder names: [clean_folder_names] and the checks of [health_check] *)
(** [s.lstrip(chars)], [s.rstrip(chars)] and [s.strip(chars)] *)
Fixpoint lstrip_chars (chars : pystr) (s : pystr) : pystr :=
  match s with
  | c :: s' =>
      if existsb (char_eqb c) chars then lstrip_chars chars s' else s
  | [] => []
  end.

Definition rstrip_chars (chars : pystr) (s : pystr) : pystr :=
  reverse (lstrip_chars chars (reverse s)).

Definition strip_chars (chars : pystr) (s : pystr) : pystr :=
  rstrip_chars chars (lstrip_chars chars s).

(** [re.sub(r, repl, s)] for a replacement that is made from the match, as
    a template with group references is. *)
Fixpoint sub_with_from (fuel : nat) (r : regex) (repl : pymatch -> pystr)
         (i : nat) (s : pystr) : pystr :=
  match fuel with
  | 0 => s
  | S fuel' =>
      let skip :=
        match s with
        | [] => []
        | c :: s' => c :: sub_with_from fuel' r repl (S i) s'
        end in
      match match_at r i s with
      | Some m =>
          let n := length (m_text m) in
          if n =? 0 then repl m ++ skip
          else repl m ++ sub_with_from fuel' r repl (i + n) (drop n s)
      | None => skip
      end
  end.

Definition re_sub_with (r : regex) (repl : pymatch -> pystr) (s : pystr)
  : pystr :=
  sub_with_from (S (length s)) r repl 0 s.

(** [config.tags] *)
Definition config_tags : list string :=
  ["1080p"; "2160p"; "720p"; "480p"; "4K"; "2K"; "UHD";
   "HDRip"; "DVDRip"; "BRRip"; "BR-Rip"; "BDRip"; "BD-Rip"; "WEB-DL";
   "WEBRip"; "BluRay";
   "x264"; "x265"; "X265"; "H264"; "H265"; "HEVC"; "XviD"; "DivX"; "AVC";
   "AV1"; "VP9";
   "AAC"; "AC3"; "DTS"; "Atmos"; "TrueHD"; "DD5.1"; "5.1"; "7.1"; "EAC3";
   "FLAC";
   "HDR"; "HDR10"; "HDR10+"; "DolbyVision"; "DoVi"; "SDR"; "10bit"; "HLG";
   "Extended"; "Unrated"; "Remastered"; "REPACK"; "PROPER"; "Remux";
   "YIFY"; "YTS"; "RARBG"; "SPARKS"; "NF"; "AMZN"; "HULU"; "WEB"; "DSNP";
   "MAX"]%string.

(** [re.compile(re.escape(tag), re.IGNORECASE).split(new_name)[0]]: the
    text before the first place where the tag stands *)
Definition before_tag (tag : string) (new_name : pystr) : pystr :=
  match re_search (LitI tag) new_name with
  | Some m => take (m_start m) new_name
  | None => new_name
  end.

(** One round of [for tag in config.tags]. *)
Definition remove_tag (new_name : pystr) (tag : string) : pystr :=
  if contains (lower tag) (lower new_name) then
    let part := strip_chars " .-" (before_tag tag new_name) in
    if truthy part then part else new_name
  else new_name.

(** [# Replace dots with spaces] *)
Definition spaces_for_dots (new_name : pystr) : pystr :=
  if contains "." new_name then
    let new_name := re_sub (Chr ".") " " new_name in
    strip (re_sub (Plus Space) " " new_name)
  else new_name.

(** [\s(19|20)(\d{2})$] *)
Definition trailing_year_re : regex :=
  Seq [Space; Grp 1 (Alt (Lit "19") (Lit "20")); Grp 2 (Rep2 Digit); Eos].

(** [\s((19|20)\d{2})$] *)
Definition trailing_year_group_re : regex :=
  Seq [Space; Grp 1 (Seq [Grp 2 (Alt (Lit "19") (Lit "20")); Rep2 Digit]);
       Eos].

(** the template [ (\1)] *)
Definition in_parentheses (m : pymatch) : pystr :=
  (str " (" ++ group_of m 1 ++ str ")")%list.

(** [# Format year with parentheses] *)
Definition parenthesize_year (new_name : pystr) : pystr :=
  match re_search trailing_year_re new_name with
  | Some year_match => re_sub_with trailing_year_group_re in_parentheses
                                   new_name
  | None => new_name
  end.

(** The name [clean_folder_names] computes for a folder. *)
Definition clean_name (folder_name : pystr) : pystr :=
  let new_name := folder_name in
  (* Remove tags *)
  let new_name := foldl remove_tag new_name config_tags in
  let new_name := spaces_for_dots new_name in
  parenthesize_year new_name.

(** The naming issues [health_check] reports for a folder. *)
Inductive naming_issue : Type :=
| ContainsDots
| MissingYear.

(** [\..*\.] *)
Definition two_dots_re : regex := Seq [Chr "."; Star Any; Chr "."].

(** [\(\d{4}\)] *)
Definition year_in_parentheses_re : regex :=
  Seq [Chr "("; Digit; Digit; Digit; Digit; Chr ")"].

Definition naming_issues (movies : bool) (folder_name : pystr)
  : list naming_issue :=
  (* Check for dots in folder names *)
  (if found two_dots_re folder_name
      && negb (found year_in_parentheses_re folder_name)
   then [ContainsDots] else [])
  ++
  (* Check for missing year *)
  (if movies && negb (found year_re folder_name)
   then [MissingYear] else []).

(** ** Names that match a pattern: [matches_pattern] *)

(** [.] under DOTALL *)
Definition any_char : regex := Cls (fun _ => true).

(** [fnmatch.translate(pat)] without the [\Z] that ends it: [*] is [.*],
    [?] is [.], and any other character stands for itself.  A pattern
    with a bracket expression is outside the fragment. *)
Fixpoint translate (pat : pystr) : option regex :=
  match pat with
  | [] => Some Eps
  | c :: pat' =>
      res ← translate pat';
      if char_eqb c "*" then Some (Cat (Star any_char) res)
      else if char_eqb c "?" then Some (Cat any_char res)
      else if char_eqb c "[" then None
      else Some (Cat (Chr c) res)
  end.

(** [\Z] as the rest of a pattern: the text ends here *)
Definition at_end (st : mstate) : option mstate :=
  match rest st with
  | [] => Some st
  | _ :: _ => None
  end.

(** [fnmatch.fnmatch(name, pat)], POSIX flavour: [os.path.normcase]
    changes nothing, and the translated pattern is matched at the start of
    the name. *)
Definition fnmatch (name pat : pystr) : option bool :=
  res ← translate pat;
  Some (bool_decide (is_Some (rmatch res (MState 0 name []) at_end))).

(** [config.unnecessary_patterns] *)
Definition unnecessary_patterns : list string :=
  ["*Sample*"; "*Proof*"; "*Screens*"; "*RARBG*"; "*WWW*"]%string.

Fixpoint matches_pattern (name : pystr) (patterns : list string)
  : option bool :=
  match patterns with
  | [] => Some false
  | pattern :: patterns' =>
      as_written ← fnmatch name pattern;
      if as_written : bool then Some true
      else
        in_lower_case ← fnmatch (lower name) (lower pattern);
        if in_lower_case : bool then Some true
        else matches_pattern name patterns'
  end.

(** the words that make a file or a folder unnecessary *)
Definition unnecessary_words : list pystr :=
  [str "sample"; str "proof"; str "screens"; str "rarbg"; str "www"].

(** a character that stands for itself in a pattern *)
Definition plain (c : ascii) : bool :=
  negb (char_eqb c "*") && negb (char_eqb c "?") && negb (char_eqb c "[").

(** the pattern of the characters of a word, one after the other, and
    then [r] *)
Definition word_then (w : pystr) (r : regex) : regex :=
  foldr (fun c r => Cat (Chr c) r) r w.

(** ** Retrying failed operations: [retry_failed_operations] *)

(** The type and the parameters of a failed operation: every call of
    [add_failed_operation] passes one of these three. *)
Inductive operation : Type :=
| Move (source destination : pystr)
| Delete (path : pystr)
| Rename (path new_path : pystr).

(** An entry of [failed_operations]; its time stamp is never read. *)
Record failed_operation : Type := FailedOperation {
  fo_operation : operation;
  fo_error : pystr;
  fo_retry_count : nat
}.

(** The file system and the calls that change it: each gives the file
    system it leaves and, when it raises, the text of the exception. *)
Class FileSystem (files : Type) : Type := {
  shutil_move : pystr -> pystr -> files -> files * option pystr;
  os_path_isdir : pystr -> files -> bool;
  shutil_rmtree : pystr -> files -> files * option pystr;
  os_remove : pystr -> files -> files * option pystr;
  os_rename : pystr -> pystr -> files -> files * option pystr
}.

Section Retry.

Context {files : Type} {F : FileSystem files}.

(** [config.retry_count] and [config.retry_delay_seconds]: 3 and 2 in
    the program, which never assigns them. *)
Variable retry_count retry_delay_seconds : nat.

(** the body of the [try] *)
Definition attempt (op : operation) (fs : files) : files * option pystr :=
  match op with
  | Move source destination => shutil_move source destination fs
  | Delete path =>
      if os_path_isdir path fs then shutil_rmtree path fs
      else os_remove path fs
  | Rename path new_path => os_rename path new_path fs
  end.

(** What a pass has done so far: the file system, [still_failed],
    [stats.operations_retried], and the delays it has slept. *)
Record retry_state : Type := RetryState {
  rs_files : files;
  rs_still_failed : list failed_operation;
  rs_operations_retried : nat;
  rs_slept : list nat
}.

(** One round of [for op in failed_operations]. *)
Definition retry_one (st : retry_state) (op : failed_operation)
  : retry_state :=
  if retry_count <=? fo_retry_count op then
    RetryState (rs_files st) (rs_still_failed st ++ [op])
               (rs_operations_retried st) (rs_slept st)
  else
    let count := fo_retry_count op + 1 in
    let delay := retry_delay_seconds * 2 ^ (count - 1) in
    match attempt (fo_operation op) (rs_files st) with
    | (fs, None) =>
        RetryState fs (rs_still_failed st)
                   (rs_operations_retried st + 1) (rs_slept st ++ [delay])
    | (fs, Some e) =>
        RetryState fs
                   (rs_still_failed st
                      ++ [FailedOperation (fo_operation op) e count])
                   (rs_operations_retried st) (rs_slept st ++ [delay])
    end.

(** [retry_failed_operations()], with [failed_operations], the file
    system and [stats.operations_retried] as they are before the call;
    [rs_still_failed] of the result is [failed_operations] after it. *)
Definition retry_failed_operations (failed_operations : list failed_operation)
           (fs : files) (operations_retried : nat) : retry_state :=
  match failed_operations with
  | [] => RetryState fs [] operations_retried []
  | _ => foldl retry_one (RetryState fs [] operations_retried [])
               failed_operations
  end.

(** [n] calls, one after the other *)
Fixpoint retry_passes (n : nat) (failed_operations : list failed_operation)
         (fs : files) (operations_retried : nat) : retry_state :=
  match n with
  | 0 => RetryState fs failed_operations operations_retried []
  | S n' =>
      let st := retry_failed_operations failed_operations fs
                                        operations_retried in
      let st' := retry_passes n' (rs_still_failed st) (rs_files st)
                              (rs_operations_retried st) in
      RetryState (rs_files st') (rs_still_failed st')
                 (rs_operations_retried st') (rs_slept st ++ rs_slept st')
  end.

End Retry.

(** a file system on which every call raises, and leaves the files as
    they are *)
Definition busy_files : FileSystem unit := {|
  shutil_move := fun _ _ fs => (fs, Some (str "busy"));
  os_path_isdir := fun _ _ => false;
  shutil_rmtree := fun _ fs => (fs, Some (str "busy"));
  os_remove := fun _ fs => (fs, Some (str "busy"));
  os_rename := fun _ _ fs => (fs, Some (str "busy"))
|}.

(** ** Codec analysis: the transcoding check of [codec_analysis] *)

(** ['none'], ['transcode'] and ['remux'] *)
Inductive transcode_mode : Type :=
| ModeNone
| ModeTranscode
| ModeRemux.

(** [needs_transcode], [reasons] and [transcode_mode] after the check *)
Record transcode_check : Type := TranscodeCheck {
  needs_transcode : bool;
  reasons : list pystr;
  mode : transcode_mode
}.

(** [# Check if needs transcoding (only legacy codecs/containers)], for
    the codec label of the quality and the container of the file *)
Definition check_transcode (codec container : pystr) : transcode_check :=
  if bool_decide (codec ∈ [str "XviD"; str "DivX"; str "MPEG-4"]) then
    TranscodeCheck true [str "Legacy codec - will transcode to H.264"]
                   ModeTranscode
  else if bool_decide (container = str "AVI") then
    if bool_decide (codec ∈ [str "x264"; str "H.264"; str "AVC"]) then
      TranscodeCheck true
        [str "H.264 in AVI - will remux to MKV (no re-encoding)"] ModeRemux
    else
      TranscodeCheck true
        [str "AVI with legacy codec - will transcode to H.264"]
        ModeTranscode
  else TranscodeCheck false [] ModeNone.

(** the codec labels that the scorer writes itself *)
Definition codec_labels : list pystr :=
  [str "Unknown"; str "HEVC/x265"; str "x264"; str "AV1"; str "VP9";
   str "XviD"; str "VC-1"].

(** the codec labels that the check names and the scorer never gives *)
Definition idle_labels : list pystr :=
  [str "DivX"; str "MPEG-4"; str "H.264"; str "AVC"].

(** ** Vocabulary of further properties *)

(** the points of a rationale *)
Definition total_points (ds : list detail) : Z :=
  foldr (fun d acc => (d_points d + acc)%Z) 0%Z ds.

(** the largest score a rationale of the scorer can add up to: resolution,
    codec, audio, HDR, bitrate and source *)
Definition top_score (measured : bool) : Z :=
  if measured then (100 + 25 + 15 + 18 + 20 + 35)%Z
  else (100 + 25 + 15 + 18 + 35)%Z.

(** The score is kept equal to the points of the rationale. *)
Definition booked (q : quality) : Prop := score q = total_points (details q).

(** A step of the scorer: it adds between 0 and [n] points, and keeps the
    books. *)
Definition adds (n : Z) (f : quality -> quality) : Prop :=
  forall q, (booked q -> booked (f q)) /\
            (score q <= score (f q) <= score q + n)%Z.

(** the best file there can be, by its name and by the prober *)
Definition best_probe : probe :=
  Probe (Some (MediaInfo "AV1" "Dolby Atmos" 3840 2160 50000000 true 8))
        (Some (str "Dolby Vision")).

(** Every occurrence of the group [n] in a pattern captures a text with the
    property [P]. *)
Fixpoint captures (n : nat) (P : pystr -> Prop) (r : regex) : Prop :=
  match r with
  | Eps | Cls _ | Bos | Eos => True
  | Cat r1 r2 | Alt r1 r2 => captures n P r1 /\ captures n P r2
  | Star r1 | LazyStar r1 => captures n P r1
  | Grp m r1 =>
      (m = n -> forall st st', Matches r1 st st' -> P (consumed st st'))
      /\ captures n P r1
  end.

(** what the episode parser found nothing in *)
Definition no_episode : episode_info :=
  EpisodeInfo None None [] None None false.

(** a list of more than one entry *)
Definition big (g : list ref) : bool := 1 <? length g.

(** The entry the scan makes of a folder that holds a video file. *)
Definition entry_of (f : folder) : option entry :=
  video_file ← largest (folder_videos f);
  Some (Entry (folder_path f) (folder_name f)
              (year (get_normalized_title (folder_name f)))
              (get_quality_score (folder_name f) (video_probe video_file))
              (video_size video_file) (video_path video_file)
              (video_hash video_file) []).

(** a group of one fingerprint, each member tagged [ExactHash] and
    nothing else *)
Definition exact_hash_class (g : list entry) : Prop :=
  exists c fp,
    Forall (fun e => file_hash e = Some (c :: fp) /\
                     match_type e = [ExactHash]) g.

(** a group of one title key, each member tagged [TitleMatch], and
    [SimilarSize] after it or not *)
Definition title_class (g : list entry) : Prop :=
  exists key,
    Forall (fun e =>
              title_key (get_normalized_title (original_name e)) = key /\
              (match_type e = [TitleMatch] \/
               match_type e = [TitleMatch; SimilarSize])) g.

(** the groups of the hash pass and of the title pass *)
Definition hash_groups (sc : scan_state) : list (list ref) :=
  List.filter big (hash_lookup sc).*2.

Definition title_groups (sc : scan_state) : list (list ref) :=
  List.filter big (map (unsettled sc) (title_lookup sc).*2).

(** What the indices of a scan file an entry under. *)
Definition filed (sc : scan_state) : Prop :=
  (forall k r, in_index (hash_lookup sc) k r ->
     exists e c fp, scan_heap sc !! r = Some e /\ k = c :: fp /\
                    file_hash e = Some k) /\
  (forall k r, in_index (title_lookup sc) k r ->
     exists e, scan_heap sc !! r = Some e /\
               title_key (get_normalized_title (original_name e)) = k) /\
  NoDup (index_refs (hash_lookup sc)) /\
  valid_index (length (scan_heap sc)) (hash_lookup sc).

(** an entry shows the largest video file of a folder *)
Definition shows (e : entry) (f : folder) : Prop :=
  exists v,
    v ∈ folder_videos f /\
    Forall (fun v' => (video_size v' <= video_size v)%Z) (folder_videos f) /\
    path e = folder_path f /\ original_name e = folder_name f /\
    entry_year e = year (get_normalized_title (folder_name f)) /\
    entry_quality e = get_quality_score (folder_name f) (video_probe v) /\
    file_size e = video_size v /\ file_path e = video_path v /\
    file_hash e = video_hash v.

(** a library of three folders, two of them of one title *)
Definition small_library : list folder :=
  [movie "Heat (1995)" 700 (Some "aa"); movie "Heat [1995]" 710 (Some "bb");
   movie "Ronin (1998)" 650 (Some "cc")].

(** the title key of a folder *)
Definition folder_key (f : folder) : pystr :=
  title_key (get_normalized_title (folder_name f)).

(** The entry the plain detector makes of a folder. *)
Definition plain_entry_of (f : folder) : Plain.entry :=
  Plain.Entry (folder_path f) (folder_name f)
              (year (get_normalized_title (folder_name f)))
              (get_quality_score (folder_name f) no_probe)
              (Plain.max_size (folder_videos f)).

(** the folders of one title key, in their order *)
Definition folders_of_key (key : pystr) (fs : list folder) : list folder :=
  List.filter (fun f => bool_decide (folder_key f = key)) fs.

(** What the index of the plain detector holds after the folders [fs]. *)
Definition plain_index_of (fs : list folder) (d : Plain.index) : Prop :=
  NoDup d.*1 /\
  (forall k es, (k, es) ∈ d ->
     es <> [] /\ es = map plain_entry_of (folders_of_key k fs)) /\
  (forall f, f ∈ fs -> folder_key f ∈ d.*1).

(** A character class does not tell a letter from its lower-case form. *)
Definition blind (p : ascii -> bool) : bool :=
  forallb (fun n => Bool.eqb (p (lower_char (ascii_of_nat n)))
                             (p (ascii_of_nat n)))
          (seq 0 256).

(** a pattern all of whose character classes are blind to letter case *)
Fixpoint case_blind (r : regex) : bool :=
  match r with
  | Eps | Bos | Eos => true
  | Cls p => blind p
  | Cat r1 r2 | Alt r1 r2 => case_blind r1 && case_blind r2
  | Star r1 | LazyStar r1 | Grp _ r1 => case_blind r1
  end.

Definition lower_caps (cs : list (nat * pystr)) : list (nat * pystr) :=
  map (fun c => (c.1, lower c.2)) cs.

Definition lower_state (st : mstate) : mstate :=
  MState (pos st) (lower (rest st)) (lower_caps (caps st)).

Definition lower_match (m : pymatch) : pymatch :=
  PyMatch (m_start m) (lower (m_text m)) (lower_caps (m_caps m)).

(** two continuations, one for the text and one for its lower-case form *)
Definition akin (k k' : mstate -> option mstate) : Prop :=
  forall st, k' (lower_state st) = lower_state <$> k st.

(** A character of a normalized title: no dot, underscore or hyphen, no
    upper-case letter, and no white space but the blank. *)
Definition title_char (c : ascii) : bool :=
  negb (existsb (char_eqb c) (str "._-"))
  && char_eqb (lower_char c) c
  && (negb (is_space c) || char_eqb c " ").

(** no two white-space characters in a row *)
Fixpoint spaced_once (s : pystr) : bool :=
  match s with
  | c :: s' =>
      match s' with
      | c' :: _ => negb (is_space c && is_space c') && spaced_once s'
      | [] => true
      end
  | [] => true
  end.

(** the text starts with a white-space character *)
Definition starts_blank (s : pystr) : bool :=
  match s with
  | c :: _ => is_space c
  | [] => false
  end.

(** the properties of a text that the steps of the normaliser keep *)
Definition neat (s : pystr) : Prop :=
  Forall (fun c => existsb (char_eqb c) (str "._-") = false /\
                   (is_space c = true -> c = " "%char)) s /\
  spaced_once s = true.

(** the endings that mark a subtitle as one of a preferred language *)
Definition preferred_endings : list string :=
  [".eng"; ".en"; ".english"; "_eng"; "_en"; "_english"]%string.

(** the names [get_mediainfo_hdr_format] gives to the formats it knows *)
Definition hdr_labels : list pystr :=
  [str "Dolby Vision"; str "HDR10+"; str "HDR10"; str "HLG"; str "HDR"].

(** a command line that prints the given texts for the three templates *)
Definition printing (format transfer primaries : string) : mediainfo :=
  MediaInfoCli true (fun template =>
    if bool_decide (template = inform_hdr_format) then Ok (str format)
    else if bool_decide (template = inform_transfer) then Ok (str transfer)
    else Ok (str primaries)).

(** ** The matcher enumerates the matches *)

Section Matcher.

Implicit Types (r : regex) (st : mstate) (k : mstate -> option mstate).

Lemma orelse_Some {A} (x y : option A) a :
  orelse x y = Some a -> x = Some a \/ (x = None /\ y = Some a).
Proof. destruct x; simpl; intros; simplify_eq; auto. Qed.

Lemma orelse_None {A} (x y : option A) :
  orelse x y = None -> x = None /\ y = None.
Proof. destruct x; simpl; intros; simplify_eq; auto. Qed.

(** Every result of the matcher is a result of its continuation on the
    end of a match. *)
Lemma rmatch_sound r : forall st k res,
  rmatch r st k = Some res ->
  exists st', Matches r st st' /\ k st' = Some res.
Proof.
  induction r as [|p|r1 IH1 r2 IH2|r1 IH1 r2 IH2|r1 IH1|r1 IH1|n r1 IH1| |];
    intros st k res H; simpl in H.
  - eauto using Matches.
  - destruct (rest st) as [|c s'] eqn:E; [done|].
    destruct (p c) eqn:Ep; [|done]. eauto using Matches.
  - apply IH1 in H as (st1 & M1 & H). apply IH2 in H as (st2 & M2 & H).
    eauto using Matches.
  - apply orelse_Some in H as [H|[_ H]].
    + apply IH1 in H as (st' & M & H). eauto using Matches.
    + apply IH2 in H as (st' & M & H). eauto using Matches.
  - revert H. generalize (length (rest st)). intros fuel. revert st.
    induction fuel as [|fuel IHf]; intros st H; simpl in H.
    + eauto using Matches.
    + apply orelse_Some in H as [H|[_ H]]; [|eauto using Matches].
      apply IH1 in H as (st1 & M1 & H).
      destruct (length (rest st1) <? length (rest st)) eqn:Elt; [|done].
      apply Nat.ltb_lt in Elt.
      apply IHf in H as (st2 & M2 & H). eauto using Matches.
  - revert H. generalize (length (rest st)). intros fuel. revert st.
    induction fuel as [|fuel IHf]; intros st H; simpl in H.
    + eauto using Matches.
    + apply orelse_Some in H as [H|[_ H]]; [eauto using Matches|].
      apply IH1 in H as (st1 & M1 & H).
      destruct (length (rest st1) <? length (rest st)) eqn:Elt; [|done].
      apply Nat.ltb_lt in Elt.
      apply IHf in H as (st2 & M2 & H). eauto using Matches.
  - apply IH1 in H as (st1 & M1 & H). eauto using Matches.
  - destruct (pos st =? 0) eqn:E; [|done].
    apply Nat.eqb_eq in E. eauto using Matches.
  - destruct (at_eos (rest st)) eqn:E; [|done]. eauto using Matches.
Qed.

(** When the matcher fails, the continuation fails on the end of every
    match. *)
Lemma rmatch_complete r : forall st k,
  rmatch r st k = None ->
  forall st', Matches r st st' -> k st' = None.
Proof.
  induction r as [|p|r1 IH1 r2 IH2|r1 IH1 r2 IH2|r1 IH1|r1 IH1|n r1 IH1| |];
    intros st k H st' M; simpl in H.
  - by inversion M; subst.
  - inversion M as [|? ? c s' E Ep| | | | | | | | | |]; subst.
    by rewrite E, Ep in H.
  - inversion M as [| |? ? ? st1 ? M1 M2| | | | | | | | |]; subst.
    eapply IH2; [|done]. eapply (IH1 _ _ H); done.
  - apply orelse_None in H as [H1 H2].
    inversion M; subst; eauto.
  - assert (forall fuel st st', length (rest st) <= fuel ->
              rep_loop true (rmatch r1) k fuel st = None ->
              Matches (Star r1) st st' -> k st' = None) as Hloop;
      [|by eapply (Hloop _ _ _ (Nat.le_refl _) H)].
    clear st st' H M.
    induction fuel as [|fuel IHf]; intros st st' Hle H M; simpl in H.
    + inversion M; subst; [done|lia].
    + apply orelse_None in H as [H1 H2].
      inversion M as [| | | | |?|? ? st1 ? M1 Hlt M2| | | | |]; subst; [done|].
      specialize (IH1 _ _ H1 _ M1). simpl in IH1.
      apply Nat.ltb_lt in Hlt as Hlt'. rewrite Hlt' in IH1.
      eapply IHf; [|done..]. lia.
  - assert (forall fuel st st', length (rest st) <= fuel ->
              rep_loop false (rmatch r1) k fuel st = None ->
              Matches (LazyStar r1) st st' -> k st' = None) as Hloop;
      [|by eapply (Hloop _ _ _ (Nat.le_refl _) H)].
    clear st st' H M.
    induction fuel as [|fuel IHf]; intros st st' Hle H M; simpl in H.
    + inversion M; subst; [done|lia].
    + apply orelse_None in H as [H1 H2].
      inversion M as [| | | | | | |?|? ? st1 ? M1 Hlt M2| | |]; subst; [done|].
      specialize (IH1 _ _ H2 _ M1). simpl in IH1.
      apply Nat.ltb_lt in Hlt as Hlt'. rewrite Hlt' in IH1.
      eapply IHf; [|done..]. lia.
  - inversion M; subst. eapply (IH1 _ _ H); done.
  - inversion M as [| | | | | | | | | |? E|]; subst.
    apply Nat.eqb_eq in E. by rewrite E in H.
  - inversion M as [| | | | | | | | | | |? E]; subst. by rewrite E in H.
Qed.

End Matcher.

Section MatcherFacts.

Implicit Types (r : regex) (st : mstate).

(** A match ends in a suffix of the text it starts in. *)
Lemma Matches_suffix r st st' :
  Matches r st st' -> rest st' `suffix_of` rest st.
Proof.
  induction 1 as [| ? ? ? ? E | | | | | | | | | |]; simpl; try done.
  - rewrite E. by apply suffix_cons_r.
  - by etrans.
  - by etrans.
  - by etrans.
Qed.

Lemma newline_free_suffix (s t : pystr) :
  s `suffix_of` t -> newline_free t = true -> newline_free s = true.
Proof.
  intros [p ->]. unfold newline_free. rewrite forallb_app.
  by intros [_ ?]%andb_true_iff.
Qed.

Lemma newline_free_prefix (s t : pystr) :
  s `prefix_of` t -> newline_free t = true -> newline_free s = true.
Proof.
  intros [p ->]. unfold newline_free. rewrite forallb_app.
  by intros [? _]%andb_true_iff.
Qed.

(** On a text without line feed, [$] holds at the end only. *)
Lemma at_eos_newline_free (s : pystr) :
  newline_free s = true -> at_eos s = true -> s = [].
Proof.
  destruct s as [|c [|c' s]]; simpl; try done.
  unfold not_newline. by destruct (char_eqb c newline).
Qed.

(** [.*] can take all of a text without line feed. *)
Lemma star_any_all (s : pystr) : forall i cs,
  newline_free s = true ->
  Matches (Star Any) (MState i s cs) (MState (i + length s) [] cs).
Proof.
  induction s as [|c s IH]; intros i cs H; simpl in *.
  - rewrite Nat.add_0_r. constructor.
  - apply andb_true_iff in H as [Hc Hs].
    eapply M_star_step with (st1 := MState (S i) s cs).
    + by apply (M_cls not_newline (MState i (c :: s) cs) c s).
    + simpl. lia.
    + replace (i + S (length s)) with (S i + length s) by lia. by apply IH.
Qed.

Lemma match_at_Some r i s m :
  match_at r i s = Some m ->
  exists st', Matches r (MState i s []) st' /\
              m = PyMatch i (consumed (MState i s []) st') (caps st').
Proof.
  unfold match_at. destruct (rmatch _ _ _) as [st'|] eqn:E; [|done].
  intros [= <-]. apply rmatch_sound in E as (st'' & M & [= ->]). eauto.
Qed.

Lemma match_at_None r i s st' :
  match_at r i s = None -> Matches r (MState i s []) st' -> False.
Proof.
  unfold match_at. destruct (rmatch _ _ _) as [?|] eqn:E; [done|].
  intros _ M. by pose proof (rmatch_complete _ _ _ E _ M).
Qed.

End MatcherFacts.

Section Substitution.

Implicit Types (r : regex) (s t : pystr).

Lemma ends_at_eos_Eos : ends_at_eos Eos.
Proof. intros st st' M. by inversion M; subst. Qed.

Lemma ends_at_eos_Cat r1 r2 : ends_at_eos r2 -> ends_at_eos (Cat r1 r2).
Proof. intros H st st' M. inversion M; subst. eauto. Qed.

Lemma ends_at_eos_rest r st st' :
  ends_at_eos r -> Matches r st st' ->
  newline_free (rest st) = true -> rest st' = [].
Proof.
  intros He M Hnl. apply at_eos_newline_free; [|by eapply He].
  eapply newline_free_suffix; [by eapply Matches_suffix|done].
Qed.

Lemma cut_at_prefix r s : forall i, cut_at r i s `prefix_of` s.
Proof.
  induction s as [|c s IH]; intros i; simpl.
  - by destruct (match_at _ _ _).
  - destruct (match_at _ _ _); [apply prefix_nil|]. by apply prefix_cons.
Qed.

Lemma sub_from_nil r fuel i :
  match_at r i [] = None -> sub_from fuel r [] i [] = [].
Proof. intros H. destruct fuel; simpl; [done|]. by rewrite H. Qed.

(** Replacing by nothing the matches of a pattern that ends in [$] cuts
    a text without line feed at the first match. *)
Lemma sub_cut r s :
  ends_at_eos r -> (forall i, match_at r i [] = None) ->
  newline_free s = true ->
  forall fuel i, length s < fuel -> sub_from fuel r [] i s = cut_at r i s.
Proof.
  intros He Hnil. induction s as [|c s IH]; intros Hnl fuel i Hf.
  - rewrite sub_from_nil by done. simpl. by rewrite Hnil.
  - destruct fuel as [|fuel]; [lia|]. simpl in *.
    destruct (match_at r i (c :: s)) as [m|] eqn:E.
    + apply match_at_Some in E as (st' & M & ->).
      unfold consumed. simpl.
      rewrite (ends_at_eos_rest _ _ _ He M Hnl). simpl.
      rewrite firstn_all, drop_all. by apply sub_from_nil.
    + f_equal. apply IH; [|lia]. by apply andb_true_iff in Hnl as [_ ?].
Qed.

Lemma re_sub_cut r s :
  ends_at_eos r -> (forall i, match_at r i [] = None) ->
  newline_free s = true -> re_sub r [] s = cut_at r 0 s.
Proof. intros. apply sub_cut; auto. Qed.

End Substitution.

#[local] Arguments consumed : simpl never.

Section Year.

Implicit Types (s t : pystr).

Lemma consumed_app st st' (p : pystr) :
  rest st = p ++ rest st' -> consumed st st' = p.
Proof.
  unfold consumed. intros ->.
  rewrite length_app, Nat.add_sub. by rewrite take_app_length.
Qed.

(** [(19|20)\d{2}] matches exactly at a year token, and covers it. *)
Lemma match_at_year i s :
  match_at year_re i s =
  if is_year_at s then Some (PyMatch i (take 4 s) [(1, take 2 s)]) else None.
Proof.
  destruct s as [|c1 [|c2 [|d1 [|d2 s]]]]; unfold match_at; simpl; try done;
    repeat (match goal with
            | |- context [if ?b then _ else _] => destruct b eqn:?
            end; simpl; try done).
  all: rewrite (consumed_app _ _ [c1; c2; d1; d2]) by done.
  all: by rewrite (consumed_app _ _ [c1; c2]).
Qed.

Lemma search_year s : forall i,
  m_text <$> search_from year_re i s = first_year s.
Proof.
  induction s as [|c s IH]; intros i.
  - done.
  - cbn [search_from first_year]. rewrite match_at_year.
    destruct (is_year_at (c :: s)); [done|]. apply IH.
Qed.

(** The year the normaliser returns is the leftmost year token of the
    stem. *)
Lemma year_normalize_stem s : year (normalize_stem s) = first_year s.
Proof. apply search_year. Qed.

End Year.

Section Title.

Implicit Types (s t : pystr).

Lemma is_year_at_prefix s t :
  s `prefix_of` t -> is_year_at s = true -> is_year_at t = true.
Proof.
  intros [q ->]. by destruct s as [|c1 [|c2 [|d1 [|d2 s]]]].
Qed.

Lemma has_year_suffix s t :
  s `suffix_of` t -> has_year t = false -> has_year s = false.
Proof.
  intros [p ->]. induction p as [|c p IH]; [done|].
  cbn [app has_year]. intros [_ ?]%orb_false_iff. auto.
Qed.

Lemma has_year_prefix s : forall t,
  s `prefix_of` t -> has_year t = false -> has_year s = false.
Proof.
  induction s as [|c s IH]; intros t Hp Ht; [done|].
  destruct Hp as [q ->]. cbn [app has_year] in *.
  apply orb_false_iff in Ht as [Hy Ht]. apply orb_false_iff. split.
  - destruct (is_year_at (c :: s)) eqn:E; [|done].
    rewrite (is_year_at_prefix (c :: s) (c :: s ++ q)) in Hy; [done| |done].
    by apply (prefix_app_r (c :: s) (c :: s) q).
  - apply (IH (s ++ q)); [by apply prefix_app_r|done].
Qed.

Lemma year_tail_ends : ends_at_eos year_tail_re.
Proof. repeat apply ends_at_eos_Cat. apply ends_at_eos_Eos. Qed.

Lemma quality_tail_ends : ends_at_eos quality_tail_re.
Proof. repeat apply ends_at_eos_Cat. apply ends_at_eos_Eos. Qed.

(** At a year token of a text without line feed, the pattern that cuts
    the year and what follows it has a match. *)
Lemma year_tail_matches i s :
  is_year_at s = true -> newline_free s = true ->
  exists st', Matches year_tail_re (MState i s []) st'.
Proof.
  destruct s as [|c1 [|c2 [|d1 [|d2 s]]]]; try done.
  intros Hy Hnl. cbn [is_year_at] in Hy.
  apply andb_true_iff in Hy as [Hy Hd2].
  apply andb_true_iff in Hy as [Hy Hd1].
  assert (newline_free s = true) as Hs.
  { eapply (newline_free_suffix s); [|exact Hnl].
    by exists [c1; c2; d1; d2]. }
  set (st0 := MState i (c1 :: c2 :: d1 :: d2 :: s) []).
  set (st1 := advance st0 (c2 :: d1 :: d2 :: s)).
  set (st2 := advance st1 (d1 :: d2 :: s)).
  set (g := set_group 1 st0 st2).
  set (st3 := advance g (d2 :: s)).
  set (st4 := advance st3 s).
  eexists. unfold year_tail_re. cbn [Seq].
  eapply M_cat; [apply M_alt_r, M_eps|].
  eapply (M_cat _ _ _ g).
  { apply M_grp. apply orb_true_iff in Hy as [Hy|Hy];
      apply andb_true_iff in Hy as [H1 H2].
    - apply M_alt_l. eapply (M_cat _ _ _ st1); by eapply M_cls.
    - apply M_alt_r. eapply (M_cat _ _ _ st1); by eapply M_cls. }
  eapply (M_cat _ _ _ st4).
  { eapply (M_cat _ _ _ st3); by eapply M_cls. }
  eapply M_cat; [apply M_alt_r, M_eps|].
  eapply M_cat; [by apply star_any_all|].
  by apply M_eos.
Qed.

(** Cutting at the year leaves no year token. *)
Lemma cut_year_no_year s : forall i,
  newline_free s = true -> has_year (cut_at year_tail_re i s) = false.
Proof.
  induction s as [|c s IH]; intros i Hnl; cbn [cut_at].
  - by destruct (match_at _ _ _).
  - destruct (match_at year_tail_re i (c :: s)) eqn:E; [done|].
    cbn [has_year]. apply orb_false_iff. split.
    + destruct (is_year_at (c :: cut_at year_tail_re (S i) s)) eqn:Ey;
        [|done].
      apply (is_year_at_prefix _ (c :: s)) in Ey;
        [|apply prefix_cons, cut_at_prefix].
      destruct (year_tail_matches i _ Ey Hnl) as [st' M].
      by destruct (match_at_None _ _ _ _ E M).
    + apply IH. by apply andb_true_iff in Hnl as [_ ?].
Qed.

End Title.

Section Cleaning.

Implicit Types (r : regex) (s t : pystr).

(** What a substitution by a blank starts with: a blank, or the first
    character of the text, followed by the substitution of what follows
    it. *)
Lemma sub_blank_head r fuel i s :
  match sub_from fuel r blank i s with
  | [] => True
  | x :: t =>
      x = " "%char \/
      exists s' fuel' i', s = x :: s' /\ t = sub_from fuel' r blank i' s'
  end.
Proof.
  destruct fuel as [|fuel]; simpl.
  - destruct s as [|x s']; [done|]. right. by exists s', 0, 0.
  - destruct (match_at r i s) as [m|].
    + destruct (length (m_text m) =? 0); simpl; auto.
    + destruct s as [|x s']; [done|]. right. by exists s', fuel, (S i).
Qed.

Lemma is_year_at_blank c t : is_year_at (c :: " "%char :: t) = false.
Proof.
  destruct t as [|d1 [|d2 t]]; try done. cbn [is_year_at].
  by rewrite !andb_false_r.
Qed.

Lemma is_year_at_blank2 c c' t :
  is_year_at (c :: c' :: " "%char :: t) = false.
Proof.
  destruct t as [|d2 t]; try done. cbn [is_year_at].
  by rewrite andb_false_r.
Qed.

Lemma is_year_at_blank3 c c' c'' t :
  is_year_at (c :: c' :: c'' :: " "%char :: t) = false.
Proof. cbn [is_year_at]. by rewrite andb_false_r. Qed.

Lemma has_year_blank t : has_year (" "%char :: t) = has_year t.
Proof. by destruct t as [|? [|? [|? ?]]]. Qed.

Lemma sub_blank_year_at r fuel i c s :
  is_year_at (c :: sub_from fuel r blank i s) = true ->
  is_year_at (c :: s) = true.
Proof.
  pose proof (sub_blank_head r fuel i s) as H1.
  destruct (sub_from fuel r blank i s) as [|x1 t1]; [done|].
  destruct H1 as [->|(s1 & f1 & i1 & -> & ->)];
    [by rewrite is_year_at_blank|].
  pose proof (sub_blank_head r f1 i1 s1) as H2.
  destruct (sub_from f1 r blank i1 s1) as [|x2 t2]; [done|].
  destruct H2 as [->|(s2 & f2 & i2 & -> & ->)];
    [by rewrite is_year_at_blank2|].
  pose proof (sub_blank_head r f2 i2 s2) as H3.
  destruct (sub_from f2 r blank i2 s2) as [|x3 t3]; [done|].
  destruct H3 as [->|(s3 & f3 & i3 & -> & ->)];
    [by rewrite is_year_at_blank3|].
  done.
Qed.

(** Replacing matches by a blank brings no year token into a text. *)
Lemma sub_blank_no_year r fuel : forall i s,
  has_year s = false -> has_year (sub_from fuel r blank i s) = false.
Proof.
  induction fuel as [|fuel IH]; intros i s Hs; [done|].
  assert (has_year
            match s with
            | [] => []
            | c :: s' => c :: sub_from fuel r blank (S i) s'
            end = false) as Hskip.
  { destruct s as [|c s']; [done|]. cbn [has_year] in *.
    apply orb_false_iff in Hs as [Hy Hs]. apply orb_false_iff. split.
    - destruct (is_year_at (c :: sub_from _ _ _ _ _)) eqn:E; [|done].
      apply sub_blank_year_at in E. congruence.
    - by apply IH. }
  cbn [sub_from]. destruct (match_at r i s) as [m|]; [|done].
  destruct (length (m_text m) =? 0).
  - change (blank ++ ?t) with (" "%char :: t).
    by rewrite has_year_blank.
  - change (blank ++ ?t) with (" "%char :: t).
    rewrite has_year_blank. apply IH.
    eapply has_year_suffix; [apply suffix_drop|done].
Qed.

Lemma lstrip_suffix s : lstrip s `suffix_of` s.
Proof.
  induction s as [|c s IH]; simpl; [done|].
  destruct (is_space c); [by apply suffix_cons_r|done].
Qed.

Lemma rstrip_prefix s : rstrip s `prefix_of` s.
Proof.
  unfold rstrip. destruct (lstrip_suffix (reverse s)) as [p Hp].
  exists (reverse p).
  by rewrite <- reverse_app, <- Hp, reverse_involutive.
Qed.

Lemma strip_no_year s : has_year s = false -> has_year (strip s) = false.
Proof.
  intros H. unfold strip. eapply has_year_prefix; [apply rstrip_prefix|].
  eapply has_year_suffix; [apply lstrip_suffix|done].
Qed.

Lemma lower_char_digit c :
  is_digit (lower_char c) = is_digit c /\
  (forall d, is_digit d = true -> char_eqb d (lower_char c) = char_eqb d c).
Proof.
  split.
  - by destruct c as [[] [] [] [] [] [] [] []].
  - intros d Hd. destruct (is_digit c) eqn:Ec.
    + by destruct c as [[] [] [] [] [] [] [] []].
    + assert (is_digit (lower_char c) = false) as El
        by (by destruct c as [[] [] [] [] [] [] [] []]).
      unfold char_eqb.
      destruct (Ascii.eqb_spec d (lower_char c)) as [->|];
        [congruence|].
      destruct (Ascii.eqb_spec d c) as [->|]; [congruence|done].
Qed.

Lemma lower_is_year_at s : is_year_at (lower s) = is_year_at s.
Proof.
  destruct s as [|c1 [|c2 [|d1 [|d2 s]]]]; try done.
  cbn [lower map is_year_at].
  rewrite !(proj1 (lower_char_digit _)).
  by rewrite !(proj2 (lower_char_digit _)).
Qed.

Lemma lower_no_year s : has_year (lower s) = has_year s.
Proof.
  induction s as [|c s IH]; [done|].
  change (lower (c :: s)) with (lower_char c :: lower s) at 1.
  cbn [has_year]. rewrite IH. f_equal. apply (lower_is_year_at (c :: s)).
Qed.

(** After the first offset, a pattern anchored by [^] matches nowhere. *)
Lemma sub_anchored r fuel repl : forall i s,
  sub_from fuel (Cat Bos r) repl (S i) s = s.
Proof.
  induction fuel as [|fuel IH]; intros i s; [done|].
  cbn [sub_from]. unfold match_at. simpl.
  destruct s as [|c s']; [done|]. by rewrite IH.
Qed.

Lemma re_sub_anchored_suffix r s :
  re_sub (Cat Bos r) [] s `suffix_of` s.
Proof.
  unfold re_sub. cbn [sub_from].
  destruct (match_at (Cat Bos r) 0 s) as [m|].
  - destruct (length (m_text m)) as [|n] eqn:E; simpl.
    + destruct s as [|c s']; [done|]. by rewrite sub_anchored.
    + destruct (length s) as [|k]; [apply suffix_drop|].
      rewrite sub_anchored. apply suffix_drop.
  - destruct s as [|c s']; [done|]. by rewrite sub_anchored.
Qed.

End Cleaning.

Section Normaliser.

Implicit Types (s t a b : pystr).

Lemma year_tail_nonempty i : match_at year_tail_re i [] = None.
Proof. reflexivity. Qed.

Lemma quality_tail_nonempty i : match_at quality_tail_re i [] = None.
Proof. reflexivity. Qed.

(** The title of a stem without line feed holds no year token. *)
Lemma title_no_year s :
  newline_free s = true ->
  has_year (normalized_title (normalize_stem s)) = false.
Proof.
  intros Hnl. unfold normalize_stem. cbn [normalized_title].
  change (str "") with (@nil ascii). change (str " ") with blank.
  rewrite (re_sub_cut year_tail_re s year_tail_ends year_tail_nonempty Hnl).
  assert (newline_free (cut_at year_tail_re 0 s) = true) as Hnl1
    by (eapply newline_free_prefix; [apply cut_at_prefix|done]).
  rewrite (re_sub_cut quality_tail_re _ quality_tail_ends
             quality_tail_nonempty Hnl1).
  eapply has_year_suffix; [apply (re_sub_anchored_suffix _ _)|].
  rewrite lower_no_year. apply strip_no_year.
  do 3 apply sub_blank_no_year.
  eapply has_year_prefix; [apply cut_at_prefix|].
  by apply cut_year_no_year.
Qed.

Lemma split_on_lacks s : lacks slash s = true -> split_on slash s = [s].
Proof.
  induction s as [|c s IH]; [done|]. cbn [lacks forallb split_on].
  intros [Hc Hs]%andb_true_iff. rewrite (IH Hs).
  by destruct (char_eqb c slash).
Qed.

Lemma rfind_dot_lacks b : lacks dot b = true -> rfind_dot b = None.
Proof.
  induction b as [|c b IH]; [done|]. cbn [lacks forallb rfind_dot].
  intros [Hc Hb]%andb_true_iff. rewrite (IH Hb).
  by destruct (char_eqb c dot).
Qed.

Lemma rfind_dot_app a b :
  lacks dot b = true -> rfind_dot (a ++ dot :: b) = Some (length a).
Proof.
  intros Hb. induction a as [|c a IH]; simpl.
  - by rewrite (rfind_dot_lacks b Hb).
  - by rewrite IH.
Qed.

Lemma lacks_app c a b :
  lacks c (a ++ b) = lacks c a && lacks c b.
Proof. apply forallb_app. Qed.

(** The stem of a name with a last dot inside it: what is before that
    dot. *)
Lemma path_stem_suffix a b :
  a <> [] -> b <> [] ->
  lacks slash a = true -> lacks slash b = true -> lacks dot b = true ->
  path_stem (a ++ dot :: b) = a.
Proof.
  intros Ha Hb Hsa Hsb Hdb. unfold path_stem, path_name. cbv zeta.
  rewrite split_on_lacks; last first.
  { rewrite lacks_app, Hsa. simpl. by rewrite Hsb. }
  rewrite filter_cons_True; last first.
  { split; [by destruct a|]. by destruct a as [|? [|? ?]], b. }
  rewrite filter_nil. cbn [last default from_option id].
  rewrite (rfind_dot_app a b Hdb).
  rewrite length_app. cbn [length].
  destruct a as [|c a]; [done|]. destruct b as [|c' b]; [done|].
  cbn [length]. replace (0 <? S (length a)) with true by done.
  replace (S (length a) <? S (length a) + S (S (length b)) - 1) with true
    by (symmetry; apply Nat.ltb_lt; lia).
  cbn [andb]. by rewrite (take_app_length (c :: a)).
Qed.

End Normaliser.

(** Where the stem keeps the year token, the normaliser does what the
    specification says of it: for every name whose stem (the name without
    its last suffix) has no line feed and holds a year token, it returns
    the leftmost year token of the stem as the year, and a title that
    holds no year token. *)
Lemma year_of_stem_extracted (name y : pystr) :
  newline_free (path_stem name) = true ->
  first_year (path_stem name) = Some y ->
  year (get_normalized_title name) = Some y /\
  has_year (normalized_title (get_normalized_title name)) = false.
Proof.
  intros Hnl Hy. unfold get_normalized_title. split.
  - by rewrite year_normalize_stem.
  - by apply title_no_year.
Qed.

Lemma year_of_stem_extracted_witness :
  year (get_normalized_title "The.Matrix.1999.1080p.BluRay.x264")
  = Some (str "1999") /\
  has_year (normalized_title
              (get_normalized_title "The.Matrix.1999.1080p.BluRay.x264"))
  = false.
Proof.
  apply (year_of_stem_extracted "The.Matrix.1999.1080p.BluRay.x264" "1999");
    vm_compute; reflexivity.
Defined.

(** C2, where the code fails it.  Every caller hands the normaliser the
    name of a folder, and the normaliser first takes [Path(name).stem] of
    it, as if the name were that of a file: what follows the last dot of
    the folder name is lost before the year is searched.  The folder name
    [Heat.1995] holds the year token [1995], which the year pattern of
    [health_check] finds in the whole name, and the normaliser returns no
    year for it; for [Mr. Nobody (2009)] it returns the title [mr] and no
    year.  In the detector the folders of two different films then share
    one title key and come out as a group of duplicates. *)
Theorem C2_year_lost_in_folder_name :
  first_year (str "Heat.1995") = Some (str "1995") /\
  found year_re (str "Heat.1995") = true /\
  get_normalized_title "Heat.1995" = TitleInfo "heat" None /\
  first_year (str "Mr. Nobody (2009)") = Some (str "2009") /\
  get_normalized_title "Mr. Nobody (2009)" = TitleInfo "mr" None /\
  map (map entry_summary)
      (find_duplicate_movies_enhanced
         [movie "Mr. Nobody (2009)" 700 (Some "aa");
          movie "Mr. Brooks (2007)" 900 (Some "bb")]).1
  = [[(str "Mr. Nobody (2009)", 700%Z, [TitleMatch]);
      (str "Mr. Brooks (2007)", 900%Z, [TitleMatch])]].
Proof. repeat split; vm_compute; reflexivity. Qed.

(** The example of the specification. *)
Example normalize_matrix :
  get_normalized_title "The.Matrix.1999.1080p.BluRay.x264"
  = TitleInfo "matrix" (Some (str "1999")).
Proof. vm_compute. reflexivity. Qed.

(** C10, as stated, fails for a name whose only dot is its first
    character: nothing is discarded, and the segment after the dot gives
    the year. *)
Lemma C10_leading_dot_counterexample :
  get_normalized_title ".1995" = TitleInfo "" (Some (str "1995")) /\
  get_normalized_title ".1995" <> get_normalized_title ".2001".
Proof. split; vm_compute; [reflexivity|discriminate]. Qed.

(** C10, amended: when the last dot of a name is neither its first nor its
    last character, the normaliser discards that dot and what follows it
    before it parses anything: the result is that of the text before the
    dot, whatever the last segment holds. *)
Theorem C10_last_segment_discarded (a b : pystr) :
  a <> [] -> b <> [] ->
  lacks slash a = true -> lacks slash b = true -> lacks dot b = true ->
  get_normalized_title (a ++ dot :: b) = normalize_stem a.
Proof.
  intros. unfold get_normalized_title. by rewrite path_stem_suffix.
Qed.

Lemma C10_last_segment_discarded_witness :
  get_normalized_title (str "Heat" ++ dot :: str "1995")
  = normalize_stem "Heat".
Proof.
  apply (C10_last_segment_discarded "Heat" "1995");
    vm_compute; (reflexivity || discriminate).
Defined.

Example normalize_heat_1995 :
  get_normalized_title "Heat.1995" = TitleInfo "heat" None.
Proof. vm_compute. reflexivity. Qed.

Example normalize_mr_nobody :
  get_normalized_title "Mr. Nobody" = TitleInfo "mr" None.
Proof. vm_compute. reflexivity. Qed.

Section Groups.

Implicit Types (r : regex) (st : mstate).

(** A match leaves the groups alone that its pattern does not hold. *)
Lemma Matches_caps r st st' n :
  Matches r st st' -> sets_group r n = false ->
  lookup_group n (caps st') = lookup_group n (caps st).
Proof.
  induction 1 as [| | ? ? ? ? ? ? IH1 ? IH2 | | | | ? ? ? ? ? IH1 ? ? IH2
                 | | ? ? ? ? ? IH1 ? ? IH2 | ? ? ? ? ? IH | |];
    cbn [sets_group]; intros Hn; try done.
  - apply orb_false_iff in Hn as [? ?]. rewrite IH2, IH1; done.
  - apply orb_false_iff in Hn as [? ?]. auto.
  - apply orb_false_iff in Hn as [? ?]. auto.
  - rewrite IH2, IH1; done.
  - rewrite IH2, IH1; done.
  - apply orb_false_iff in Hn as [Hm ?]. cbn [set_group caps lookup_group].
    rewrite Hm. auto.
Qed.

(** Matches do not depend on the groups captured before them. *)
Lemma Matches_recap r st st' :
  Matches r st st' ->
  forall cs, exists cs',
    Matches r (MState (pos st) (rest st) cs) (MState (pos st') (rest st') cs').
Proof.
  induction 1 as [st | p st c s' E Hp | r1 r2 st st1 st2 _ IH1 _ IH2
                 | r1 r2 st st' _ IH | r1 r2 st st' _ IH | r1 st
                 | r1 st st1 st2 _ IH1 Hlt _ IH2 | r1 st
                 | r1 st st1 st2 _ IH1 Hlt _ IH2 | n r1 st st1 _ IH
                 | st E | st E]; intros cs.
  - eexists. apply M_eps.
  - exists cs. by apply (M_cls p (MState (pos st) (rest st) cs) c s').
  - destruct (IH1 cs) as [cs1 M1]. destruct (IH2 cs1) as [cs2 M2].
    exists cs2. by eapply M_cat.
  - destruct (IH cs) as [cs' M]. exists cs'. by apply M_alt_l.
  - destruct (IH cs) as [cs' M]. exists cs'. by apply M_alt_r.
  - eexists. apply M_star_stop.
  - destruct (IH1 cs) as [cs1 M1]. destruct (IH2 cs1) as [cs2 M2].
    exists cs2. by eapply M_star_step.
  - eexists. apply M_lazy_stop.
  - destruct (IH1 cs) as [cs1 M1]. destruct (IH2 cs1) as [cs2 M2].
    exists cs2. by eapply M_lazy_step.
  - destruct (IH cs) as [cs1 M1]. eexists.
    apply (M_grp n r1 (MState (pos st) (rest st) cs) _ M1).
  - eexists. by apply M_bos.
  - eexists. by apply M_eos.
Qed.

Lemma rmatch_Cat r1 r2 st k res :
  rmatch (Cat r1 r2) st k = Some res ->
  exists st1, Matches r1 st st1 /\ rmatch r2 st1 k = Some res.
Proof. intros H. simpl in H. by apply rmatch_sound in H. Qed.

(** Whether a pattern matches with nothing to do after it does not depend
    on the groups captured before. *)
Lemma rmatch_final_recap r st res cs :
  rmatch r st Some = Some res ->
  rmatch r (MState (pos st) (rest st) cs) Some <> None.
Proof.
  intros H E. apply rmatch_sound in H as (st' & M & _).
  destruct (Matches_recap _ _ _ M cs) as [cs' M'].
  by pose proof (rmatch_complete _ _ _ E _ M').
Qed.

Lemma consumed_nonempty st st' :
  length (rest st') < length (rest st) -> consumed st st' <> [].
Proof.
  unfold consumed. intros Hlt E. apply (f_equal length) in E.
  rewrite length_take in E. simpl in E. lia.
Qed.

End Groups.

Section Episodes.

Implicit Types (r : regex) (st : mstate) (s : pystr).

Lemma rmatch_Opt r st k :
  rmatch (Opt r) st k = orelse (rmatch r st k) (k st).
Proof. reflexivity. Qed.

Lemma one_more_renumber n n' st st' :
  Matches (one_more n) st st' ->
  exists st'', Matches (one_more n') st st'' /\
               pos st'' = pos st' /\ rest st'' = rest st'.
Proof.
  intros M. inversion M as [| |? ? ? sta ? Ma Mb| | | | | | | | |]; subst.
  inversion Mb as [| | | | | | | | |? ? ? stb Mc| |]; subst.
  exists (set_group n' sta stb). split; [|done].
  eapply M_cat; [done|]. by apply M_grp.
Qed.

Lemma one_more_group n st st' :
  Matches (one_more n) st st' ->
  exists c t, lookup_group n (caps st') = Some (c :: t).
Proof.
  intros M. inversion M as [| |? ? ? sta ? Ma Mb| | | | | | | | |]; subst.
  inversion Mb as [| | | | | | | | |? ? ? stb Mc| |]; subst.
  cbn [set_group caps lookup_group]. rewrite Nat.eqb_refl.
  assert (length (rest stb) < length (rest sta)) as Hlt.
  { inversion Mc as [| |? ? ? stc ? Md Me| | | | | | | | |]; subst.
    inversion Md as [|? ? c s' E Hc| | | | | | | | | |]; subst.
    apply Matches_suffix, suffix_length in Me. simpl in Me.
    rewrite E. simpl. lia. }
  pose proof (consumed_nonempty _ _ Hlt).
  destruct (consumed sta stb) as [|c t]; [done|]. eauto.
Qed.

(** The two optional suffixes: the second is taken only after the first.
    [K] stands for the rest of the pattern. *)
Lemma extra_episodes_order st res (K : mstate -> option mstate) :
  (forall st1 st2, pos st1 = pos st2 -> rest st1 = rest st2 ->
                   K st1 = None -> K st2 = None) ->
  rmatch (extra_episode 4) st (fun st1 => rmatch (extra_episode 5) st1 K)
  = Some res ->
  (exists st4, Matches (one_more 4) st st4 /\
               rmatch (extra_episode 5) st4 K = Some res)
  \/ K st = Some res.
Proof.
  intros HK H. unfold extra_episode at 1 in H. rewrite rmatch_Opt in H.
  apply orelse_Some in H as [H|[E H]].
  - left. by apply rmatch_sound in H.
  - right. unfold extra_episode in H. rewrite rmatch_Opt in H.
    apply orelse_Some in H as [H|[_ H]]; [|done].
    exfalso. apply rmatch_sound in H as (st5 & M5 & H5).
    destruct (one_more_renumber 5 4 _ _ M5) as (st4 & M4 & Hp & Hr).
    pose proof (rmatch_complete _ _ _ E _ M4) as E4. cbn beta in E4.
    unfold extra_episode in E4. rewrite rmatch_Opt in E4.
    apply orelse_None in E4 as [_ E4].
    rewrite (HK _ _ Hp Hr E4) in H5. done.
Qed.

Lemma sxxexx_prefix st res :
  rmatch sxxexx_re st Some = Some res ->
  exists st3,
    lookup_group 4 (caps st3) = lookup_group 4 (caps st) /\
    lookup_group 5 (caps st3) = lookup_group 5 (caps st) /\
    rmatch sxxexx_rest st3 Some = Some res.
Proof.
  intros H. unfold sxxexx_re in H. cbn [Seq] in H.
  do 7 (let M := fresh "M" in
        apply rmatch_Cat in H as (? & M & H);
        pose proof (Matches_caps _ _ _ 4 M eq_refl);
        pose proof (Matches_caps _ _ _ 5 M eq_refl); clear M).
  eexists. split_and!; [| |exact H]; congruence.
Qed.

Lemma sxxexx_tail_recap st1 st2 :
  pos st1 = pos st2 -> rest st1 = rest st2 ->
  rmatch (Cat (Grp 6 (Star Any)) Eos) st1 Some = None ->
  rmatch (Cat (Grp 6 (Star Any)) Eos) st2 Some = None.
Proof.
  intros Hp Hr E.
  destruct (rmatch _ st2 _) as [res|] eqn:E2; [|done].
  apply (rmatch_final_recap _ _ _ (caps st1)) in E2.
  rewrite <- Hp, <- Hr in E2. by destruct st1.
Qed.

(** In a match of the first pattern, group 5 is set only when group 4
    is. *)
Lemma sxxexx_groups s m :
  re_match sxxexx_re s = Some m ->
  group_text m 4 = None -> group_text m 5 = None.
Proof.
  unfold re_match, match_at.
  destruct (rmatch sxxexx_re _ Some) as [res|] eqn:H; [|done].
  intros [= <-]. unfold group_text, group. cbn [m_caps].
  apply sxxexx_prefix in H as (st3 & H4 & H5 & H). cbn [caps lookup_group] in *.
  unfold sxxexx_rest in H. cbn [Seq] in H.
  change (rmatch (Cat ?a (Cat ?b ?c)) ?st ?k)
    with (rmatch a st (fun st1 => rmatch b st1 (fun st2 => rmatch c st2 k)))
    in H.
  apply (extra_episodes_order _ _ _ sxxexx_tail_recap) in H
    as [(st4 & M4 & H)|H].
  - destruct (one_more_group _ _ _ M4) as (c & t & G4).
    apply rmatch_sound in H as (st5 & M5 & H).
    apply rmatch_sound in H as (st6 & M6 & [= ->]).
    by rewrite (Matches_caps _ _ _ 4 M6 eq_refl),
               (Matches_caps _ _ _ 4 M5 eq_refl), G4.
  - apply rmatch_sound in H as (st6 & M6 & [= ->]).
    by rewrite (Matches_caps _ _ _ 5 M6 eq_refl), H5.
Qed.

(** The episodes of a file name are at most three, and the multi-episode
    flag says whether they are more than one. *)
Lemma episodes_bound filename :
  length (episodes (get_episode_info filename)) <= 3 /\
  is_multi_episode (get_episode_info filename)
  = (1 <? length (episodes (get_episode_info filename))).
Proof.
  unfold get_episode_info.
  destruct (re_match sxxexx_re _) as [m|] eqn:E1.
  - cbn [episodes is_multi_episode].
    pose proof (sxxexx_groups _ _ E1) as H45.
    destruct (group_text m 4) as [t4|]; cbn [fmap option_fmap option_map].
    + destruct (group_text m 5); simpl; split; (lia || done).
    + rewrite H45 by done. simpl. split; (lia || done).
  - destruct (re_match nxnn_re _); [simpl; split; (lia || done)|].
    destruct (re_match season_episode_re _); simpl; split; (lia || done).
Qed.

End Episodes.

(** ** The first pattern on a file name taken apart *)

Section Collected.

Implicit Types (r : regex) (st : mstate) (k : mstate -> option mstate).
Implicit Types (s t u w : pystr) (cs : list (nat * pystr)).

Lemma digit_not_sep c : is_digit c = true -> is_sep c = false.
Proof.
  destruct c as [[] [] [] [] [] [] [] []]; vm_compute; congruence.
Qed.

Lemma season_mark_not_sep c : one_of "Ss" c = true -> is_sep c = false.
Proof.
  destruct c as [[] [] [] [] [] [] [] []]; vm_compute; congruence.
Qed.

Lemma episode_mark_not_digit c : one_of "Ee" c = true -> is_digit c = false.
Proof.
  destruct c as [[] [] [] [] [] [] [] []]; vm_compute; congruence.
Qed.

Lemma suffix_mark_not_digit c : one_of "Ee-" c = true -> is_digit c = false.
Proof.
  destruct c as [[] [] [] [] [] [] [] []]; vm_compute; congruence.
Qed.

Lemma suffix_mark_not_newline c :
  one_of "Ee-" c = true -> not_newline c = true.
Proof.
  destruct c as [[] [] [] [] [] [] [] []]; vm_compute; congruence.
Qed.

Lemma digit_not_newline c : is_digit c = true -> not_newline c = true.
Proof.
  destruct c as [[] [] [] [] [] [] [] []]; vm_compute; congruence.
Qed.

Lemma consumed_run i j u t cs cs' :
  consumed (MState i (u ++ t) cs) (MState j t cs') = u.
Proof.
  unfold consumed. cbn [rest]. rewrite length_app.
  replace (length u + length t - length t) with (length u) by lia.
  apply take_app_length.
Qed.

Lemma rmatch_Cat_eq r1 r2 st k :
  rmatch (Cat r1 r2) st k = rmatch r1 st (fun st1 => rmatch r2 st1 k).
Proof. reflexivity. Qed.

Lemma rmatch_Alt_eq r1 r2 st k :
  rmatch (Alt r1 r2) st k = orelse (rmatch r1 st k) (rmatch r2 st k).
Proof. reflexivity. Qed.

Lemma rmatch_Eps_eq st k : rmatch Eps st k = k st.
Proof. reflexivity. Qed.

Lemma rmatch_Grp_eq n r st k :
  rmatch (Grp n r) st k = rmatch r st (fun st1 => k (set_group n st st1)).
Proof. reflexivity. Qed.

Lemma rmatch_Bos_eq t cs k :
  rmatch Bos (MState 0 t cs) k = k (MState 0 t cs).
Proof. reflexivity. Qed.

Lemma rmatch_Cls_here p i c t cs k :
  p c = true ->
  rmatch (Cls p) (MState i (c :: t) cs) k = k (MState (S i) t cs).
Proof. intros H. cbn [rmatch rest]. by rewrite H. Qed.

Lemma rmatch_Cls_not p i t cs k :
  match t with c :: _ => p c | [] => false end = false ->
  rmatch (Cls p) (MState i t cs) k = None.
Proof. intros H. cbn [rmatch rest]. destruct t; [done|]. by rewrite H. Qed.

(** A greedy loop over a class takes all of a run of the class that ends
    the text or is followed by a character outside the class, when the
    rest of the pattern matches after the run. *)
Lemma rep_loop_class p k res : forall u fuel i t cs,
  forallb p u = true ->
  match t with c :: _ => p c | [] => false end = false ->
  length u <= fuel ->
  k (MState (i + length u) t cs) = Some res ->
  rep_loop true (rmatch (Cls p)) k fuel (MState i (u ++ t) cs) = Some res.
Proof.
  induction u as [|c u IH]; intros fuel i t cs Hu Ht Hf Hk.
  - cbn [length app] in *. rewrite Nat.add_0_r in Hk.
    destruct fuel as [|fuel]; [done|]. cbn [rep_loop].
    by rewrite rmatch_Cls_not.
  - cbn [forallb] in Hu. apply andb_true_iff in Hu as [Hc Hu].
    destruct fuel as [|fuel]; [simpl in Hf; lia|].
    cbn [rep_loop app]. rewrite rmatch_Cls_here by done. cbn [rest length].
    replace (length (u ++ t) <? S (length (u ++ t))) with true
      by (symmetry; apply Nat.ltb_lt; lia).
    rewrite (IH fuel (S i) t cs); [done..| |].
    + simpl in Hf. lia.
    + cbn [length] in Hk. by rewrite Nat.add_succ_r in Hk.
Qed.

(** [[.\s_-]+] before a season mark *)
Lemma rmatch_separators u i t cs k res :
  0 < length u -> forallb is_sep u = true ->
  match t with c :: _ => is_sep c | [] => false end = false ->
  k (MState (i + length u) t cs) = Some res ->
  rmatch (Plus (Cls is_sep)) (MState i (u ++ t) cs) k = Some res.
Proof.
  intros Hn Hu Ht Hk. destruct u as [|c u]; [simpl in Hn; lia|].
  cbn [forallb] in Hu. apply andb_true_iff in Hu as [Hc Hu].
  unfold Plus. rewrite rmatch_Cat_eq. cbn [app].
  rewrite rmatch_Cls_here by done. cbn [rmatch rest].
  apply rep_loop_class; [done..| |].
  - rewrite length_app. lia.
  - cbn [length] in Hk. by rewrite Nat.add_succ_r in Hk.
Qed.

(** [(\d{1,2})] on a number that ends the text or is followed by a
    character that is no digit *)
Lemma rmatch_number n tok i t cs k res :
  digits12 tok = true -> starts_digit t = false ->
  k (MState (i + length tok) t ((n, tok) :: cs)) = Some res ->
  rmatch (Grp n (Rep12 Digit)) (MState i (tok ++ t) cs) k = Some res.
Proof.
  intros Htok Ht Hk. unfold Rep12, Opt, Digit.
  rewrite rmatch_Grp_eq, rmatch_Cat_eq.
  destruct tok as [|d1 [|d2 [|]]]; try done; cbn [digits12] in Htok.
  - cbn [app length] in *.
    rewrite rmatch_Cls_here, rmatch_Alt_eq, rmatch_Eps_eq by done.
    rewrite rmatch_Cls_not by done.
    cbn [orelse]. unfold set_group. cbn [pos rest caps].
    pose proof (consumed_run i (S i) [d1] t cs cs) as Hc.
    cbn [app] in Hc. rewrite Hc.
    by rewrite Nat.add_1_r in Hk.
  - apply andb_true_iff in Htok as [H1 H2]. cbn [app length] in *.
    rewrite rmatch_Cls_here, rmatch_Alt_eq by done.
    rewrite rmatch_Cls_here by done.
    unfold set_group. cbn [pos rest caps].
    pose proof (consumed_run i (S (S i)) [d1; d2] t cs cs) as Hc.
    cbn [app] in Hc. rewrite Hc.
    replace (i + 2) with (S (S i)) in Hk by lia.
    by rewrite Hk.
Qed.

(** An additional suffix that is there is taken. *)
Lemma rmatch_extra_episode_here n m tok i t cs k res :
  one_of "Ee-" m = true -> digits12 tok = true -> starts_digit t = false ->
  k (MState (S i + length tok) t ((n, tok) :: cs)) = Some res ->
  rmatch (extra_episode n) (MState i (m :: tok ++ t) cs) k = Some res.
Proof.
  intros Hm Htok Ht Hk. unfold extra_episode, one_more.
  rewrite rmatch_Opt, rmatch_Cat_eq. unfold OneOf at 1.
  rewrite rmatch_Cls_here by done.
  by rewrite (rmatch_number n tok (S i) t cs k res).
Qed.

(** Where no additional suffix starts, none is taken. *)
Lemma rmatch_extra_episode_none n i t cs k :
  starts_suffix t = false ->
  rmatch (extra_episode n) (MState i t cs) k = k (MState i t cs).
Proof.
  intros Ht. unfold extra_episode, one_more.
  rewrite rmatch_Opt, rmatch_Cat_eq. unfold OneOf at 1.
  destruct t as [|m t]; [by rewrite rmatch_Cls_not|].
  cbn [starts_suffix] in Ht. unfold one_of in Ht.
  destruct (existsb (char_eqb m) (str "Ee-")) eqn:Hm.
  - rewrite rmatch_Cls_here by done. cbn [andb] in Ht.
    unfold Rep12, Digit.
    rewrite rmatch_Grp_eq, rmatch_Cat_eq. by rewrite rmatch_Cls_not.
  - by rewrite rmatch_Cls_not.
Qed.

(** The last group takes what is left. *)
Lemma rmatch_remainder i t cs :
  newline_free t = true ->
  rmatch (Cat (Grp 6 (Star Any)) Eos) (MState i t cs) Some
  = Some (MState (i + length t) [] ((6, t) :: cs)).
Proof.
  intros Ht. rewrite rmatch_Cat_eq, rmatch_Grp_eq.
  unfold Any. cbn [rmatch rest].
  rewrite <- (app_nil_r t) at 2.
  apply rep_loop_class; [done..|].
  unfold set_group. cbn [pos rest caps rmatch at_eos].
  by rewrite <- (app_nil_r t) at 2; rewrite consumed_run.
Qed.

Lemma suffixes_text_cons x l t :
  suffixes_text (x :: l) ++ t = x.1 :: x.2 ++ suffixes_text l ++ t.
Proof.
  unfold suffixes_text. cbn [flat_map suffix_text].
  by rewrite <- app_assoc.
Qed.

Lemma suffixes_newline_free l :
  forallb (fun x => one_of "Ee-" x.1 && digits12 x.2) l = true ->
  newline_free (suffixes_text l) = true.
Proof.
  induction l as [|[m tok] l IH]; [done|]. cbn [forallb fst snd].
  intros [[Hm Htok]%andb_true_iff Hl]%andb_true_iff.
  rewrite <- (app_nil_r (suffixes_text _)), suffixes_text_cons, app_nil_r.
  cbn [fst snd]. unfold newline_free. cbn [forallb].
  rewrite forallb_app, (suffix_mark_not_newline _ Hm). cbn [andb].
  apply andb_true_iff. split; [|by apply IH].
  destruct tok as [|d1 [|d2 [|]]]; try done; cbn [digits12] in Htok.
  - cbn [forallb]. by rewrite (digit_not_newline _ Htok).
  - apply andb_true_iff in Htok as [H1 H2]. cbn [forallb].
    by rewrite (digit_not_newline _ H1), (digit_not_newline _ H2).
Qed.

Lemma suffixes_start l t :
  forallb (fun x => one_of "Ee-" x.1 && digits12 x.2) l = true ->
  starts_digit t = false ->
  starts_digit (suffixes_text l ++ t) = false.
Proof.
  destruct l as [|[m tok] l]; [done|]. cbn [forallb fst snd].
  intros [[Hm Htok]%andb_true_iff Hl]%andb_true_iff _.
  rewrite suffixes_text_cons. cbn [starts_digit fst].
  by apply suffix_mark_not_digit.
Qed.

(** A match of a repeated class covers a run of the class. *)
Lemma Matches_Star_Cls p st st' :
  Matches (Star (Cls p)) st st' ->
  exists u, forallb p u = true /\ rest st = u ++ rest st'.
Proof.
  intros M. remember (Star (Cls p)) as r eqn:Er.
  induction M as [| | | | | r1 st | r1 st st1 st2 M1 _ Hlt M2 IH2 | | | | |];
    try discriminate.
  - by exists [].
  - injection Er as ->. destruct (IH2 eq_refl) as (u & Hu & E).
    inversion M1 as [|? ? c s' Hr Hc| | | | | | | | | |]; subst.
    exists (c :: u). cbn [forallb]. rewrite Hc, Hu. split; [done|].
    rewrite Hr. cbn [advance rest] in E. by rewrite E.
Qed.

(** Where the rest of the first pattern matches, the text starts with
    separators, a season mark and a digit. *)
Lemma after_show_starts st k res :
  rmatch sxxexx_after_show st k = Some res ->
  exists a u b d w,
    is_sep a = true /\ forallb is_sep u = true /\
    one_of "Ss" b = true /\ is_digit d = true /\
    rest st = a :: u ++ b :: d :: w.
Proof.
  unfold sxxexx_after_show. cbn [Seq]. intros H.
  apply rmatch_Cat in H as (st1 & M1 & H).
  apply rmatch_Cat in H as (st2 & M2 & H).
  apply rmatch_Cat in H as (st3 & M3 & _).
  unfold Plus in M1.
  inversion M1 as [| |? ? ? sta ? Ma Mb| | | | | | | | |]; subst.
  inversion Ma as [|? ? a s' Ea Ha| | | | | | | | | |]; subst.
  apply Matches_Star_Cls in Mb as (u & Hu & Eu). cbn [advance rest] in Eu.
  unfold OneOf in M2.
  inversion M2 as [|? ? b s'' Eb Hb| | | | | | | | | |]; subst.
  inversion M3 as [| | | | | | | | |? ? ? stb Mc| |]; subst.
  unfold Rep12 in Mc.
  inversion Mc as [| |? ? ? stc ? Md _| | | | | | | | |]; subst.
  unfold Digit in Md.
  inversion Md as [|? ? d s3 Ed Hd| | | | | | | | | |]; subst.
  cbn [advance rest] in Ed.
  exists a, u, b, d, s3. split_and!; try done.
  by rewrite Ea, Eb, Ed.
Qed.

Lemma mark_free_tail c t : mark_free (c :: t) = true -> mark_free t = true.
Proof. cbn [mark_free]. by intros [_ ?]%andb_true_iff. Qed.

Lemma mark_free_suffix w1 w2 :
  mark_free (w1 ++ w2) = true -> mark_free w2 = true.
Proof.
  induction w1 as [|c w1 IH]; [done|]. cbn [app].
  intros H%mark_free_tail. auto.
Qed.

Lemma ends_in_sep_cons c t :
  t <> [] -> ends_in_sep (c :: t) = ends_in_sep t.
Proof. unfold ends_in_sep. destruct t; [done|]. by rewrite last_cons_cons. Qed.

Lemma ends_in_sep_suffix w1 w2 :
  w2 <> [] -> ends_in_sep (w1 ++ w2) = ends_in_sep w2.
Proof.
  intros Hw. induction w1 as [|c w1 IH]; [done|]. cbn [app].
  rewrite ends_in_sep_cons; [done|]. by destruct w1, w2.
Qed.

(** Inside a show that holds no season mark and does not end in a
    separator, no run of separators is followed by a season mark and a
    digit, whatever separator follows the show. *)
Lemma no_mark_inside : forall u t a b d w c0 t0,
  t <> [] -> ends_in_sep t = false -> mark_free t = true ->
  is_sep a = true -> forallb is_sep u = true ->
  is_sep c0 = true -> one_of "Ss" b = true -> is_digit d = true ->
  t ++ c0 :: t0 = a :: u ++ b :: d :: w -> False.
Proof.
  induction u as [|a2 u IH]; intros t a b d w c0 t0 Ht He Hm Ha Hu H0 Hb Hd E.
  - destruct t as [|a' t]; [done|]. cbn [app] in E.
    injection E as -> E.
    destruct t as [|b' [|d' t]]; cbn [app] in E.
    + unfold ends_in_sep in He. cbn in He. congruence.
    + injection E as -> -> _. by rewrite (digit_not_sep _ Hd) in H0.
    + injection E as -> -> _. cbn [mark_free starts_mark] in Hm.
      by rewrite Ha, Hb, Hd in Hm.
  - destruct t as [|a' t]; [done|]. cbn [app] in E.
    injection E as -> E. cbn [forallb] in Hu.
    apply andb_true_iff in Hu as [Ha2 Hu].
    destruct t as [|a'' t].
    + unfold ends_in_sep in He. cbn in He. congruence.
    + apply (IH (a'' :: t) a2 b d w c0 t0); try done.
      by apply mark_free_tail in Hm.
Qed.

(** The lazy loop of the show stops at the first offset where the rest of
    the pattern matches. *)
Lemma rep_loop_lazy_any k res t : forall w fuel i cs,
  newline_free w = true -> length w <= fuel ->
  (forall w1 w2, w = w1 ++ w2 -> w2 <> [] ->
                 k (MState (i + length w1) (w2 ++ t) cs) = None) ->
  k (MState (i + length w) t cs) = Some res ->
  rep_loop false (rmatch Any) k fuel (MState i (w ++ t) cs) = Some res.
Proof.
  induction w as [|c w IH]; intros fuel i cs Hw Hf Hnone Hk.
  - cbn [length app] in *. rewrite Nat.add_0_r in Hk.
    destruct fuel; cbn [rep_loop]; by rewrite Hk.
  - destruct fuel as [|fuel]; [simpl in Hf; lia|].
    cbn [forallb newline_free] in Hw. unfold newline_free in Hw.
    cbn [forallb] in Hw. apply andb_true_iff in Hw as [Hc Hw].
    cbn [rep_loop].
    pose proof (Hnone [] (c :: w) eq_refl) as H0.
    cbn [length app] in H0. rewrite Nat.add_0_r in H0.
    cbn [app]. rewrite H0 by done. cbn [orelse].
    unfold Any. rewrite rmatch_Cls_here by done. cbn [rest length].
    replace (length (w ++ t) <? S (length (w ++ t))) with true
      by (symmetry; apply Nat.ltb_lt; lia).
    apply IH; [done| | |].
    + simpl in Hf. lia.
    + intros w1 w2 -> Hw2.
      specialize (Hnone (c :: w1) w2 eq_refl Hw2).
      cbn [length] in Hnone. by rewrite Nat.add_succ_r in Hnone.
    + cbn [length] in Hk. by rewrite Nat.add_succ_r in Hk.
Qed.

(** The first pattern on a text that starts with a show: the show is the
    first group, and the rest of the pattern is matched right after it. *)
Lemma sxxexx_show show c0 t0 res :
  0 < length show -> newline_free show = true ->
  ends_in_sep show = false -> mark_free show = true ->
  is_sep c0 = true ->
  rmatch sxxexx_after_show
         (MState (length show) (c0 :: t0) [(1, show)]) Some = Some res ->
  rmatch sxxexx_re (MState 0 (show ++ c0 :: t0) []) Some = Some res.
Proof.
  intros Hn Hnl He Hm H0 Hk.
  change sxxexx_re
    with (Cat Bos (Cat (Grp 1 (LazyPlus Any)) sxxexx_after_show)).
  rewrite rmatch_Cat_eq, rmatch_Bos_eq, rmatch_Cat_eq, rmatch_Grp_eq.
  unfold LazyPlus. rewrite rmatch_Cat_eq.
  destruct show as [|c show]; [simpl in Hn; lia|].
  unfold newline_free in Hnl. cbn [forallb] in Hnl.
  apply andb_true_iff in Hnl as [Hc Hnl].
  cbn [app]. unfold Any at 1. rewrite rmatch_Cls_here by done.
  cbn [rmatch rest].
  apply rep_loop_lazy_any; [done|rewrite length_app; lia| |].
  - intros w1 w2 -> Hw2.
    match goal with |- ?x = None => destruct x as [res'|] eqn:E end;
      [|done].
    exfalso. apply after_show_starts in E
      as (a & u & b & d & w & Ha & Hu & Hb & Hd & E).
    unfold set_group in E. cbn [rest] in E.
    apply (no_mark_inside u w2 a b d w c0 t0); try done.
    + rewrite <- He.
      change (c :: w1 ++ w2) with ((c :: w1) ++ w2).
      by rewrite ends_in_sep_suffix.
    + change (c :: w1 ++ w2) with ((c :: w1) ++ w2) in Hm.
      by apply mark_free_suffix in Hm.
  - unfold set_group. cbn [pos rest caps].
    change (c :: show ++ c0 :: t0) with ((c :: show) ++ c0 :: t0).
    rewrite consumed_run. exact Hk.
Qed.

End Collected.

Section Spelled.

Implicit Types (n : episode_name) (cs : list (nat * pystr)).

Lemma digits12_nonempty tok : digits12 tok = true -> tok <> [].
Proof. by destruct tok. Qed.

(** The pattern from its first optional suffix on, on the suffixes of a
    file name and what follows them: the first two suffixes are taken,
    and the last group holds the others and what follows. *)
Lemma sxxexx_rest_spelled l tail i cs :
  forallb (fun x => one_of "Ee-" x.1 && digits12 x.2) l = true ->
  newline_free tail = true ->
  starts_digit tail = false -> starts_suffix tail = false ->
  exists p,
    rmatch sxxexx_rest (MState i (suffixes_text l ++ tail) cs) Some
    = Some (MState p []
              ((6, suffixes_text (drop 2 l) ++ tail)
                 :: suffix_groups l ++ cs)).
Proof.
  intros Hl Hnl Hd Hs. unfold sxxexx_rest. cbn [Seq].
  destruct l as [|[m1 t1] [|[m2 t2] l]]; cbn [forallb fst snd] in Hl.
  - eexists. cbn [drop suffix_groups app].
    change (suffixes_text [] ++ tail) with tail.
    rewrite rmatch_Cat_eq, rmatch_extra_episode_none by done.
    rewrite rmatch_Cat_eq, rmatch_extra_episode_none by done.
    by rewrite rmatch_remainder.
  - apply andb_true_iff in Hl as [[Hm1 Ht1]%andb_true_iff _].
    eexists. cbn [drop suffix_groups app snd].
    rewrite suffixes_text_cons. cbn [fst snd].
    change (suffixes_text [] ++ tail) with tail.
    rewrite rmatch_Cat_eq.
    apply rmatch_extra_episode_here; [done..|].
    rewrite rmatch_Cat_eq, rmatch_extra_episode_none by done.
    by rewrite rmatch_remainder.
  - apply andb_true_iff in Hl as [[Hm1 Ht1]%andb_true_iff Hl].
    apply andb_true_iff in Hl as [[Hm2 Ht2]%andb_true_iff Hl].
    eexists. cbn [drop suffix_groups app snd].
    rewrite !suffixes_text_cons. cbn [fst snd].
    rewrite rmatch_Cat_eq.
    apply rmatch_extra_episode_here;
      [done..|by apply suffix_mark_not_digit|].
    rewrite rmatch_Cat_eq.
    apply rmatch_extra_episode_here; [done..|by apply suffixes_start|].
    rewrite rmatch_remainder; [done|].
    pose proof (suffixes_newline_free l Hl) as Hl'.
    unfold newline_free in *. by rewrite forallb_app, Hl', Hnl.
Qed.

(** The first pattern on a well-formed file name. *)
Lemma sxxexx_spelled n :
  well_formed n = true ->
  exists p,
    rmatch sxxexx_re (MState 0 (spell n) []) Some
    = Some (MState p []
              ((6, suffixes_text (drop 2 (name_suffixes n)) ++ name_tail n)
                 :: suffix_groups (name_suffixes n)
                 ++ [(3, name_episode n); (2, name_season n);
                     (1, name_show n)])).
Proof.
  destruct n as [show seps s sn e en l tail].
  unfold well_formed, spell.
  cbn [name_show name_seps name_s name_season name_e name_episode
       name_suffixes name_tail].
  rewrite !andb_true_iff, !negb_true_iff, !Nat.ltb_lt.
  intros [[[[[[[[[[[[[Hn Hnl] He] Hm] Hsn] Hseps] Hs] Hsd] Hee] Hed] Hl]
              Htl] Htd] Hts].
  destruct (sxxexx_rest_spelled l tail
              (S (S (length show + length seps) + length sn) + length en)
              [(3, en); (2, sn); (1, show)] Hl Htl Htd Hts) as [p Hp].
  exists p. destruct seps as [|c0 seps]; [simpl in Hsn; lia|].
  cbn [app]. apply sxxexx_show; try done.
  { cbn [forallb] in Hseps. by apply andb_true_iff in Hseps as [? _]. }
  unfold sxxexx_after_show. cbn [Seq].
  change (c0 :: seps ++ ?t) with ((c0 :: seps) ++ t).
  rewrite rmatch_Cat_eq.
  apply rmatch_separators; [done..|by apply season_mark_not_sep|].
  rewrite rmatch_Cat_eq. unfold OneOf at 1.
  rewrite rmatch_Cls_here by done.
  rewrite rmatch_Cat_eq.
  apply rmatch_number; [done|by apply episode_mark_not_digit|].
  rewrite rmatch_Cat_eq. unfold OneOf at 1.
  rewrite rmatch_Cls_here by done.
  rewrite rmatch_Cat_eq.
  apply rmatch_number; [done|by apply suffixes_start|].
  exact Hp.
Qed.

End Spelled.

Section Identified.

(** What the identifier returns for a well-formed file name of the first
    pattern: the season and the episode as written, the episode and the
    first two suffixes as the episodes, the show as the title, and the
    other suffixes with what follows them as the text of the episode
    title. *)
Lemma spelled_episode_info filename n :
  path_stem filename = spell n -> well_formed n = true ->
  get_episode_info filename
  = EpisodeInfo
      (Some (int_of_digits (name_season n)))
      (Some (int_of_digits (name_episode n)))
      (int_of_digits (name_episode n)
         :: map (fun x => int_of_digits x.2) (take 2 (name_suffixes n)))
      (Some (strip (re_sub (Chr ".") " " (name_show n))))
      (episode_title_of
         (suffixes_text (drop 2 (name_suffixes n)) ++ name_tail n))
      (0 <? length (name_suffixes n)).
Proof.
  intros Hstem Hwf. destruct (sxxexx_spelled n Hwf) as [p Hp].
  unfold get_episode_info. cbv zeta. rewrite Hstem.
  unfold re_match, match_at. cbv zeta. rewrite Hp.
  assert (forallb (fun x => one_of "Ee-" x.1 && digits12 x.2)
                  (name_suffixes n) = true) as Hl.
  { unfold well_formed in Hwf. rewrite !andb_true_iff in Hwf. tauto. }
  assert (forall t, group_text
            (PyMatch 0 (consumed (MState 0 (spell n) []) (MState p [] t)) t) 6
            ≫= episode_title_of
          = episode_title_of (default [] (lookup_group 6 t))) as H6.
  { intros t. unfold group_text, group. cbn [m_caps].
    by destruct (lookup_group 6 t) as [[|? ?]|]. }
  rewrite H6. clear H6.
  unfold group_int, group_of, group_text, title_of_group, group.
  cbn [m_caps caps].
  destruct (name_suffixes n) as [|[m1 t1] [|[m2 t2] l]];
    cbn [forallb fst snd] in Hl.
  - reflexivity.
  - apply andb_true_iff in Hl as [[_ Ht1%digits12_nonempty]%andb_true_iff _].
    destruct t1 as [|d1 t1]; [done|]. reflexivity.
  - apply andb_true_iff in Hl as [[_ Ht1%digits12_nonempty]%andb_true_iff Hl].
    apply andb_true_iff in Hl as [[_ Ht2%digits12_nonempty]%andb_true_iff _].
    destruct t1 as [|d1 t1]; [done|]. destruct t2 as [|d2 t2]; [done|].
    reflexivity.
Qed.

End Identified.


(** A suffix written [-E03], as in the comment above the first pattern of
    the source, is not collected either: the pattern wants the digits
    right after the [-]. *)
Example episode_range_not_collected :
  episodes (get_episode_info "Show.S01E01-E03.mkv") = [1%Z] /\
  episode_title (get_episode_info "Show.S01E01-E03.mkv") = Some (str "E03").
Proof. split; vm_compute; reflexivity. Qed.


Section Scorer.

Implicit Types (q : quality) (p : probe) (filename : pystr).

Ltac branches :=
  repeat match goal with
         | |- context [if ?b then _ else _] => destruct b
         | |- context [match ?x with _ => _ end] => destruct x
         end.

(** The attribute blocks leave the source label alone. *)
Lemma source_measured_resolution mi q :
  source (measured_resolution mi q) = source q.
Proof. unfold measured_resolution. cbv zeta. branches; reflexivity. Qed.

Lemma source_measured_codec mi q : source (measured_codec mi q) = source q.
Proof. unfold measured_codec. cbv zeta. branches; reflexivity. Qed.

Lemma source_measured_audio mi q : source (measured_audio mi q) = source q.
Proof. unfold measured_audio. cbv zeta. branches; reflexivity. Qed.

Lemma source_measured_hdr mi h q : source (measured_hdr mi h q) = source q.
Proof. unfold measured_hdr. cbv zeta. branches; reflexivity. Qed.

Lemma source_measured_bitrate q : source (measured_bitrate q) = source q.
Proof. unfold measured_bitrate. branches; reflexivity. Qed.

Lemma source_score_measured mi h q :
  source (score_measured mi h q) = source q.
Proof.
  unfold score_measured. cbv zeta.
  by rewrite source_measured_bitrate, source_measured_hdr,
    source_measured_audio, source_measured_codec, source_measured_resolution.
Qed.

Lemma source_filename_resolution s q :
  source (filename_resolution s q) = source q.
Proof. unfold filename_resolution. branches; reflexivity. Qed.

Lemma source_filename_codec s q : source (filename_codec s q) = source q.
Proof. unfold filename_codec. branches; reflexivity. Qed.

Lemma source_filename_audio s q : source (filename_audio s q) = source q.
Proof. unfold filename_audio. branches; reflexivity. Qed.

Lemma source_filename_hdr s q : source (filename_hdr s q) = source q.
Proof. unfold filename_hdr. branches; reflexivity. Qed.

Lemma source_score_filename filename q :
  source (score_filename filename q) = source q.
Proof.
  unfold score_filename. cbv zeta.
  by rewrite source_filename_hdr, source_filename_audio,
    source_filename_codec, source_filename_resolution.
Qed.

Lemma source_score_attributes filename p :
  source (score_attributes filename p) = str "Unknown".
Proof.
  unfold score_attributes. destruct (probe_info p).
  - by rewrite source_score_measured.
  - by rewrite source_score_filename.
Qed.

(** What the source block does to a quality: it sets a label of the table
    and adds its points, or leaves both alone; which, the file name alone
    decides. *)
Lemma score_source_spec filename :
  exists label points,
    ((label, points) ∈ source_table \/ points = 0%Z) /\
    forall q,
      source (score_source filename q)
      = (if (points =? 0)%Z then source q else label) /\
      score (score_source filename q) = (score q + points)%Z.
Proof.
  unfold score_source. cbv zeta.
  destruct (has "remux" _).
  { exists (str "Remux"), 35%Z. split; [left; set_solver|done]. }
  destruct (has_any _ _).
  { exists (str "BluRay"), 30%Z. split; [left; set_solver|done]. }
  destruct (has_any _ _).
  { exists (str "WEB-DL"), 25%Z. split; [left; set_solver|done]. }
  destruct (has "webrip" _).
  { exists (str "WEBRip"), 20%Z. split; [left; set_solver|done]. }
  destruct (has "hdtv" _).
  { exists (str "HDTV"), 15%Z. split; [left; set_solver|done]. }
  destruct (has "dvdrip" _).
  { exists (str "DVDRip"), 10%Z. split; [left; set_solver|done]. }
  exists [], 0%Z. split; [by right|]. intros q. split; [done|]. simpl. lia.
Qed.

End Scorer.

(** C6: for every file name there are one source label and one number of
    source points, a row of the table (Remux 35, BluRay 30, WEB-DL 25,
    WEBRip 20, HDTV 15, DVDRip 10) or [Unknown] and no points, such that
    whatever the prober returns for the file, also nothing, the score has
    this label as its source, and these points on top of the points of the
    other categories. *)
Theorem C6_source_from_filename (filename : pystr) :
  exists label points,
    ((label, points) ∈ source_table \/
     (label, points) = (str "Unknown", 0%Z)) /\
    forall p : probe,
      source (get_quality_score filename p) = label /\
      score (get_quality_score filename p)
      = (score (score_attributes filename p) + points)%Z.
Proof.
  destruct (score_source_spec filename) as (label & points & Ht & H).
  destruct Ht as [Ht| ->].
  - exists label, points. split; [by left|]. intros p.
    unfold get_quality_score. destruct (H (score_attributes filename p))
      as [Hs Hp]. split; [|done]. rewrite Hs.
    assert (points <> 0%Z) as Hne.
    { unfold source_table in Ht.
      repeat (apply elem_of_cons in Ht as [[= _ ->]|Ht]; [done|]).
      by apply elem_of_nil in Ht. }
    by apply Z.eqb_neq in Hne as ->.
  - exists (str "Unknown"), 0%Z. split; [by right|]. intros p.
    unfold get_quality_score. destruct (H (score_attributes filename p))
      as [Hs Hp]. split; [|done]. rewrite Hs. simpl.
    apply source_score_attributes.
Qed.

Section HasherFacts.

Variable md5_hexdigest : list byte -> pystr.

Local Abbreviation partial_hash := (get_file_partial_hash md5_hexdigest).

Implicit Types (file : file_state) (data : list byte).

(** A file of at most twice the sample size: the digest of all it holds. *)
Lemma partial_hash_small file sample_size file_size data :
  fs_getsize file = Ok file_size -> fs_open file = Ok data ->
  (file_size <= sample_size * 2)%Z -> fs_fault file 0 = false ->
  (partial_hash file sample_size).1 = Some (md5_hexdigest data).
Proof.
  intros Hsize Hopen Hle Hf.
  unfold get_file_partial_hash, partial_hash_body.
  rewrite Hsize. cbn [mbind result_bind].
  apply Z.leb_le in Hle as ->.
  unfold open_rb. rewrite Hopen. cbn [mbind result_bind].
  unfold read_all, op_turn. cbn [h_fault h_ops]. rewrite Hf.
  cbn. by rewrite drop_0.
Qed.

Lemma read_all_ok h :
  h_fault h (h_ops h) = false ->
  read_all h
  = Ok (drop (h_pos h) (h_data h),
        Handle (h_data h) (h_pos h `max` length (h_data h)) (S (h_ops h))
               (h_fault h)).
Proof. intros H. unfold read_all, op_turn. by rewrite H. Qed.

Lemma read_ok h n :
  (0 <= n)%Z -> h_fault h (h_ops h) = false ->
  read h n
  = Ok (take (Z.to_nat n) (drop (h_pos h) (h_data h)),
        Handle (h_data h)
               (h_pos h + length (take (Z.to_nat n)
                                       (drop (h_pos h) (h_data h))))
               (S (h_ops h)) (h_fault h)).
Proof.
  intros Hn H. unfold read, op_turn. rewrite H.
  by apply Z.ltb_ge in Hn as ->.
Qed.

Lemma seek_end_ok h offset :
  (0 <= Z.of_nat (length (h_data h)) + offset)%Z ->
  h_fault h (h_ops h) = false ->
  seek_end h offset
  = Ok (Handle (h_data h)
               (Z.to_nat (Z.of_nat (length (h_data h)) + offset))
               (S (h_ops h)) (h_fault h)).
Proof.
  intros Hp H. unfold seek_end, op_turn. rewrite H.
  cbn [mbind result_bind h_data]. by apply Z.ltb_ge in Hp as ->.
Qed.

Lemma op_fault h :
  h_fault h (h_ops h) = true ->
  read_all h = Raise OSError /\
  (forall n, read h n = Raise OSError) /\
  (forall offset, seek_end h offset = Raise OSError).
Proof.
  intros H. unfold read, read_all, seek_end, op_turn. rewrite H.
  split_and!; [done| |done]. intros n. by destruct (n <? 0)%Z.
Qed.

(** A larger file: the digest of its first and last sample and the decimal
    text of its size. *)
Lemma partial_hash_large file sample_size file_size data :
  (0 <= sample_size)%Z ->
  fs_getsize file = Ok file_size -> fs_open file = Ok data ->
  Z.of_nat (length data) = file_size ->
  (sample_size * 2 < file_size)%Z ->
  (forall n, n < 3 -> fs_fault file n = false) ->
  (partial_hash file sample_size).1
  = Some (md5_hexdigest
            (take (Z.to_nat sample_size) data
             ++ drop (length data - Z.to_nat sample_size) data
             ++ encode (str_of_Z file_size))).
Proof.
  intros Hss Hsize Hopen Hlen Hlt Hf.
  unfold get_file_partial_hash, partial_hash_body.
  rewrite Hsize. cbn [mbind result_bind].
  apply Z.leb_gt in Hlt as Hlt'. rewrite Hlt'.
  unfold open_rb. rewrite Hopen. cbn [mbind result_bind].
  rewrite read_ok; [|done|apply Hf; simpl; lia].
  cbn [mbind result_bind h_data h_pos h_ops h_fault].
  rewrite seek_end_ok; [|simpl; lia|apply Hf; simpl; lia].
  cbn [mbind result_bind h_data h_pos h_ops h_fault].
  rewrite read_ok; [|done|apply Hf; simpl; lia].
  cbn [mbind result_bind h_data h_pos h_ops h_fault fst].
  unfold hexdigest, update, md5_new. cbn [app]. rewrite drop_0.
  replace (Z.to_nat (Z.of_nat (length data) + - sample_size))
    with (length data - Z.to_nat sample_size) by lia.
  rewrite (take_ge (drop _ data)); [by rewrite <- app_assoc|].
  rewrite length_drop. lia.
Qed.

(** An operation that fails: no fingerprint. *)
Lemma partial_hash_getsize_fails file sample_size e :
  fs_getsize file = Raise e -> (partial_hash file sample_size).1 = None.
Proof.
  intros H. unfold get_file_partial_hash, partial_hash_body. by rewrite H.
Qed.

Lemma partial_hash_open_fails file sample_size e :
  fs_open file = Raise e -> (partial_hash file sample_size).1 = None.
Proof.
  intros H. unfold get_file_partial_hash, partial_hash_body, open_rb.
  rewrite H. destruct (fs_getsize file) as [size|]; [|done].
  cbn [mbind result_bind]. by destruct (size <=? _)%Z.
Qed.

Lemma partial_hash_fault file sample_size file_size n :
  (0 <= sample_size)%Z ->
  fs_getsize file = Ok file_size ->
  n < handle_ops file_size sample_size -> fs_fault file n = true ->
  (partial_hash file sample_size).1 = None.
Proof.
  intros Hss Hsize Hn Hf. unfold handle_ops in Hn.
  unfold get_file_partial_hash, partial_hash_body.
  rewrite Hsize. cbn [mbind result_bind].
  destruct (fs_open file) as [data|] eqn:Hopen; unfold open_rb;
    rewrite Hopen; [|by destruct (file_size <=? _)%Z].
  cbn [mbind result_bind].
  destruct (file_size <=? sample_size * 2)%Z.
  - assert (n = 0) as -> by lia.
    by rewrite (proj1 (op_fault (Handle data 0 0 (fs_fault file)) Hf)).
  - assert ((sample_size <? 0)%Z = false) as Hneg by (apply Z.ltb_ge; lia).
    unfold read, seek_end, op_turn. rewrite Hneg.
    cbn [mbind result_bind h_data h_pos h_ops h_fault].
    destruct (fs_fault file 0) eqn:F0; [reflexivity|].
    cbn [mbind result_bind moved h_data h_pos h_ops h_fault].
    destruct (fs_fault file 1) eqn:F1; [reflexivity|].
    cbn [mbind result_bind moved h_data h_pos h_ops h_fault].
    destruct (Z.of_nat (length data) + - sample_size <? 0)%Z;
      [reflexivity|].
    cbn [mbind result_bind moved h_data h_pos h_ops h_fault].
    destruct (fs_fault file 2) eqn:F2; [reflexivity|].
    destruct n as [|[|[|n]]]; (lia || congruence).
Qed.

End HasherFacts.

(** C7: the fingerprint of a file is the digest of all its bytes when its
    size is at most twice the sample size, and else the digest of its
    first sample, its last sample and the decimal text of its size; when
    [getsize], [open] or an operation on the handle fails, the fingerprint
    is absent, and nothing is raised.  This holds for every sample size,
    so for the default of 1 MiB. *)
Theorem C7_partial_hash (md5_hexdigest : list byte -> pystr)
        (file : file_state) (sample_size : Z) :
  (0 <= sample_size)%Z ->
  (forall file_size data,
     fs_getsize file = Ok file_size -> fs_open file = Ok data ->
     Z.of_nat (length data) = file_size ->
     (forall n, fs_fault file n = false) ->
     (get_file_partial_hash md5_hexdigest file sample_size).1
     = Some (md5_hexdigest
               (if (file_size <=? sample_size * 2)%Z then data
                else take (Z.to_nat sample_size) data
                     ++ drop (length data - Z.to_nat sample_size) data
                     ++ encode (str_of_Z file_size)))) /\
  (forall e, fs_getsize file = Raise e ->
     (get_file_partial_hash md5_hexdigest file sample_size).1 = None) /\
  (forall e, fs_open file = Raise e ->
     (get_file_partial_hash md5_hexdigest file sample_size).1 = None) /\
  (forall file_size n,
     fs_getsize file = Ok file_size ->
     n < handle_ops file_size sample_size -> fs_fault file n = true ->
     (get_file_partial_hash md5_hexdigest file sample_size).1 = None).
Proof.
  intros Hss. split_and!.
  - intros file_size data Hsize Hopen Hlen Hf.
    destruct (file_size <=? sample_size * 2)%Z eqn:E.
    + apply Z.leb_le in E. by eapply partial_hash_small.
    + apply Z.leb_gt in E. by eapply partial_hash_large.
  - intros e. apply partial_hash_getsize_fails.
  - intros e. apply partial_hash_open_fails.
  - intros file_size n. by apply partial_hash_fault.
Qed.

Lemma C7_partial_hash_witness :
  (get_file_partial_hash toy_digest
     (FileState (Ok 5%Z) (Ok (encode "abcde")) (fun _ => false)) 2).1
  = Some (str "abde5").
Proof.
  destruct (C7_partial_hash toy_digest
              (FileState (Ok 5%Z) (Ok (encode "abcde")) (fun _ => false)) 2)
    as [H _]; [lia|].
  rewrite (H 5%Z (encode "abcde") eq_refl eq_refl eq_refl
             (fun _ => eq_refl)).
  vm_compute. reflexivity.
Defined.

(** With the default sample size, a file of three bytes is hashed whole,
    and an unreadable file has no fingerprint. *)
Example partial_hash_default_small :
  get_file_partial_hash toy_digest
    (FileState (Ok 3%Z) (Ok (encode "abc")) (fun _ => false))
    default_sample_size
  = (Some (str "abc"), []).
Proof. vm_compute. reflexivity. Qed.

Example partial_hash_unreadable :
  get_file_partial_hash toy_digest
    (FileState (Ok 0%Z) (Raise OSError) (fun _ => false))
    default_sample_size
  = (None, [LogWarning "Error calculating hash" OSError]).
Proof. vm_compute. reflexivity. Qed.

Section Ranking.

Context {A : Type} (key : A -> Z).
Implicit Types (x : A) (l : list A).

Lemma insert_desc_perm x l : insert_desc key x l ≡ₚ x :: l.
Proof.
  induction l as [|y l IH]; simpl; [done|].
  destruct (key x <? key y)%Z; [|done].
  rewrite IH. apply Permutation_swap.
Qed.

Lemma sorted_desc_perm l : sorted_desc key l ≡ₚ l.
Proof.
  induction l as [|x l IH]; simpl; [done|].
  by rewrite insert_desc_perm, IH.
Qed.

Lemma insert_desc_descending x l :
  descending key l -> descending key (insert_desc key x l).
Proof.
  induction l as [|y l IH]; simpl; [by intros; split|].
  intros [Hy Hl]. destruct (key x <? key y)%Z eqn:E.
  - apply Z.ltb_lt in E. simpl. split; [|by apply IH].
    rewrite insert_desc_perm. constructor; [lia|done].
  - apply Z.ltb_ge in E. simpl. split_and!; [|done|done].
    constructor; [done|]. eapply Forall_impl; [done|]. simpl. lia.
Qed.

Lemma sorted_desc_descending l : descending key (sorted_desc key l).
Proof.
  induction l as [|x l IH]; simpl; [done|]. by apply insert_desc_descending.
Qed.

Lemma insert_desc_with_key k x l :
  with_key key k (insert_desc key x l) = with_key key k (x :: l).
Proof.
  unfold with_key. induction l as [|y l IH]; simpl; [done|].
  destruct (key x <? key y)%Z eqn:E; [|done].
  apply Z.ltb_lt in E. simpl in *. rewrite IH.
  destruct (key x =? k)%Z eqn:Ex; [|done].
  apply Z.eqb_eq in Ex. by replace (key y =? k)%Z with false
    by (symmetry; apply Z.eqb_neq; lia).
Qed.

(** The sort is stable: the elements of one key keep their order. *)
Lemma sorted_desc_stable k l :
  with_key key k (sorted_desc key l) = with_key key k l.
Proof.
  induction l as [|x l IH]; simpl; [done|].
  rewrite insert_desc_with_key. unfold with_key in *. simpl. by rewrite IH.
Qed.

End Ranking.



Section Detector.

Implicit Types (h : heap) (d : index) (r : ref) (st : detect_state)
         (g : list ref).

Lemma valid_index_mono n m d : n <= m -> valid_index n d -> valid_index m d.
Proof.
  intros Hle Hd. eapply Forall_impl; [exact Hd|]. intros item Hi.
  eapply Forall_impl; [exact Hi|]. simpl. lia.
Qed.

Lemma index_append_valid n key r d :
  r < n -> valid_index n d -> valid_index n (index_append key r d).
Proof.
  intros Hr. induction d as [|[k rs] d IH]; simpl; intros Hd.
  - repeat constructor. done.
  - inversion Hd as [|? ? Hrs Hd']; subst. destruct (bool_decide (k = key)).
    + constructor; [|done]. simpl in *. apply Forall_app. split; [done|].
      by constructor.
    + constructor; [done|]. by apply IH.
Qed.

(** After the scan, the two indices point into the heap. *)
Lemma scan_folder_valid sc f :
  valid_index (length (scan_heap sc)) (title_lookup sc) ->
  valid_index (length (scan_heap sc)) (hash_lookup sc) ->
  valid_index (length (scan_heap (scan_folder sc f)))
              (title_lookup (scan_folder sc f)) /\
  valid_index (length (scan_heap (scan_folder sc f)))
              (hash_lookup (scan_folder sc f)).
Proof.
  intros Ht Hh. unfold scan_folder.
  destruct (largest (folder_videos f)) as [v|]; [|done].
  cbv zeta. cbn [scan_heap title_lookup hash_lookup].
  rewrite length_app. cbn [length].
  assert (length (scan_heap sc) < length (scan_heap sc) + 1) as Hlt by lia.
  assert (length (scan_heap sc) <= length (scan_heap sc) + 1) as Hle by lia.
  split.
  - apply index_append_valid; [done|]. by eapply valid_index_mono.
  - destruct (video_hash v) as [[|c hs]|];
      [by eapply valid_index_mono| |by eapply valid_index_mono].
    apply index_append_valid; [done|]. by eapply valid_index_mono.
Qed.

Lemma scan_valid dirs :
  valid_index (length (scan_heap (scan dirs))) (title_lookup (scan dirs)) /\
  valid_index (length (scan_heap (scan dirs))) (hash_lookup (scan dirs)).
Proof.
  unfold scan. generalize (movie_folders dirs). intros fs.
  assert (valid_index (length (scan_heap (ScanState [] [] [])))
                      (title_lookup (ScanState [] [] [])) /\
          valid_index (length (scan_heap (ScanState [] [] [])))
                      (hash_lookup (ScanState [] [] []))) as H0
    by (split; constructor).
  revert H0. generalize (ScanState [] [] []).
  induction fs as [|f fs IH]; intros sc [Ht Hh]; simpl; [done|].
  apply IH. by apply scan_folder_valid.
Qed.

Lemma tag_length t r h : length (tag t r h) = length h.
Proof. apply length_alter. Qed.

Lemma mark_exact_heap st rs :
  length (det_heap (foldl mark_exact st rs)) = length (det_heap st) /\
  duplicates (foldl mark_exact st rs) = duplicates st.
Proof.
  revert st. induction rs as [|r rs IH]; intros st; simpl; [done|].
  destruct (IH (mark_exact st r)) as [-> ->]. simpl.
  by rewrite tag_length.
Qed.

Lemma hash_group_ok n st item :
  valid_refs n item.2 -> groups_ok n st -> groups_ok n (hash_group st item).
Proof.
  intros Hv [Hn Hd]. unfold hash_group. cbv zeta.
  destruct (1 <? length item.2) eqn:E; [|done].
  apply Nat.ltb_lt in E.
  destruct (mark_exact_heap st item.2) as [Hl Hdup].
  split; simpl; [congruence|]. rewrite Hdup.
  apply Forall_app. split; [done|]. by repeat constructor.
Qed.

Lemma hash_phase_ok n st d :
  valid_index n d -> groups_ok n st -> groups_ok n (foldl hash_group st d).
Proof.
  revert st. induction d as [|item d IH]; intros st Hd Hst; simpl; [done|].
  inversion Hd; subst. apply IH; [done|]. by apply hash_group_ok.
Qed.

Lemma tag_title_length u h r h' :
  tag_title u h r = Ok h' -> length h' = length h.
Proof.
  unfold tag_title. cbv zeta.
  destruct (similar_size _ _ _) as [[]|]; simpl; intros [= <-];
    by rewrite ?tag_length.
Qed.

Lemma for_each_tag_title_length u rs : forall h h',
  for_each (tag_title u) h rs = Ok h' -> length h' = length h.
Proof.
  induction rs as [|r rs IH]; intros h h'; simpl; [by intros [= <-]|].
  destruct (tag_title u h r) as [h1|] eqn:E; simpl; [|done].
  intros H. apply IH in H. apply tag_title_length in E. congruence.
Qed.

Lemma filter_valid n (f : ref -> bool) g :
  valid_refs n g -> valid_refs n (List.filter f g).
Proof.
  unfold valid_refs. rewrite !Forall_forall. intros H r Hr.
  apply H. apply list_elem_of_In in Hr. apply filter_In in Hr as [Hr _].
  by apply list_elem_of_In.
Qed.

Lemma title_group_ok n st item st' :
  valid_refs n item.2 -> groups_ok n st ->
  title_group st item = Ok st' -> groups_ok n st'.
Proof.
  intros Hv [Hn Hd]. unfold title_group. cbv zeta.
  destruct (1 <? length _) eqn:E; [|by intros [= <-]].
  apply Nat.ltb_lt in E.
  destruct (for_each _ _ _) as [h|] eqn:Eh; simpl; [|done].
  intros [= <-]. apply for_each_tag_title_length in Eh.
  split; simpl; [congruence|].
  apply Forall_app. split; [done|]. repeat constructor; [done|].
  by apply filter_valid.
Qed.

Lemma title_phase_ok n d : forall st st',
  valid_index n d -> groups_ok n st ->
  for_each title_group st d = Ok st' -> groups_ok n st'.
Proof.
  induction d as [|item d IH]; intros st st' Hd Hst; simpl;
    [by intros [= <-]|].
  inversion Hd; subst.
  destruct (title_group st item) as [st1|] eqn:E; simpl; [|done].
  apply IH; [done|]. by eapply title_group_ok.
Qed.

(** The groups the detector finds are genuine. *)
Lemma find_groups_ok sc groups h :
  valid_index (length (scan_heap sc)) (title_lookup sc) ->
  valid_index (length (scan_heap sc)) (hash_lookup sc) ->
  find_groups sc = Ok (groups, h) ->
  Forall (genuine (length h)) groups.
Proof.
  intros Ht Hh. unfold find_groups. cbv zeta.
  destruct (for_each title_group _ _) as [st|] eqn:E; simpl; [|done].
  intros [= <- <-].
  eapply title_phase_ok in E as [Hn Hd]; [by rewrite Hn|done|].
  apply hash_phase_ok; [done|]. by split; [|constructor].
Qed.

Lemma deref_length h g : valid_refs (length h) g -> length (deref h g) = length g.
Proof.
  unfold deref. induction 1 as [|r g Hr _ IH]; [done|].
  destruct (lookup_lt_is_Some_2 h r Hr) as [e He].
  cbn [omap list_omap]. rewrite He. simpl. by rewrite IH.
Qed.

End Detector.

(** C8: neither detector returns a group of fewer than two members. *)
Theorem C8_no_singleton_group (dirs : list folder) :
  Forall (fun group => 2 <= length group)
         (find_duplicate_movies_enhanced dirs).1 /\
  Forall (fun group => 2 <= length group) (Plain.find_duplicate_movies dirs).
Proof.
  split.
  - unfold find_duplicate_movies_enhanced. cbv zeta.
    destruct (movie_folders dirs) as [|f fs] eqn:Ef; [constructor|].
    destruct (find_groups (scan dirs)) as [[groups h]|] eqn:E;
      [|constructor].
    destruct (scan_valid dirs) as [Ht Hh].
    pose proof (find_groups_ok _ _ _ Ht Hh E) as Hg. simpl.
    apply Forall_fmap. eapply Forall_impl; [exact Hg|].
    intros g [Hlen Hv]. simpl. rewrite deref_length; [lia|done].
  - unfold Plain.find_duplicate_movies. cbv zeta.
    apply Forall_forall. intros g Hg. apply list_elem_of_In in Hg.
    apply filter_In in Hg as [_ Hg]. apply Nat.ltb_lt in Hg. lia.
Qed.

Section Abort.

Implicit Types (h : heap) (d : index) (r : ref) (st : detect_state)
         (g u : list ref).

Lemma tag_same t r h : same_entries (tag t r h) h.
Proof.
  unfold same_entries, tag. revert r.
  induction h as [|e h IH]; intros [|r]; simpl; [done..| |].
  - by destruct e.
  - f_equal. apply IH.
Qed.

Lemma same_entries_trans h1 h2 h3 :
  same_entries h1 h2 -> same_entries h2 h3 -> same_entries h1 h3.
Proof. unfold same_entries. congruence. Qed.

Lemma same_lookup h h' r :
  same_entries h h' -> untagged <$> h !! r = untagged <$> h' !! r.
Proof. intros H. by rewrite <- !list_lookup_fmap, H. Qed.

Lemma same_size_of h h' r : same_entries h h' -> size_of h r = size_of h' r.
Proof.
  intros H. unfold size_of. pose proof (same_lookup _ _ r H) as E.
  by destruct (h !! r) as [e|], (h' !! r) as [e'|]; simplify_eq/=.
Qed.

Lemma same_total_size h h' u :
  same_entries h h' -> total_size h u = total_size h' u.
Proof.
  intros H. unfold total_size. generalize 0%Z.
  induction u as [|r u IH]; intros acc; simpl; [done|].
  by rewrite IH, (same_size_of h h' r H).
Qed.

Lemma same_is_processed st st' r :
  same_entries (det_heap st) (det_heap st') ->
  processed_paths st = processed_paths st' ->
  is_processed st r = is_processed st' r.
Proof.
  intros H Hp. unfold is_processed. rewrite Hp.
  pose proof (same_lookup _ _ r H) as E.
  destruct (det_heap st !! r) as [e|], (det_heap st' !! r) as [e'|];
    simplify_eq/=; try done.
  by destruct e, e'; simplify_eq/=.
Qed.

Lemma mark_exact_same st rs :
  same_entries (det_heap (foldl mark_exact st rs)) (det_heap st).
Proof.
  revert st. induction rs as [|r rs IH]; intros st; simpl; [done|].
  eapply same_entries_trans; [apply IH|]. apply tag_same.
Qed.

Lemma hash_phase_same st d :
  same_entries (det_heap (foldl hash_group st d)) (det_heap st).
Proof.
  revert st. induction d as [|item d IH]; intros st; simpl; [done|].
  eapply same_entries_trans; [apply IH|]. unfold hash_group. cbv zeta.
  destruct (1 <? length item.2); [|done]. apply mark_exact_same.
Qed.

Lemma tag_title_same u h r h' :
  tag_title u h r = Ok h' -> same_entries h' h.
Proof.
  unfold tag_title. cbv zeta.
  destruct (similar_size _ _ _) as [[]|]; simpl; intros [= <-].
  - eapply same_entries_trans; apply tag_same.
  - apply tag_same.
Qed.

Lemma for_each_tag_title_same u rs : forall h h',
  for_each (tag_title u) h rs = Ok h' -> same_entries h' h.
Proof.
  induction rs as [|r rs IH]; intros h h'; simpl; [by intros [= <-]|].
  destruct (tag_title u h r) as [h1|] eqn:E; simpl; [|done].
  intros H. eapply same_entries_trans; [by apply IH|].
  by eapply tag_title_same.
Qed.

(** A round of the title pass changes match types, and nothing else that
    the pass reads. *)
Lemma title_group_same st item st' :
  title_group st item = Ok st' ->
  same_entries (det_heap st') (det_heap st) /\
  processed_paths st' = processed_paths st.
Proof.
  unfold title_group. cbv zeta.
  destruct (1 <? length _); [|by intros [= <-]].
  destruct (for_each _ _ _) as [h|] eqn:Eh; simpl; [|done].
  intros [= <-]. split; [|done]. by eapply for_each_tag_title_same.
Qed.

(** The only error of the title pass is the division by zero. *)
Lemma similar_size_raise h u r e :
  similar_size h u r = Raise e -> e = ZeroDivisionError.
Proof.
  unfold similar_size, int_true_div, float_div.
  repeat (match goal with
          | |- context [if ?b then _ else _] => destruct b
          end; simpl; try congruence).
Qed.

Lemma tag_title_raise u h r e :
  tag_title u h r = Raise e -> e = ZeroDivisionError.
Proof.
  unfold tag_title. cbv zeta.
  destruct (similar_size _ _ _) as [b|e'] eqn:E; simpl; [done|].
  intros [= <-]. by eapply similar_size_raise.
Qed.

Lemma for_each_tag_title_raise u rs : forall h e,
  for_each (tag_title u) h rs = Raise e -> e = ZeroDivisionError.
Proof.
  induction rs as [|r rs IH]; intros h e; simpl; [done|].
  destruct (tag_title u h r) as [h1|e'] eqn:E; simpl; [by apply IH|].
  intros [= <-]. by eapply tag_title_raise.
Qed.

Lemma title_group_raise st item e :
  title_group st item = Raise e -> e = ZeroDivisionError.
Proof.
  unfold title_group. cbv zeta. destruct (1 <? length _); [|done].
  destruct (for_each _ _ _) as [h|e'] eqn:Eh; simpl; [done|].
  intros [= <-]. by eapply for_each_tag_title_raise.
Qed.

Lemma total_size_zero h u :
  Forall (fun r => size_of h r = 0%Z) u -> total_size h u = 0%Z.
Proof.
  unfold total_size. induction 1 as [|r u Hr _ IH]; simpl; [done|].
  by rewrite Hr.
Qed.

(** When the sizes of a group sum to zero, its first round divides by
    zero. *)
Lemma similar_size_zero h u r :
  u <> [] -> total_size h u = 0%Z ->
  similar_size h u r = Raise ZeroDivisionError.
Proof.
  intros Hu H0. unfold similar_size, int_true_div. rewrite H0.
  destruct u as [|r0 u]; [done|]. reflexivity.
Qed.

Lemma tag_title_zero h u r :
  u <> [] -> total_size h u = 0%Z ->
  tag_title u h r = Raise ZeroDivisionError.
Proof.
  intros Hu H0. unfold tag_title. cbv zeta.
  rewrite similar_size_zero; [done|done|].
  by rewrite (same_total_size _ h) by apply tag_same.
Qed.

(** the unprocessed entries of a list are the same in two states that
    differ in match types only *)
Lemma unprocessed_of_same st st' rs :
  same_entries (det_heap st) (det_heap st') ->
  processed_paths st = processed_paths st' ->
  unprocessed_of st rs = unprocessed_of st' rs.
Proof.
  intros Hs Hp. unfold unprocessed_of. apply filter_ext. intros r.
  f_equal. by apply same_is_processed.
Qed.

Lemma title_group_zero st item :
  1 < length (unprocessed_of st item.2) ->
  Forall (fun r => size_of (det_heap st) r = 0%Z)
         (unprocessed_of st item.2) ->
  title_group st item = Raise ZeroDivisionError.
Proof.
  intros Hlen H0. unfold title_group. cbv zeta.
  apply Nat.ltb_lt in Hlen as Hlen'. rewrite Hlen'.
  destruct (unprocessed_of st item.2) as [|r u'] eqn:Eu;
    [simpl in Hlen; lia|].
  cbn [for_each]. rewrite tag_title_zero; [done|done|].
  by apply total_size_zero.
Qed.

Lemma title_phase_zero sc key entries d : forall st,
  same_entries (det_heap st) (scan_heap sc) ->
  processed_paths st = processed_paths (settled sc) ->
  (key, entries) ∈ d ->
  1 < length (unsettled sc entries) ->
  Forall (fun r => size_of (scan_heap sc) r = 0%Z) (unsettled sc entries) ->
  for_each title_group st d = Raise ZeroDivisionError.
Proof.
  induction d as [|item d IH]; intros st Hs Hp Hin Hlen H0;
    [by apply elem_of_nil in Hin|].
  assert (forall rs, unprocessed_of st rs = unsettled sc rs) as Hu.
  { intros rs. apply unprocessed_of_same; [|done].
    eapply same_entries_trans; [done|]. unfold same_entries. symmetry.
    apply hash_phase_same. }
  cbn [for_each].
  destruct (title_group st item) as [st1|e] eqn:E; simpl.
  - apply elem_of_cons in Hin as [<-|Hin].
    + rewrite title_group_zero in E; [done| |]; simpl; rewrite Hu;
        [done|].
      eapply Forall_impl; [exact H0|]. intros r <-. by apply same_size_of.
    + apply title_group_same in E as [Es Ep].
      apply IH; [|congruence|done..].
      by eapply same_entries_trans.
  - by apply title_group_raise in E as ->.
Qed.

End Abort.

(** C9: when the entries of one title key that the hash pass left
    unsettled are more than one and all of size zero, the similar-size
    check divides by zero; the detector logs the error and returns the
    empty list, whatever groups it had found before. *)
Theorem C9_zero_sizes_abort (dirs : list folder) (key : pystr)
        (entries : list ref) :
  (key, entries) ∈ title_lookup (scan dirs) ->
  1 < length (unsettled (scan dirs) entries) ->
  Forall (fun r => size_of (scan_heap (scan dirs)) r = 0%Z)
         (unsettled (scan dirs) entries) ->
  find_duplicate_movies_enhanced dirs = aborted ZeroDivisionError.
Proof.
  intros Hin Hlen H0. unfold find_duplicate_movies_enhanced. cbv zeta.
  destruct (movie_folders dirs) as [|f fs] eqn:Ef.
  { unfold scan in Hin. rewrite Ef in Hin. by apply elem_of_nil in Hin. }
  unfold find_groups. cbv zeta.
  rewrite (title_phase_zero (scan dirs) key entries); try done.
  apply hash_phase_same.
Qed.

Lemma C9_zero_sizes_abort_witness :
  find_duplicate_movies_enhanced
    [movie "Alien (1979)" 500 (Some "cc");
     movie "Alien - Directors Cut (1979)" 500 (Some "cc");
     movie "Zero (2000)" 0 None; movie "Zero [2000]" 0 None]
  = aborted ZeroDivisionError.
Proof.
  apply (C9_zero_sizes_abort _ (str "zero|2000") [2; 3]).
  - vm_compute. repeat constructor.
  - vm_compute. lia.
  - vm_compute. repeat constructor.
Defined.

Section ExactHash.

Implicit Types (h : heap) (d : index) (r : ref) (st : detect_state)
         (g rs : list ref) (t : match_tag).

Lemma tag_has_tag t r h : r < length h -> has_tag (tag t r h) r t.
Proof.
  intros Hr. destruct (lookup_lt_is_Some_2 h r Hr) as [e He].
  exists (append_tag t e). split.
  - unfold tag. by rewrite list_lookup_alter_eq, He.
  - simpl. apply elem_of_app. right. apply list_elem_of_here.
Qed.

Lemma tag_keeps_tag t' r' h r t : has_tag h r t -> has_tag (tag t' r' h) r t.
Proof.
  intros (e & He & Ht). unfold has_tag, tag.
  destruct (decide (r' = r)) as [->|Hne].
  - exists (append_tag t' e). rewrite list_lookup_alter_eq, He. split; [done|].
    simpl. apply elem_of_app. by left.
  - exists e. by rewrite list_lookup_alter_ne.
Qed.

Lemma mark_exact_tags rs : forall st,
  valid_refs (length (det_heap st)) rs ->
  (forall r, r ∈ rs -> has_tag (det_heap (foldl mark_exact st rs)) r ExactHash)
  /\ (forall r t, has_tag (det_heap st) r t ->
                  has_tag (det_heap (foldl mark_exact st rs)) r t).
Proof.
  induction rs as [|r0 rs IH]; intros st Hv; simpl.
  - split; [by intros r ?%elem_of_nil|done].
  - inversion Hv as [|? ? Hr0 Hv']; subst.
    destruct (IH (mark_exact st r0)) as [IH1 IH2].
    { simpl. by rewrite tag_length. }
    split.
    + intros r [->|Hr]%elem_of_cons; [|by apply IH1].
      apply IH2. simpl. by apply tag_has_tag.
    + intros r t Ht. apply IH2. simpl. by apply tag_keeps_tag.
Qed.

Lemma hash_group_keeps st item :
  valid_refs (length (det_heap st)) item.2 ->
  (forall g, g ∈ duplicates st -> g ∈ duplicates (hash_group st item)) /\
  (forall r t, has_tag (det_heap st) r t ->
               has_tag (det_heap (hash_group st item)) r t) /\
  (1 < length item.2 ->
   item.2 ∈ duplicates (hash_group st item) /\
   forall r, r ∈ item.2 -> has_tag (det_heap (hash_group st item)) r ExactHash).
Proof.
  intros Hv. unfold hash_group. cbv zeta.
  destruct (mark_exact_tags item.2 st Hv) as [H1 H2].
  destruct (mark_exact_heap st item.2) as [_ Hd].
  destruct (1 <? length item.2) eqn:E; simpl.
  - rewrite Hd. split_and!; [|done|].
    + intros g Hg. apply elem_of_app. by left.
    + intros _. split; [|done]. apply elem_of_app. right.
      apply list_elem_of_here.
  - apply Nat.ltb_ge in E. split_and!; [done..|lia].
Qed.

Lemma hash_phase_groups d : forall st item,
  valid_index (length (det_heap st)) d ->
  item ∈ d -> 1 < length item.2 ->
  item.2 ∈ duplicates (foldl hash_group st d) /\
  forall r, r ∈ item.2 -> has_tag (det_heap (foldl hash_group st d)) r ExactHash.
Proof.
  assert (forall d st, valid_index (length (det_heap st)) d ->
            (forall g, g ∈ duplicates st ->
                       g ∈ duplicates (foldl hash_group st d)) /\
            (forall r t, has_tag (det_heap st) r t ->
                         has_tag (det_heap (foldl hash_group st d)) r t))
    as Hkeep.
  { clear. induction d as [|item d IH]; intros st Hd; simpl; [done|].
    inversion Hd as [|? ? Hi Hd']; subst.
    destruct (hash_group_keeps st item Hi) as (K1 & K2 & _).
    destruct (IH (hash_group st item)) as [I1 I2].
    { unfold hash_group. cbv zeta. destruct (1 <? _); [|done]. simpl.
      by rewrite (proj1 (mark_exact_heap st item.2)). }
    split; eauto. }
  induction d as [|item' d IH]; intros st item Hd Hin Hlen;
    [by apply elem_of_nil in Hin|].
  inversion Hd as [|? ? Hi Hd']; subst. simpl.
  assert (valid_index (length (det_heap (hash_group st item'))) d) as Hd''.
  { unfold hash_group. cbv zeta. destruct (1 <? _); [|done]. simpl.
    by rewrite (proj1 (mark_exact_heap st item'.2)). }
  apply elem_of_cons in Hin as [->|Hin]; [|by apply IH].
  destruct (hash_group_keeps st item' Hi) as (_ & _ & K3).
  destruct (K3 Hlen) as [G T].
  destruct (Hkeep d _ Hd'') as [I1 I2]. split; eauto.
Qed.

Lemma tag_title_keeps u h r0 h' r t :
  tag_title u h r0 = Ok h' -> has_tag h r t -> has_tag h' r t.
Proof.
  unfold tag_title. cbv zeta.
  destruct (similar_size _ _ _) as [[]|]; simpl; intros [= <-] Ht;
    auto using tag_keeps_tag.
Qed.

Lemma for_each_tag_title_keeps u rs r t : forall h h',
  for_each (tag_title u) h rs = Ok h' -> has_tag h r t -> has_tag h' r t.
Proof.
  induction rs as [|r0 rs IH]; intros h h'; simpl; [by intros [= <-]|].
  destruct (tag_title u h r0) as [h1|] eqn:E; simpl; [|done].
  intros H Ht. eapply IH; [done|]. by eapply tag_title_keeps.
Qed.

Lemma title_group_keeps st item st' :
  title_group st item = Ok st' ->
  (forall g, g ∈ duplicates st -> g ∈ duplicates st') /\
  (forall r t, has_tag (det_heap st) r t -> has_tag (det_heap st') r t).
Proof.
  unfold title_group. cbv zeta.
  destruct (1 <? length _); [|by intros [= <-]].
  destruct (for_each _ _ _) as [h|] eqn:Eh; simpl; [|done].
  intros [= <-]. simpl. split.
  - intros g Hg. apply elem_of_app. by left.
  - intros r t. by eapply for_each_tag_title_keeps.
Qed.

Lemma title_phase_keeps d : forall st st',
  for_each title_group st d = Ok st' ->
  (forall g, g ∈ duplicates st -> g ∈ duplicates st') /\
  (forall r t, has_tag (det_heap st) r t -> has_tag (det_heap st') r t).
Proof.
  induction d as [|item d IH]; intros st st'; simpl; [by intros [= <-]|].
  destruct (title_group st item) as [st1|] eqn:E; simpl; [|done].
  intros H. apply IH in H as [H1 H2].
  apply title_group_keeps in E as [E1 E2]. split; eauto.
Qed.

Lemma index_append_new key r d : in_index (index_append key r d) key r.
Proof.
  unfold in_index. induction d as [|[k rs] d IH]; simpl.
  - exists [r]. split; apply list_elem_of_here.
  - case_bool_decide as Hk.
    + subst. exists (rs ++ [r]). split; [apply list_elem_of_here|].
      apply elem_of_app. right. apply list_elem_of_here.
    + destruct IH as (rs' & ? & ?). exists rs'.
      split; [by apply list_elem_of_further|done].
Qed.

Lemma index_append_old key r d k r' :
  in_index d k r' -> in_index (index_append key r d) k r'.
Proof.
  unfold in_index. intros (rs' & Hin & Hr').
  induction d as [|[k0 rs] d IH]; simpl; [by apply elem_of_nil in Hin|].
  apply elem_of_cons in Hin as [Heq|Hin].
  - injection Heq as -> ->. case_bool_decide.
    + exists (rs ++ [r]). split; [apply list_elem_of_here|].
      apply elem_of_app. by left.
    + exists rs. split; [apply list_elem_of_here|done].
  - case_bool_decide.
    + exists rs'. split; [by apply list_elem_of_further|done].
    + destruct (IH Hin) as (rs'' & ? & ?). exists rs''.
      split; [by apply list_elem_of_further|done].
Qed.

Lemma index_append_key_in key r d k :
  k ∈ (index_append key r d).*1 -> k = key \/ k ∈ d.*1.
Proof.
  induction d as [|[k0 rs] d IH]; simpl.
  - intros [->|Hin]%elem_of_cons; [by left|by apply elem_of_nil in Hin].
  - case_bool_decide; simpl; [by right|].
    intros [->|Hin]%elem_of_cons; [right; apply list_elem_of_here|].
    destruct (IH Hin) as [->|?]; [by left|].
    right. by apply list_elem_of_further.
Qed.

Lemma index_append_keys key r d :
  NoDup d.*1 -> NoDup (index_append key r d).*1.
Proof.
  induction d as [|[k0 rs] d IH]; simpl; intros Hd.
  - apply NoDup_singleton.
  - apply NoDup_cons in Hd as [Hk0 Hd]. case_bool_decide as E; simpl.
    + by apply NoDup_cons.
    + apply NoDup_cons. split; [|by apply IH].
      intros [->|?]%index_append_key_in; done.
Qed.

Lemma index_same_key d k rs1 rs2 :
  NoDup d.*1 -> (k, rs1) ∈ d -> (k, rs2) ∈ d -> rs1 = rs2.
Proof.
  induction d as [|[k0 rs] d IH]; simpl; intros Hd H1 H2;
    [by apply elem_of_nil in H1|].
  apply NoDup_cons in Hd as [Hk0 Hd].
  apply elem_of_cons in H1 as [E1|H1];
    apply elem_of_cons in H2 as [E2|H2]; simplify_eq; try done.
  - destruct Hk0. by apply (list_elem_of_fmap_2 fst) in H2.
  - destruct Hk0. by apply (list_elem_of_fmap_2 fst) in H1.
  - by apply IH.
Qed.

(** After the scan, the hash index files every entry that has a
    fingerprint under that fingerprint, once per fingerprint. *)
Lemma scan_hash_index dirs :
  NoDup (hash_lookup (scan dirs)).*1 /\
  forall r e c fp,
    scan_heap (scan dirs) !! r = Some e -> file_hash e = Some (c :: fp) ->
    in_index (hash_lookup (scan dirs)) (c :: fp) r.
Proof.
  unfold scan. generalize (movie_folders dirs). intros fs.
  assert (NoDup (hash_lookup (ScanState [] [] [])).*1 /\
          forall r e c fp,
            scan_heap (ScanState [] [] []) !! r = Some e ->
            file_hash e = Some (c :: fp) ->
            in_index (hash_lookup (ScanState [] [] [])) (c :: fp) r) as H0.
  { split; [constructor|]. intros r e c fp Hr. by destruct r. }
  revert H0. generalize (ScanState [] [] []).
  induction fs as [|f fs IH]; intros sc [Hnd Hin]; simpl; [done|].
  apply IH. unfold scan_folder.
  destruct (largest (folder_videos f)) as [v|]; [|done].
  cbv zeta. cbn [scan_heap hash_lookup]. split.
  - destruct (video_hash v) as [[|c hs]|]; try done.
    by apply index_append_keys.
  - intros r e c fp Hr He.
    apply lookup_app_Some in Hr as [Hr|[Hlen Hr]].
    + specialize (Hin r e c fp Hr He).
      destruct (video_hash v) as [[|c' hs]|]; try done.
      by apply index_append_old.
    + apply list_lookup_singleton_Some in Hr as [Hr <-]. simpl in He.
      rewrite He. assert (r = length (scan_heap sc)) as -> by lia.
      apply index_append_new.
Qed.

(** Where the detector is not aborted, C4 holds: two entries of one
    fingerprint are in one group it returns, and both are tagged
    [ExactHash]. *)
Lemma exact_hash_grouped dirs groups h r1 r2 e1 e2 c fp :
  find_groups (scan dirs) = Ok (groups, h) ->
  scan_heap (scan dirs) !! r1 = Some e1 ->
  scan_heap (scan dirs) !! r2 = Some e2 -> r1 <> r2 ->
  file_hash e1 = Some (c :: fp) -> file_hash e2 = Some (c :: fp) ->
  exists g, g ∈ groups /\ r1 ∈ g /\ r2 ∈ g /\
            has_tag h r1 ExactHash /\ has_tag h r2 ExactHash.
Proof.
  intros Hfind H1 H2 Hne F1 F2.
  destruct (scan_hash_index dirs) as [Hnd Hidx].
  destruct (Hidx _ _ _ _ H1 F1) as (rs & Hrs & Hr1).
  destruct (Hidx _ _ _ _ H2 F2) as (rs' & Hrs' & Hr2).
  rewrite <- (index_same_key _ _ _ _ Hnd Hrs Hrs') in Hr2. clear rs' Hrs'.
  assert (1 < length rs) as Hlen.
  { destruct rs as [|a [|b rs]]; simpl; [|exfalso|lia].
    - by apply elem_of_nil in Hr1.
    - apply list_elem_of_singleton in Hr1, Hr2. congruence. }
  destruct (scan_valid dirs) as [_ Hvh].
  unfold find_groups in Hfind. cbv zeta in Hfind.
  destruct (for_each title_group _ _) as [st|] eqn:E; simpl in Hfind;
    [|done].
  injection Hfind as <- <-.
  destruct (hash_phase_groups (hash_lookup (scan dirs))
              (DetectState (scan_heap (scan dirs)) ∅ []) (c :: fp, rs))
    as [G T]; [done..|].
  apply title_phase_keeps in E as [K1 K2].
  exists rs. split_and!; auto.
Qed.

End ExactHash.

Section TitleMatch.

Implicit Types (h : heap) (d : index) (r : ref) (st : detect_state)
         (g rs u : list ref) (t : match_tag).

Lemma tags_tag_eq t r h : r < length h -> tags (tag t r h) r = tags h r ++ [t].
Proof.
  intros Hr. destruct (lookup_lt_is_Some_2 h r Hr) as [e He].
  unfold tags, tag. by rewrite list_lookup_alter_eq, He.
Qed.

Lemma tags_tag_ne t r h r' : r <> r' -> tags (tag t r h) r' = tags h r'.
Proof. intros Hne. unfold tags, tag. by rewrite list_lookup_alter_ne. Qed.

Lemma similar_size_same h h' u r :
  same_entries h h' -> similar_size h u r = similar_size h' u r.
Proof.
  intros H. unfold similar_size.
  by rewrite (same_total_size h h' u H), (same_size_of h h' r H).
Qed.

Lemma title_tags_same h h' u r :
  same_entries h h' -> title_tags h u r = title_tags h' u r.
Proof. intros H. unfold title_tags. by rewrite (similar_size_same h h'). Qed.

(** One round of the title pass appends to its entry, and to no other. *)
Lemma tag_title_tags u h r h' :
  r < length h -> tag_title u h r = Ok h' ->
  tags h' r = tags h r ++ title_tags h u r /\
  forall r', r <> r' -> tags h' r' = tags h r'.
Proof.
  intros Hr. unfold tag_title, title_tags. cbv zeta.
  rewrite (similar_size_same (tag TitleMatch r h) h) by apply tag_same.
  destruct (similar_size h u r) as [[]|]; simpl; intros [= <-].
  - split.
    + rewrite !tags_tag_eq by (by rewrite ?tag_length).
      by rewrite <- app_assoc.
    + intros r' Hne. by rewrite !tags_tag_ne.
  - split; [by rewrite tags_tag_eq|]. intros r' Hne. by rewrite tags_tag_ne.
Qed.

Lemma for_each_tag_title_tags u rs : forall h h',
  NoDup rs -> valid_refs (length h) rs ->
  for_each (tag_title u) h rs = Ok h' ->
  (forall r, r ∈ rs -> tags h' r = tags h r ++ title_tags h u r) /\
  (forall r, r ∉ rs -> tags h' r = tags h r).
Proof.
  induction rs as [|r0 rs IH]; intros h h' Hnd Hv; simpl.
  - intros [= <-]. split; [by intros r ?%elem_of_nil|done].
  - apply NoDup_cons in Hnd as [Hr0 Hnd].
    inversion Hv as [|? ? Hlt Hv']; subst.
    destruct (tag_title u h r0) as [h1|] eqn:E; simpl; [|done].
    intros H. pose proof (tag_title_length _ _ _ _ E) as Hlen.
    pose proof (tag_title_same _ _ _ _ E) as Hsame.
    apply tag_title_tags in E as [E1 E2]; [|done].
    apply IH in H as [H1 H2]; [|done|by rewrite Hlen].
    split.
    + intros r [->|Hr]%elem_of_cons.
      * by rewrite H2, E1.
      * rewrite H1 by done. rewrite (title_tags_same h1 h) by done.
        rewrite E2; [done|]. by intros ->.
    + intros r Hr. apply not_elem_of_cons in Hr as [Hne Hr].
      rewrite H2 by done. by apply E2.
Qed.

Lemma NoDup_filter_bool (f : ref -> bool) rs :
  NoDup rs -> NoDup (List.filter f rs).
Proof.
  induction 1 as [|r rs Hr _ IH]; simpl; [constructor|].
  destruct (f r); [|done]. constructor; [|done].
  intros Hin. apply Hr. apply list_elem_of_In in Hin.
  apply filter_In in Hin as [Hin _]. by apply list_elem_of_In.
Qed.

Lemma elem_of_filter_bool (f : ref -> bool) rs r :
  r ∈ List.filter f rs -> r ∈ rs.
Proof.
  intros Hin. apply list_elem_of_In in Hin.
  apply filter_In in Hin as [Hin _]. by apply list_elem_of_In.
Qed.

(** One round of the outer loop: a group of more than one unsettled entry
    is added, each of its entries gets its title tags, and the entries
    outside the index item keep theirs. *)
Lemma title_group_tags st item st' :
  NoDup item.2 -> valid_refs (length (det_heap st)) item.2 ->
  title_group st item = Ok st' ->
  (1 < length (unprocessed_of st item.2) ->
   unprocessed_of st item.2 ∈ duplicates st' /\
   forall r, r ∈ unprocessed_of st item.2 ->
     tags (det_heap st') r
     = tags (det_heap st) r
       ++ title_tags (det_heap st) (unprocessed_of st item.2) r) /\
  (forall r, r ∉ item.2 -> tags (det_heap st') r = tags (det_heap st) r).
Proof.
  intros Hnd Hv. unfold title_group. cbv zeta.
  destruct (1 <? length _) eqn:Elen.
  - destruct (for_each _ _ _) as [h|] eqn:Eh; simpl; [|done].
    intros [= <-]. simpl.
    apply for_each_tag_title_tags in Eh as [H1 H2];
      [|by apply NoDup_filter_bool|by apply filter_valid].
    split.
    + intros _. split; [|done]. apply elem_of_app. right.
      apply list_elem_of_here.
    + intros r Hr. apply H2. intros Hin. apply Hr.
      by eapply elem_of_filter_bool.
  - intros [= <-]. apply Nat.ltb_ge in Elen. split; [lia|done].
Qed.

Lemma title_group_length st item st' :
  title_group st item = Ok st' ->
  length (det_heap st') = length (det_heap st).
Proof.
  unfold title_group. cbv zeta.
  destruct (1 <? length _); [|by intros [= <-]].
  destruct (for_each _ _ _) as [h|] eqn:Eh; simpl; [|done].
  intros [= <-]. by apply for_each_tag_title_length in Eh.
Qed.

Lemma title_phase_frame d : forall st st' r,
  Forall (fun item : pystr * list ref => NoDup item.2) d ->
  valid_index (length (det_heap st)) d ->
  for_each title_group st d = Ok st' ->
  r ∉ index_refs d -> tags (det_heap st') r = tags (det_heap st) r.
Proof.
  induction d as [|item d IH]; intros st st' r Hnd Hv; simpl;
    [by intros [= <-]|].
  inversion Hnd as [|? ? Hnd0 Hnd']; subst.
  inversion Hv as [|? ? Hv0 Hv']; subst.
  destruct (title_group st item) as [st1|] eqn:E; simpl; [|done].
  intros H Hr. unfold index_refs in Hr. simpl in Hr.
  apply not_elem_of_app in Hr as [Hr0 Hr].
  pose proof (title_group_length _ _ _ E) as Hlen.
  apply title_group_tags in E as [_ E]; [|done..].
  rewrite (IH st1 st' r); [by apply E|done| |done|done].
  by rewrite Hlen.
Qed.

Lemma index_refs_item d item r : item ∈ d -> r ∈ item.2 -> r ∈ index_refs d.
Proof.
  intros Hi Hr. apply list_elem_of_join. exists item.2. split; [done|].
  by apply list_elem_of_fmap_2.
Qed.

Lemma index_refs_NoDup d :
  NoDup (index_refs d) ->
  Forall (fun item : pystr * list ref => NoDup item.2) d.
Proof.
  induction d as [|item d IH]; [constructor|].
  unfold index_refs. simpl. intros (H1 & _ & H2)%NoDup_app.
  constructor; [done|by apply IH].
Qed.

(** The title pass, where it is not aborted: every index item with more
    than one unsettled entry gives a group, whose entries get their title
    tags, once. *)
Lemma title_phase_tags d : forall st st' item,
  NoDup (index_refs d) -> valid_index (length (det_heap st)) d ->
  for_each title_group st d = Ok st' -> item ∈ d ->
  1 < length (unprocessed_of st item.2) ->
  unprocessed_of st item.2 ∈ duplicates st' /\
  forall r, r ∈ unprocessed_of st item.2 ->
    tags (det_heap st') r
    = tags (det_heap st) r
      ++ title_tags (det_heap st) (unprocessed_of st item.2) r.
Proof.
  induction d as [|item0 d IH]; intros st st' item Hnd Hv;
    [by intros _ ?%elem_of_nil|].
  cbn [for_each]. unfold index_refs in Hnd. simpl in Hnd.
  apply NoDup_app in Hnd as (Hnd0 & Hdis & Hnd').
  inversion Hv as [|? ? Hv0 Hv']; subst.
  destruct (title_group st item0) as [st1|] eqn:E; simpl; [|done].
  intros H Hin Hlen.
  pose proof (title_group_length _ _ _ E) as Hl1.
  pose proof (title_group_same _ _ _ E) as [Hs1 Hp1].
  assert (valid_index (length (det_heap st1)) d) as Hv1 by (by rewrite Hl1).
  apply elem_of_cons in Hin as [->|Hin].
  - apply title_group_tags in E as [E _]; [|done..].
    destruct (E Hlen) as [G T].
    destruct (title_phase_keeps _ _ _ H) as [K _]. split; [by apply K|].
    intros r Hr. rewrite <- (T r Hr).
    eapply title_phase_frame; [by apply index_refs_NoDup|done..|].
    apply Hdis. by eapply elem_of_filter_bool.
  - assert (unprocessed_of st1 item.2 = unprocessed_of st item.2) as Hu
      by (by apply unprocessed_of_same).
    destruct (IH st1 st' item Hnd' Hv1 H Hin) as [G T].
    { by rewrite Hu. }
    rewrite Hu in G, T. split; [done|].
    intros r Hr. rewrite (T r Hr).
    rewrite (title_tags_same (det_heap st1) (det_heap st)) by done.
    f_equal. apply title_group_tags in E as [_ E]; [|done..].
    apply E. intros Hr0. apply (Hdis r Hr0).
    eapply index_refs_item; [done|]. by eapply elem_of_filter_bool.
Qed.

Lemma index_append_refs key r d :
  index_refs (index_append key r d) ≡ₚ r :: index_refs d.
Proof.
  unfold index_refs. induction d as [|[k rs] d IH]; simpl; [done|].
  case_bool_decide; simpl.
  - rewrite <- app_assoc. simpl. by rewrite <- Permutation_middle.
  - rewrite IH. by rewrite <- Permutation_middle.
Qed.

Lemma valid_index_refs n d r : valid_index n d -> r ∈ index_refs d -> r < n.
Proof.
  intros Hv (rs & Hr & Hrs)%list_elem_of_join.
  apply list_elem_of_fmap in Hrs as (item & -> & Hi).
  unfold valid_index in Hv. rewrite Forall_forall in Hv.
  specialize (Hv item Hi). unfold valid_refs in Hv.
  rewrite Forall_forall in Hv. by apply Hv.
Qed.

(** After the scan, every entry is filed once in the title index, and no
    entry has a match type yet. *)
Lemma scan_title_index dirs :
  NoDup (index_refs (title_lookup (scan dirs))) /\
  Forall (fun e => match_type e = []) (scan_heap (scan dirs)).
Proof.
  unfold scan. generalize (movie_folders dirs). intros fs.
  assert (NoDup (index_refs (title_lookup (ScanState [] [] []))) /\
          Forall (fun e => match_type e = [])
                 (scan_heap (ScanState [] [] [])) /\
          valid_index (length (scan_heap (ScanState [] [] [])))
                      (title_lookup (ScanState [] [] [])) /\
          valid_index (length (scan_heap (ScanState [] [] [])))
                      (hash_lookup (ScanState [] [] []))) as H0.
  { split_and!; constructor. }
  revert H0. generalize (ScanState [] [] []).
  induction fs as [|f fs IH]; intros sc (Hnd & Hun & Hvt & Hvh); simpl;
    [done|].
  apply IH. destruct (scan_folder_valid sc f Hvt Hvh) as [Hvt' Hvh'].
  split_and!; [| |done|done]; unfold scan_folder;
    destruct (largest (folder_videos f)) as [v|]; try done; cbv zeta;
    cbn [scan_heap title_lookup].
  - rewrite index_append_refs. apply NoDup_cons. split; [|done].
    intros Hin. apply (valid_index_refs _ _ _ Hvt) in Hin. lia.
  - apply Forall_app. split; [done|]. by repeat constructor.
Qed.

Lemma mark_exact_tagged st r0 :
  tagged_processed st -> tagged_processed (mark_exact st r0).
Proof.
  intros P r e. unfold mark_exact. cbv zeta. cbn [det_heap processed_paths].
  unfold tag. destruct (decide (r0 = r)) as [->|Hne].
  - intros He. rewrite He. intros _. apply elem_of_union. left.
    by apply elem_of_singleton.
  - rewrite list_lookup_alter_ne by done. intros He Ht.
    specialize (P r e He Ht).
    destruct (alter _ _ _ !! r0); [|done]. apply elem_of_union. by right.
Qed.

Lemma hash_phase_tagged d : forall st,
  tagged_processed st -> tagged_processed (foldl hash_group st d).
Proof.
  induction d as [|item d IH]; intros st P; simpl; [done|].
  apply IH. unfold hash_group. cbv zeta.
  destruct (1 <? length item.2); [|done].
  assert (forall rs st, tagged_processed st ->
                        tagged_processed (foldl mark_exact st rs)) as Hm.
  { clear. induction rs as [|r rs IH]; intros st P; simpl; [done|].
    apply IH. by apply mark_exact_tagged. }
  intros r e. simpl. apply Hm. done.
Qed.

Lemma unsettled_untagged sc r :
  Forall (fun e => match_type e = []) (scan_heap sc) ->
  is_processed (settled sc) r = false -> tags (det_heap (settled sc)) r = [].
Proof.
  intros Hun Hr. unfold tags.
  destruct (det_heap (settled sc) !! r) as [e|] eqn:He; [|done]. simpl.
  destruct (match_type e) as [|t ts] eqn:Et; [done|]. exfalso.
  assert (tagged_processed (settled sc)) as P.
  { apply hash_phase_tagged. intros r' e' He' Ht'. simpl in He'.
    rewrite Forall_forall in Hun. destruct Ht'. apply Hun.
    by eapply list_elem_of_lookup_2. }
  unfold is_processed in Hr. rewrite He in Hr.
  apply bool_decide_eq_false in Hr. apply Hr. apply (P r e He).
  by rewrite Et.
Qed.

(** Where the detector is not aborted, C5 holds: the unsettled entries of
    a title key, when more than one, are a group it returns; each of them
    is tagged [TitleMatch], and then [SimilarSize] exactly when the check
    of its size against the mean of the group holds. *)
Lemma title_match_tagged dirs groups h key entries :
  find_groups (scan dirs) = Ok (groups, h) ->
  (key, entries) ∈ title_lookup (scan dirs) ->
  1 < length (unsettled (scan dirs) entries) ->
  unsettled (scan dirs) entries ∈ groups /\
  forall r, r ∈ unsettled (scan dirs) entries ->
    tags h r
    = title_tags (scan_heap (scan dirs)) (unsettled (scan dirs) entries) r.
Proof.
  intros Hfind Hin Hlen.
  destruct (scan_title_index dirs) as [Hnd Hun].
  destruct (scan_valid dirs) as [Hvt _].
  unfold find_groups in Hfind. cbv zeta in Hfind.
  destruct (for_each title_group _ _) as [st|] eqn:E; simpl in Hfind;
    [|done].
  injection Hfind as <- <-. fold (settled (scan dirs)) in E.
  assert (same_entries (det_heap (settled (scan dirs)))
                       (scan_heap (scan dirs))) as Hs
    by apply hash_phase_same.
  assert (length (det_heap (settled (scan dirs)))
          = length (scan_heap (scan dirs))) as Hl.
  { apply (f_equal length) in Hs. by rewrite !length_fmap in Hs. }
  destruct (title_phase_tags _ _ _ (key, entries) Hnd
              ltac:(by rewrite Hl) E Hin Hlen) as [G T].
  split; [done|]. intros r Hr. rewrite (T r Hr).
  rewrite unsettled_untagged; [|done|]; simpl.
  - by apply title_tags_same.
  - apply list_elem_of_In in Hr. apply filter_In in Hr as [_ Hr].
    by apply negb_true_iff in Hr.
Qed.

End TitleMatch.

(** C4 holds wherever the detector is not aborted ([exact_hash_grouped]).
    On this library: two folders of different names whose files have one
    fingerprint come out as one group, both tagged [ExactHash]. *)
Example exact_hash_pair_grouped :
  map (map entry_summary)
      (find_duplicate_movies_enhanced
         [movie "Alien (1979)" 500 (Some "cc");
          movie "Untitled Rip 7" 500 (Some "cc")]).1
  = [[(str "Alien (1979)", 500%Z, [ExactHash]);
      (str "Untitled Rip 7", 500%Z, [ExactHash])]].
Proof. vm_compute. reflexivity. Qed.

(** C4, where the code fails it: the same two folders, beside two folders
    of one title whose files are empty and unreadable (no fingerprint).
    The title pass divides by zero, and the detector returns no group at
    all: the pair of equal fingerprints is in no emitted group. *)
Theorem C4_exact_hash_lost_on_abort :
  find_duplicate_movies_enhanced
    [movie "Alien (1979)" 500 (Some "cc");
     movie "Untitled Rip 7" 500 (Some "cc");
     movie "Zero (2000)" 0 None; movie "Zero [2000]" 0 None]
  = aborted ZeroDivisionError.
Proof. vm_compute. reflexivity. Qed.

(** C5 holds wherever the detector is not aborted ([title_match_tagged]).
    On this library: two unsettled entries of one title key are tagged
    [TitleMatch], and [SimilarSize] as their sizes are within 10% of their
    mean; with sizes further apart, [TitleMatch] alone. *)
Example title_pair_tagged :
  map (map entry_summary)
      (find_duplicate_movies_enhanced
         [movie "Heat (1995)" 700 (Some "aa");
          movie "Heat [1995]" 710 (Some "bb")]).1
  = [[(str "Heat (1995)", 700%Z, [TitleMatch; SimilarSize]);
      (str "Heat [1995]", 710%Z, [TitleMatch; SimilarSize])]] /\
  map (map entry_summary)
      (find_duplicate_movies_enhanced
         [movie "Heat (1995)" 700 (Some "aa");
          movie "Heat [1995]" 900 (Some "bb")]).1
  = [[(str "Heat (1995)", 700%Z, [TitleMatch]);
      (str "Heat [1995]", 900%Z, [TitleMatch])]].
Proof. split; vm_compute; reflexivity. Qed.

(** C5, where the code fails it: two unsettled entries of one title key,
    both of size zero.  Their mean is zero, the check divides by it, and
    the detector returns no group: neither entry is tagged. *)
Theorem C5_title_match_lost_on_abort :
  find_duplicate_movies_enhanced
    [movie "Zero (2000)" 0 None; movie "Zero [2000]" 0 None]
  = aborted ZeroDivisionError.
Proof. vm_compute. reflexivity. Qed.
(** ** The score and its rationale *)

Section ScoreBook.

Implicit Types (q : quality) (p : probe) (filename : pystr).

Local Open Scope Z_scope.

Ltac branches :=
  repeat match goal with
         | |- context [if ?b then _ else _] => destruct b
         | |- context [match ?x with _ => _ end] => destruct x
         end.

Lemma total_points_app ds d :
  total_points (ds ++ [d]) = total_points ds + d_points d.
Proof. induction ds as [|x ds IH]; simpl; lia. Qed.

Lemma award_booked m l n q : booked q -> booked (award m l n q).
Proof.
  unfold booked. simpl. intros ->. by rewrite total_points_app.
Qed.

Lemma adds_compose n m f g :
  adds n f -> adds m g -> adds (n + m) (fun q => g (f q)).
Proof.
  intros Hf Hg q. destruct (Hf q) as [Hb Hs].
  destruct (Hg (f q)) as [Hb' Hs']. split; [tauto|lia].
Qed.

Lemma adds_id : adds 0 (fun q => q).
Proof. intros q. split; [done|lia]. Qed.

Lemma first_found_in table s v :
  first_found table s = Some v -> v ∈ table.*2.
Proof.
  induction table as [|[r w] table IH]; simpl; [done|].
  destruct (found r s).
  - intros [= ->]. left.
  - intros H. right. by apply IH.
Qed.

Lemma adds_measured_resolution mi : adds 100 (measured_resolution mi).
Proof.
  intros q. unfold measured_resolution, booked. cbv zeta.
  branches; simpl; rewrite ?total_points_app; simpl; split; try lia;
    intros ->; lia.
Qed.

Lemma codec_map_points v : v ∈ codec_map.*2 -> 0 <= v.2 <= 25.
Proof.
  unfold codec_map. simpl. rewrite !elem_of_cons, elem_of_nil.
  intros H. destruct_or!; subst; simpl; try lia; done.
Qed.

Lemma audio_map_points v : v ∈ audio_map.*2 -> 0 <= v.2 <= 15.
Proof.
  unfold audio_map. simpl. rewrite !elem_of_cons, elem_of_nil.
  intros H. destruct_or!; subst; simpl; try lia; done.
Qed.

Lemma adds_measured_codec mi : adds 25 (measured_codec mi).
Proof.
  intros q. unfold measured_codec, booked. cbv zeta.
  destruct (truthy _); [|split; [done|lia]].
  destruct (first_found _ _) as [[name points]|] eqn:E.
  - apply first_found_in, codec_map_points in E. simpl in *.
    rewrite total_points_app. simpl. split; [intros ->|]; lia.
  - simpl. rewrite total_points_app. simpl. split; [intros ->|]; lia.
Qed.

Lemma adds_measured_audio mi : adds 15 (measured_audio mi).
Proof.
  intros q. unfold measured_audio, booked. cbv zeta.
  destruct (truthy _); [|split; [done|lia]].
  destruct (first_found _ _) as [[name points]|] eqn:E.
  - apply first_found_in, audio_map_points in E. simpl in *.
    rewrite total_points_app. simpl. split; [intros ->|]; lia.
  - split; [done|lia].
Qed.

Lemma hdr_scores_range format : 10 <= hdr_scores format <= 18.
Proof. unfold hdr_scores. branches; lia. Qed.

Lemma adds_measured_hdr mi h : adds 18 (measured_hdr mi h).
Proof.
  intros q. unfold measured_hdr, booked. cbv zeta.
  destruct (mi_hdr mi); [|split; [done|lia]].
  destruct h as [[|c f]|]; simpl; rewrite total_points_app; simpl;
    try (split; [intros ->|]; lia).
  pose proof (hdr_scores_range (c :: f)). split; [intros ->|]; lia.
Qed.

Lemma adds_measured_bitrate : adds 20 measured_bitrate.
Proof.
  intros q. unfold measured_bitrate, booked.
  branches; simpl; rewrite ?total_points_app; simpl; split; try lia;
    intros ->; lia.
Qed.

Lemma adds_filename_resolution s : adds 100 (filename_resolution s).
Proof.
  intros q. unfold filename_resolution, booked.
  branches; simpl; rewrite ?total_points_app; simpl; split; try lia;
    intros ->; lia.
Qed.

Lemma adds_filename_codec s : adds 25 (filename_codec s).
Proof.
  intros q. unfold filename_codec, booked.
  branches; simpl; rewrite ?total_points_app; simpl; split; try lia;
    intros ->; lia.
Qed.

Lemma adds_filename_audio s : adds 15 (filename_audio s).
Proof.
  intros q. unfold filename_audio, booked.
  branches; simpl; rewrite ?total_points_app; simpl; split; try lia;
    intros ->; lia.
Qed.

Lemma adds_filename_hdr s : adds 18 (filename_hdr s).
Proof.
  intros q. unfold filename_hdr, hdr_as, booked.
  branches; simpl; rewrite ?total_points_app; simpl; split; try lia;
    intros ->; lia.
Qed.

Lemma adds_score_source filename : adds 35 (score_source filename).
Proof.
  intros q. unfold score_source, booked. cbv zeta.
  branches; simpl; rewrite ?total_points_app; simpl; split; try lia;
    intros ->; lia.
Qed.

Lemma adds_score_filename filename :
  adds (100 + 25 + 15 + 18) (score_filename filename).
Proof.
  unfold score_filename. cbv zeta.
  assert (adds 0 (set_data_source "Filename")) as H0
      by (intros q; split; [done|simpl; lia]).
  pose proof (adds_compose _ _ _ _
                (adds_compose _ _ _ _
                   (adds_compose _ _ _ _
                      (adds_compose _ _ _ _ H0
                         (adds_filename_resolution (lower filename)))
                      (adds_filename_codec (lower filename)))
                   (adds_filename_audio (lower filename)))
                (adds_filename_hdr (lower filename))) as H.
  exact H.
Qed.

Lemma booked_initial : booked initial_quality.
Proof. reflexivity. Qed.


(** X2: a score lies between 0 and 213; without measurements of the prober
    it is at most 193; both bounds are reached. *)
Theorem X2_score_range filename p :
  0 <= score (get_quality_score filename p) <= top_score true /\
  (forall h, score (get_quality_score filename (Probe None h))
             <= top_score false) /\
  score (get_quality_score "Dune.Remux.mkv" best_probe) = top_score true /\
  score (get_quality_score "Dune.2160p.AV1.Atmos.DoVi.Remux.mkv" no_probe)
  = top_score false.
Proof.
  split; [|split; [|split]].
  - unfold get_quality_score.
    destruct (adds_score_source filename (score_attributes filename p))
      as [_ Hs].
    unfold score_attributes in *. destruct (probe_info p) as [mi|].
    + unfold score_measured in *. cbv zeta in *.
      set (q0 := set_measured mi initial_quality) in *.
      destruct (adds_measured_resolution mi q0) as [_ H1].
      set (q1 := measured_resolution mi q0) in *.
      destruct (adds_measured_codec mi q1) as [_ H2].
      set (q2 := measured_codec mi q1) in *.
      destruct (adds_measured_audio mi q2) as [_ H3].
      set (q3 := measured_audio mi q2) in *.
      destruct (adds_measured_hdr mi (probe_hdr_format p) q3) as [_ H4].
      set (q4 := measured_hdr mi (probe_hdr_format p) q3) in *.
      destruct (adds_measured_bitrate q4) as [_ H5].
      assert (score q0 = 0) as H0 by reflexivity.
      unfold top_score. lia.
    + destruct (adds_score_filename filename initial_quality) as [_ H1].
      assert (score initial_quality = 0) as H0 by reflexivity.
      unfold top_score. lia.
  - intros h. unfold get_quality_score.
    destruct (adds_score_source filename
                (score_attributes filename (Probe None h))) as [_ Hs].
    unfold score_attributes in *. simpl in *.
    destruct (adds_score_filename filename initial_quality) as [_ H1].
    assert (score initial_quality = 0) as H0 by reflexivity.
    unfold top_score. lia.
  - vm_compute. reflexivity.
  - vm_compute. reflexivity.
Qed.

End ScoreBook.

(** ** Season and episode numbers *)

Section EpisodeNumbers.

Lemma captures_caps n P r st st' :
  captures n P r -> Matches r st st' ->
  (forall t, lookup_group n (caps st) = Some t -> P t) ->
  forall t, lookup_group n (caps st') = Some t -> P t.
Proof.
  intros Hc M. revert Hc.
  induction M; simpl; intros Hc Hini t Ht; try (by apply Hini).
  - destruct Hc as [H1 H2]. eapply IHM2; [done| |done].
    intros t'. by apply IHM1.
  - destruct Hc as [H1 H2]. by eapply IHM.
  - destruct Hc as [H1 H2]. by eapply IHM.
  - eapply IHM2; [done| |done]. intros t'. by apply IHM1.
  - eapply IHM2; [done| |done]. intros t'. by apply IHM1.
  - destruct Hc as [H1 H2]. destruct (n0 =? n) eqn:E.
    + apply Nat.eqb_eq in E. injection Ht as <-. by eapply H1.
    + by eapply IHM.
Qed.

Lemma consumed_advance st s' c :
  rest st = c :: s' -> consumed st (advance st s') = [c].
Proof.
  intros H. apply consumed_app. simpl. by rewrite H.
Qed.

Lemma consumed_advance2 st c1 c2 s' :
  rest st = c1 :: c2 :: s' ->
  consumed st (advance (advance st (c2 :: s')) s') = [c1; c2].
Proof.
  intros H. apply consumed_app. simpl. by rewrite H.
Qed.

Lemma Matches_digits12 st st' :
  Matches (Rep12 Digit) st st' -> digits12 (consumed st st') = true.
Proof.
  unfold Rep12, Opt, Digit. intros M.
  inversion M as [| |? ? ? st1 ? M1 M2| | | | | | | | |]; subst.
  inversion M1 as [|? ? c s' Hr Hc| | | | | | | | | |]; subst.
  inversion M2 as [| | |? ? ? ? M3|? ? ? ? M3| | | | | | |]; subst.
  - inversion M3 as [|? ? c' s'' Hr' Hc'| | | | | | | | | |]; subst.
    simpl in Hr'. subst s'. rewrite (consumed_advance2 _ _ _ _ Hr).
    simpl. by rewrite Hc, Hc'.
  - inversion M3; subst. rewrite (consumed_advance _ _ _ Hr). done.
Qed.

Lemma digits12_range t :
  digits12 t = true -> (0 <= int_of_digits t <= 99)%Z.
Proof.
  assert (forall d, is_digit d = true ->
                    (0 <= Z.of_nat (code d) - 48 <= 9)%Z) as Hd.
  { intros d. unfold is_digit. rewrite andb_true_iff, !Nat.leb_le. lia. }
  destruct t as [|d1 [|d2 [|]]]; simpl; try done.
  - intros H1%Hd. unfold int_of_digits. simpl. lia.
  - rewrite andb_true_iff. intros [H1%Hd H2%Hd].
    unfold int_of_digits. simpl. lia.
Qed.

Lemma group_int_range r s m n :
  captures n (fun t => digits12 t = true) r ->
  re_match r s = Some m -> (0 <= group_int m n <= 99)%Z.
Proof.
  intros Hc Hm. apply match_at_Some in Hm as (st' & M & ->).
  unfold group_int, group_of, group. simpl.
  destruct (lookup_group n (caps st')) as [t|] eqn:E; simpl.
  - apply digits12_range.
    eapply (captures_caps n _ r _ _ Hc M); [|done]. simpl. done.
  - unfold int_of_digits. simpl. lia.
Qed.

Lemma group_text_range r s m n t :
  captures n (fun t => digits12 t = true) r ->
  re_match r s = Some m -> group_text m n = Some t ->
  (0 <= int_of_digits t <= 99)%Z.
Proof.
  intros Hc Hm Ht. apply match_at_Some in Hm as (st' & M & ->).
  unfold group_text, group in Ht. simpl in Ht.
  destruct (lookup_group n (caps st')) as [[|c u]|] eqn:E; try done.
  injection Ht as <-. apply digits12_range.
  eapply (captures_caps n _ r _ _ Hc M); [|done]. simpl. done.
Qed.

Ltac captured :=
  cbn; repeat split; try done; intros _ ? ?; apply Matches_digits12.

Lemma sxxexx_captures n :
  n = 2 \/ n = 3 \/ n = 4 \/ n = 5 ->
  captures n (fun t => digits12 t = true) sxxexx_re.
Proof. intros H. destruct_or!; subst; captured. Qed.

Lemma nxnn_captures n :
  n = 2 \/ n = 3 -> captures n (fun t => digits12 t = true) nxnn_re.
Proof. intros H. destruct_or!; subst; captured. Qed.

Lemma season_episode_captures n :
  n = 2 \/ n = 3 ->
  captures n (fun t => digits12 t = true) season_episode_re.
Proof. intros H. destruct_or!; subst; captured. Qed.

Lemma episode_info_range filename :
  let info := get_episode_info filename in
  match season info with
  | Some s => (0 <= s <= 99)%Z
  | None => info = no_episode
  end /\
  Forall (fun e => (0 <= e <= 99)%Z) (episodes info).
Proof.
  cbv zeta. unfold get_episode_info.
  destruct (re_match sxxexx_re (path_stem filename)) as [m|] eqn:E1.
  { cbn [season episodes]. split.
    - eapply group_int_range; [|done]. apply sxxexx_captures; lia.
    - assert (0 <= group_int m 3 <= 99)%Z as H3.
      { eapply group_int_range; [|done]. apply sxxexx_captures; lia. }
      destruct (group_text m 4) as [t4|] eqn:E4;
        destruct (group_text m 5) as [t5|] eqn:E5; simpl;
        repeat constructor; try tauto;
        try (eapply (group_text_range _ _ _ 4); [|done..];
             apply sxxexx_captures; lia);
        try (eapply (group_text_range _ _ _ 5); [|done..];
             apply sxxexx_captures; lia). }
  destruct (re_match nxnn_re (path_stem filename)) as [m|] eqn:E2.
  { cbn [season episodes]. split; [|repeat constructor].
    all: eapply group_int_range; [|done]; apply nxnn_captures; lia. }
  destruct (re_match season_episode_re (path_stem filename)) as [m|] eqn:E3.
  { cbn [season episodes]. split; [|repeat constructor].
    all: eapply group_int_range; [|done]; apply season_episode_captures;
      lia. }
  cbn [season episodes]. split; [done|constructor].
Qed.

(** X3: the season and every episode number that [get_episode_info] reads
    from a file name lie between 0 and 99; [episode] is the first of
    [episodes]; and a name in which no season is found yields the empty
    record. *)
Theorem X3_episode_numbers_in_range (filename : pystr) :
  let info := get_episode_info filename in
  match season info with
  | Some s => (0 <= s <= 99)%Z /\ is_Some (show_title info)
  | None => info = no_episode
  end /\
  Forall (fun e => (0 <= e <= 99)%Z) (episodes info) /\
  episode info = head (episodes info).
Proof.
  pose proof (episode_info_range filename) as [Hs He]. cbv zeta in *.
  split_and!; [|done|].
  - destruct (season (get_episode_info filename)) eqn:E; [|done].
    split; [done|]. revert E. unfold get_episode_info.
    repeat case_match; simpl; try done; by eexists.
  - unfold get_episode_info. repeat case_match; simpl; try done.
    all: by destruct (group_text _ 4), (group_text _ 5).
Qed.

Lemma format_02d_two_digits (n : nat) :
  n < 100 ->
  exists d1 d2, format_02d (Z.of_nat n) = [d1; d2] /\
                is_digit d1 = true /\ is_digit d2 = true /\
                int_of_digits [d1; d2] = Z.of_nat n.
Proof.
  intros Hn.
  assert (forallb (fun n =>
            match format_02d (Z.of_nat n) with
            | [d1; d2] => is_digit d1 && is_digit d2
                          && (int_of_digits [d1; d2] =? Z.of_nat n)%Z
            | _ => false
            end) (seq 0 100) = true) as H by (vm_compute; reflexivity).
  rewrite forallb_forall in H. specialize (H n).
  destruct (format_02d (Z.of_nat n)) as [|d1 [|d2 [|]]] eqn:E.
  1,2,4: (assert (false = true) as HF; [|done]; apply H, in_seq; lia).
  assert (is_digit d1 && is_digit d2
          && (int_of_digits [d1; d2] =? Z.of_nat n)%Z = true) as H'
      by (apply H, in_seq; lia).
  rewrite !andb_true_iff, Z.eqb_eq in H'. exists d1, d2. tauto.
Qed.

(** X4: [organize_seasons] files an episode under [Season NN], with NN the
    two digits of the season its name shows; it leaves a file alone that
    lies in a folder of that name, and it cannot place a file in whose name
    no season is found. *)
Theorem X4_season_folder (file_name parent_name : pystr) :
  match organize_episode file_name parent_name with
  | MoveTo folder =>
      exists d1 d2,
        folder = (str "Season " ++ [d1; d2])%list /\
        is_digit d1 = true /\ is_digit d2 = true /\
        season (get_episode_info file_name)
        = Some (int_of_digits [d1; d2]) /\
        parent_name <> folder
  | AlreadyOrganized =>
      exists d1 d2,
        parent_name = (str "Season " ++ [d1; d2])%list /\
        season (get_episode_info file_name)
        = Some (int_of_digits [d1; d2])
  | CouldNotParse => get_episode_info file_name = no_episode
  end.
Proof.
  pose proof (episode_info_range file_name) as [Hs _]. cbv zeta in Hs.
  unfold organize_episode. cbv zeta.
  destruct (season (get_episode_info file_name)) as [s|]; [|done].
  destruct (format_02d_two_digits (Z.to_nat s)) as (d1 & d2 & E & H1 & H2 & Hi);
    [lia|].
  rewrite Z2Nat.id in E, Hi by lia.
  rewrite E. case_bool_decide as Hp; exists d1, d2; rewrite Hi; by split_and?.
Qed.

End EpisodeNumbers.

(** ** The groups of the detector *)

Section GroupClasses.

Implicit Types (h : heap) (d : index) (r : ref) (st : detect_state)
         (g : list ref) (sc : scan_state).

Lemma hash_group_duplicates st item :
  duplicates (hash_group st item)
  = duplicates st ++ (if big item.2 then [item.2] else []).
Proof.
  unfold hash_group, big. cbv zeta. destruct (1 <? length item.2); simpl.
  - by destruct (mark_exact_heap st item.2) as [_ ->].
  - by rewrite app_nil_r.
Qed.

Lemma hash_phase_duplicates d : forall st,
  duplicates (foldl hash_group st d)
  = duplicates st ++ List.filter big d.*2.
Proof.
  induction d as [|item d IH]; intros st; simpl; [by rewrite app_nil_r|].
  rewrite IH, hash_group_duplicates.
  destruct (big item.2); simpl; by rewrite <- ?app_assoc, ?app_nil_r.
Qed.

Lemma title_group_duplicates st item st' :
  title_group st item = Ok st' ->
  duplicates st'
  = duplicates st ++ (if big (unprocessed_of st item.2)
                      then [unprocessed_of st item.2] else []).
Proof.
  unfold title_group, big. cbv zeta.
  destruct (1 <? length _); simpl.
  - destruct (for_each _ _ _); simpl; [|done]. by intros [= <-].
  - intros [= <-]. by rewrite app_nil_r.
Qed.

Lemma title_phase_duplicates d : forall st st',
  for_each title_group st d = Ok st' ->
  duplicates st'
  = duplicates st ++ List.filter big (map (unprocessed_of st) d.*2) /\
  same_entries (det_heap st') (det_heap st) /\
  processed_paths st' = processed_paths st.
Proof.
  induction d as [|item d IH]; intros st st'; simpl.
  - intros [= <-]. by rewrite app_nil_r.
  - destruct (title_group st item) as [st1|] eqn:E; simpl; [|done].
    intros H. apply IH in H as (H1 & H2 & H3).
    pose proof (title_group_same _ _ _ E) as [S1 S2].
    apply title_group_duplicates in E.
    split_and!.
    + rewrite H1, E.
      assert (map (unprocessed_of st1) d.*2 = map (unprocessed_of st) d.*2)
        as ->.
      { apply map_ext. intros rs. by apply unprocessed_of_same. }
      destruct (big _); simpl; by rewrite <- ?app_assoc, ?app_nil_r.
    + by eapply same_entries_trans.
    + congruence.
Qed.

(** The groups that are found: those of the hash pass, then those of the
    title pass. *)
Lemma find_groups_structure sc groups h :
  find_groups sc = Ok (groups, h) ->
  groups = hash_groups sc ++ title_groups sc /\
  same_entries h (det_heap (settled sc)).
Proof.
  unfold find_groups. cbv zeta. fold (settled sc).
  destruct (for_each title_group _ _) as [st|] eqn:E; simpl; [|done].
  intros [= <- <-]. apply title_phase_duplicates in E as (E1 & E2 & E3).
  split; [|done]. rewrite E1. unfold settled at 1.
  by rewrite hash_phase_duplicates.
Qed.

Lemma same_path h h' r :
  same_entries h h' -> path <$> h !! r = path <$> h' !! r.
Proof.
  intros Hs. apply (same_lookup _ _ r) in Hs.
  destruct (h !! r) as [e|], (h' !! r) as [e'|]; simpl in *; try done.
  f_equal. injection Hs. congruence.
Qed.

Lemma is_processed_spec st r :
  is_processed st r = true <->
  exists p, path <$> det_heap st !! r = Some p /\ p ∈ processed_paths st.
Proof.
  unfold is_processed. destruct (det_heap st !! r) as [e|]; simpl.
  - rewrite bool_decide_eq_true. split.
    + intros H. by exists (path e).
    + by intros (p & [= <-] & H).
  - split; [done|]. by intros (p & ? & _).
Qed.

Lemma mark_exact_processed st r :
  processed_paths st ⊆ processed_paths (mark_exact st r) /\
  (r < length (det_heap st) -> is_processed (mark_exact st r) r = true).
Proof.
  unfold mark_exact. cbv zeta. split.
  - cbn [processed_paths]. destruct (tag _ _ _ !! r); [|done].
    apply union_subseteq_r.
  - intros Hr. apply is_processed_spec. cbn [det_heap processed_paths].
    apply lookup_lt_is_Some_2 in Hr as [e He]. unfold tag.
    rewrite list_lookup_alter_eq, He. simpl. exists (path e).
    split; [done|]. apply elem_of_union. left. by apply elem_of_singleton.
Qed.

Lemma is_processed_mono st st' r :
  same_entries (det_heap st') (det_heap st) ->
  processed_paths st ⊆ processed_paths st' ->
  is_processed st r = true -> is_processed st' r = true.
Proof.
  intros Hs Hp. rewrite !is_processed_spec. intros (p & H1 & H2).
  exists p. rewrite (same_path _ _ r Hs). auto.
Qed.

Lemma mark_exact_fold rs : forall st,
  same_entries (det_heap (foldl mark_exact st rs)) (det_heap st) /\
  processed_paths st ⊆ processed_paths (foldl mark_exact st rs).
Proof.
  induction rs as [|r0 rs IH]; intros st; simpl; [done|].
  destruct (IH (mark_exact st r0)) as [H1 H2].
  destruct (mark_exact_processed st r0) as [H3 _]. split.
  - eapply same_entries_trans; [done|]. apply tag_same.
  - by etrans.
Qed.

Lemma mark_exact_fold_tags rs : forall st,
  NoDup rs -> valid_refs (length (det_heap st)) rs ->
  (forall r, r ∈ rs ->
     tags (det_heap (foldl mark_exact st rs)) r
     = tags (det_heap st) r ++ [ExactHash] /\
     is_processed (foldl mark_exact st rs) r = true) /\
  (forall r, r ∉ rs ->
     tags (det_heap (foldl mark_exact st rs)) r = tags (det_heap st) r).
Proof.
  induction rs as [|r0 rs IH]; intros st Hnd Hv; simpl.
  - split; [by intros r ?%elem_of_nil|done].
  - apply NoDup_cons in Hnd as [Hr0 Hnd].
    inversion Hv as [|? ? Hlt Hv']; subst.
    destruct (IH (mark_exact st r0)) as [H1 H2]; [done| |].
    { unfold mark_exact. cbv zeta. cbn [det_heap]. by rewrite tag_length. }
    destruct (mark_exact_fold rs (mark_exact st r0)) as [S1 S2].
    destruct (mark_exact_processed st r0) as [_ P].
    split.
    + intros r [->|Hr]%elem_of_cons.
      * rewrite H2 by done. split.
        -- unfold mark_exact. cbv zeta. cbn [det_heap].
           by apply tags_tag_eq.
        -- eapply is_processed_mono; [done..|]. by apply P.
      * destruct (H1 r Hr) as [T1 T2]. split; [|done]. rewrite T1.
        unfold mark_exact. cbv zeta. cbn [det_heap].
        rewrite tags_tag_ne; [done|]. by intros ->.
    + intros r Hr. apply not_elem_of_cons in Hr as [Hne Hr].
      rewrite H2 by done. unfold mark_exact. cbv zeta. cbn [det_heap].
      by rewrite tags_tag_ne.
Qed.

Lemma hash_group_heap st item :
  same_entries (det_heap (hash_group st item)) (det_heap st) /\
  processed_paths st ⊆ processed_paths (hash_group st item).
Proof.
  unfold hash_group. cbv zeta. destruct (1 <? _); [|done].
  cbn [det_heap processed_paths]. apply mark_exact_fold.
Qed.

Lemma hash_phase_heap d : forall st,
  same_entries (det_heap (foldl hash_group st d)) (det_heap st) /\
  processed_paths st ⊆ processed_paths (foldl hash_group st d).
Proof.
  induction d as [|item d IH]; intros st; simpl; [done|].
  destruct (IH (hash_group st item)) as [H1 H2].
  destruct (hash_group_heap st item) as [H3 H4]. split.
  - by eapply same_entries_trans.
  - by etrans.
Qed.

Lemma same_entries_length h h' : same_entries h h' -> length h = length h'.
Proof.
  intros Hs. apply (f_equal length) in Hs. by rewrite !length_fmap in Hs.
Qed.

(** The hash pass tags the members of its groups, once, marks them as
    processed, and leaves the other entries alone. *)
Lemma hash_phase_tags d : forall st,
  NoDup (index_refs d) -> valid_index (length (det_heap st)) d ->
  (forall r, r ∈ mjoin (List.filter big d.*2) ->
     tags (det_heap (foldl hash_group st d)) r
     = tags (det_heap st) r ++ [ExactHash] /\
     is_processed (foldl hash_group st d) r = true) /\
  (forall r, r ∉ mjoin (List.filter big d.*2) ->
     tags (det_heap (foldl hash_group st d)) r = tags (det_heap st) r).
Proof.
  induction d as [|item d IH]; intros st Hnd Hv.
  - simpl. split; [by intros r ?%elem_of_nil|done].
  - unfold index_refs in Hnd. simpl in Hnd.
    apply NoDup_app in Hnd as (Hnd0 & Hdis & Hnd').
    inversion Hv as [|? ? Hv0 Hv']; subst.
    pose proof (hash_group_heap st item) as [S1 S2].
    destruct (IH (hash_group st item)) as [H1 H2]; [done| |].
    { by rewrite (same_entries_length _ _ S1). }
    assert (forall r, r ∈ mjoin (List.filter big d.*2) -> r ∈ index_refs d)
      as Hsub.
    { intros r Hr. apply list_elem_of_join in Hr as (g & Hr & Hg).
      apply list_elem_of_In in Hg. apply filter_In in Hg as [Hg _].
      apply list_elem_of_In in Hg. unfold index_refs.
      apply list_elem_of_join. by exists g. }
    assert (big item.2 = true ->
            (forall r, r ∈ item.2 ->
               tags (det_heap (hash_group st item)) r
               = tags (det_heap st) r ++ [ExactHash] /\
               is_processed (hash_group st item) r = true) /\
            (forall r, r ∉ item.2 ->
               tags (det_heap (hash_group st item)) r
               = tags (det_heap st) r)) as Hbig.
    { intros Hb. unfold hash_group. cbv zeta. unfold big in Hb. rewrite Hb.
      cbn [det_heap]. destruct (mark_exact_fold_tags item.2 st Hnd0 Hv0)
        as [M1 M2]. split; [|done]. intros r Hr.
      destruct (M1 r Hr) as [T1 T2]. split; [done|].
      apply is_processed_spec in T2 as (p & P1 & P2).
      apply is_processed_spec. by exists p. }
    assert (big item.2 = false -> hash_group st item = st) as Hsmall.
    { intros Hb. unfold hash_group. cbv zeta. unfold big in Hb.
      by rewrite Hb. }
    cbn [foldl fmap list_fmap]. simpl. destruct (big item.2) eqn:Hb.
    + destruct (Hbig eq_refl) as [B1 B2]. simpl. split.
      * intros r [Hr|Hr]%elem_of_app.
        -- destruct (B1 r Hr) as [T1 T2].
           rewrite H2; [split; [done|]|].
           ++ destruct (hash_phase_heap d (hash_group st item)) as [? ?].
              by eapply is_processed_mono.
           ++ intros Hin. by apply (Hdis r Hr), Hsub.
        -- destruct (H1 r Hr) as [T1 T2]. split; [|done]. rewrite T1, B2;
             [done|]. intros Hin. by apply (Hdis r Hin), Hsub.
      * intros r Hr. apply not_elem_of_app in Hr as [Hr0 Hr].
        rewrite H2 by done. by apply B2.
    + rewrite (Hsmall eq_refl) in *. by split.
Qed.

(** The title pass leaves alone every entry that is in none of its
    groups. *)
Lemma title_phase_untouched d : forall st st' r,
  Forall (fun item : pystr * list ref => NoDup item.2) d ->
  valid_index (length (det_heap st)) d ->
  for_each title_group st d = Ok st' ->
  r ∉ mjoin (List.filter big (map (unprocessed_of st) d.*2)) ->
  tags (det_heap st') r = tags (det_heap st) r.
Proof.
  induction d as [|item d IH]; intros st st' r Hnd Hv; simpl;
    [by intros [= <-]|].
  inversion Hnd as [|? ? Hnd0 Hnd']; subst.
  inversion Hv as [|? ? Hv0 Hv']; subst.
  destruct (title_group st item) as [st1|] eqn:E; simpl; [|done].
  intros H Hr.
  pose proof (title_group_length _ _ _ E) as Hlen.
  pose proof (title_group_same _ _ _ E) as [S1 S2].
  assert (map (unprocessed_of st1) d.*2 = map (unprocessed_of st) d.*2)
    as Hm.
  { apply map_ext. intros rs. by apply unprocessed_of_same. }
  rewrite (IH st1 st' r); [|done|by rewrite Hlen|done|].
  - revert E. unfold title_group. cbv zeta.
    fold (big (unprocessed_of st item.2)).
    destruct (big (unprocessed_of st item.2)) eqn:Hb;
      [|simpl; intros E; by simplify_eq].
    destruct (for_each (tag_title _) _ _) as [h1|] eqn:F; simpl; [|done].
    intros E. simplify_eq. cbn [det_heap].
    apply for_each_tag_title_tags in F as [_ F].
    + apply F. intros Hin. apply Hr. simpl. apply elem_of_app. by left.
    + by apply NoDup_filter_bool.
    + by apply filter_valid.
  - rewrite Hm. intros Hin. apply Hr.
    destruct (big (unprocessed_of st item.2)); simpl; [|done].
    apply elem_of_app. by right.
Qed.

Lemma in_index_append key r d k r' :
  in_index (index_append key r d) k r' ->
  in_index d k r' \/ (k = key /\ r' = r).
Proof.
  unfold in_index. induction d as [|[k0 rs] d IH]; simpl.
  - intros (rs' & Hin & Hr). apply list_elem_of_singleton in Hin.
    injection Hin as -> ->. apply list_elem_of_singleton in Hr. by right.
  - case_bool_decide as Hk.
    + intros (rs' & Hin & Hr). apply elem_of_cons in Hin as [Heq|Hin].
      * injection Heq as -> ->. apply elem_of_app in Hr as [Hr|Hr].
        -- left. exists rs. split; [apply list_elem_of_here|done].
        -- apply list_elem_of_singleton in Hr. by right.
      * left. exists rs'. split; [by apply list_elem_of_further|done].
    + intros (rs' & Hin & Hr). apply elem_of_cons in Hin as [Heq|Hin].
      * injection Heq as -> ->. left. exists rs.
        split; [apply list_elem_of_here|done].
      * destruct IH as [(rs'' & ? & ?)|?]; [by exists rs'| |by right].
        left. exists rs''. split; [by apply list_elem_of_further|done].
Qed.

Lemma scan_filed dirs : filed (scan dirs).
Proof.
  unfold scan. generalize (movie_folders dirs). intros fs.
  assert (filed (ScanState [] [] []) /\
          valid_index (length (scan_heap (ScanState [] [] [])))
                      (title_lookup (ScanState [] [] []))) as H0.
  { split; [|constructor]. split_and!; try constructor.
    - intros k r (rs & Hin & _). by apply elem_of_nil in Hin.
    - intros k r (rs & Hin & _). by apply elem_of_nil in Hin. }
  revert H0. generalize (ScanState [] [] []).
  induction fs as [|f fs IH]; intros sc [(Hh & Ht & Hnd & Hvh) Hvt]; simpl;
    [done|].
  apply IH. destruct (scan_folder_valid sc f Hvt Hvh) as [Hvt' Hvh'].
  split; [|done]. unfold filed. split_and!; [| | |done];
    unfold scan_folder in *;
    destruct (largest (folder_videos f)) as [v|]; try done; cbv zeta;
    cbn [scan_heap title_lookup hash_lookup].
  - intros k r Hin.
    assert (in_index (hash_lookup sc) k r \/
            (exists c fp, video_hash v = Some (c :: fp) /\ k = c :: fp /\
                          r = length (scan_heap sc))) as [Hold|Hnew].
    { destruct (video_hash v) as [[|c fp]|]; [by left..| |by left].
      apply in_index_append in Hin as [?|[-> ->]]; [by left|].
      right. by exists c, fp. }
    + destruct (Hh k r Hold) as (e & c & fp & He & -> & Hf).
      exists e, c, fp. split_and!; [|done..].
      by apply lookup_app_l_Some.
    + destruct Hnew as (c & fp & Hv & -> & ->). eexists _, c, fp.
      split_and!; [|done|].
      * rewrite lookup_app_r by done. by rewrite Nat.sub_diag.
      * done.
  - intros k r Hin. apply in_index_append in Hin as [Hold|[-> ->]].
    + destruct (Ht k r Hold) as (e & He & Hk). exists e.
      split; [by apply lookup_app_l_Some|done].
    + eexists. split.
      * rewrite lookup_app_r by done. by rewrite Nat.sub_diag.
      * done.
  - destruct (video_hash v) as [[|c fp]|]; try done.
    rewrite index_append_refs. apply NoDup_cons. split; [|done].
    intros Hin. apply (valid_index_refs _ _ _ Hvh) in Hin. lia.
Qed.

Lemma elem_of_groups (f : list ref -> bool) (l : list (list ref)) r :
  r ∈ mjoin (List.filter f l) ->
  exists g, g ∈ l /\ f g = true /\ r ∈ g.
Proof.
  intros Hr. apply list_elem_of_join in Hr as (g & Hr & Hg).
  apply list_elem_of_In in Hg. apply filter_In in Hg as [Hg Hf].
  apply list_elem_of_In in Hg. by exists g.
Qed.

Lemma groups_elem_of (f : list ref -> bool) (l : list (list ref)) g r :
  g ∈ l -> f g = true -> r ∈ g -> r ∈ mjoin (List.filter f l).
Proof.
  intros Hg Hf Hr. apply list_elem_of_join. exists g. split; [done|].
  apply list_elem_of_In, filter_In. split; [|done]. by apply list_elem_of_In.
Qed.

Lemma unsettled_not_processed sc rs r :
  r ∈ unsettled sc rs -> r ∈ rs /\ is_processed (settled sc) r = false.
Proof.
  unfold unsettled, unprocessed_of. intros Hr.
  apply list_elem_of_In, filter_In in Hr as [Hr Hp].
  split; [by apply list_elem_of_In|]. by apply negb_true_iff.
Qed.

(** The match types of the entries after a scan that is not aborted. *)
Lemma find_groups_tags dirs groups h :
  find_groups (scan dirs) = Ok (groups, h) ->
  forall r,
    (r ∈ mjoin (hash_groups (scan dirs)) -> tags h r = [ExactHash]) /\
    (r ∈ mjoin (title_groups (scan dirs)) ->
     tags h r = [TitleMatch] \/ tags h r = [TitleMatch; SimilarSize]).
Proof.
  intros Hfind r.
  destruct (scan_filed dirs) as (Fh & Ft & Hnd & Hvh).
  destruct (scan_title_index dirs) as [Hndt Hun].
  destruct (scan_valid dirs) as [Hvt _].
  set (sc := scan dirs) in *.
  destruct (hash_phase_tags (hash_lookup sc)
              (DetectState (scan_heap sc) ∅ []) Hnd Hvh) as [T1 T2].
  fold (settled sc) in T1, T2. cbn [det_heap] in T1, T2.
  assert (forall r, tags (scan_heap sc) r = []) as Hno.
  { intros r'. unfold tags. destruct (scan_heap sc !! r') as [e|] eqn:E;
      [|done]. simpl. rewrite Forall_forall in Hun. apply Hun.
    by eapply list_elem_of_lookup_2. }
  split.
  - intros Hr. destruct (T1 r Hr) as [Tr Pr]. rewrite Hno in Tr.
    simpl in Tr.
    unfold find_groups in Hfind. cbv zeta in Hfind. fold (settled sc) in Hfind.
    destruct (for_each title_group _ _) as [st|] eqn:E; simpl in Hfind;
      [|done].
    injection Hfind as <- <-. rewrite <- Tr.
    apply (title_phase_untouched _ _ _ _ (index_refs_NoDup _ Hndt)); [|done|].
    + rewrite (same_entries_length _ (scan_heap sc)); [done|].
      apply hash_phase_same.
    + intros Hin. apply elem_of_groups in Hin as (g & Hg & _ & Hrg).
      apply list_elem_of_fmap in Hg as (rs & -> & _).
      fold (unsettled sc rs) in Hrg.
      apply unsettled_not_processed in Hrg as [_ Hrg]. congruence.
  - intros Hr. apply elem_of_groups in Hr as (g & Hg & Hb & Hrg).
    apply list_elem_of_fmap in Hg as (rs & -> & Hrs).
    apply list_elem_of_fmap in Hrs as ([key rs'] & -> & Hitem). simpl in *.
    destruct (title_match_tagged dirs groups h key rs' Hfind Hitem)
      as [_ T].
    { unfold big in Hb. by apply Nat.ltb_lt in Hb. }
    rewrite (T r Hrg). unfold title_tags.
    destruct (similar_size _ _ _) as [[|]|]; auto.
Qed.

Lemma deref_elem h g e :
  e ∈ deref h g -> exists r, r ∈ g /\ h !! r = Some e.
Proof. unfold deref. intros H. by apply list_elem_of_omap in H. Qed.

Lemma tags_lookup h r e : h !! r = Some e -> match_type e = tags h r.
Proof. intros H. unfold tags. by rewrite H. Qed.

(** The heap of a scan that is not aborted holds the entries of the scan,
    with their match types. *)
Lemma find_groups_heap sc groups h r e :
  find_groups sc = Ok (groups, h) -> h !! r = Some e ->
  exists e0, scan_heap sc !! r = Some e0 /\ untagged e0 = untagged e.
Proof.
  intros Hfind He. apply find_groups_structure in Hfind as [_ Hs].
  assert (same_entries h (scan_heap sc)) as Hs'.
  { eapply same_entries_trans; [done|]. apply hash_phase_same. }
  apply (same_lookup _ _ r) in Hs'. rewrite He in Hs'.
  destruct (scan_heap sc !! r) as [e0|]; [|done]. exists e0.
  split; [done|]. cbn [fmap option_fmap option_map] in Hs'. congruence.
Qed.

(** X5: every group that the enhanced detector returns is of one of two
    kinds: its members have one and the same fingerprint and the match
    type [ExactHash] alone, or they have one and the same title key and
    the match types [TitleMatch] or [TitleMatch, SimilarSize]. *)
Theorem X5_groups_are_classes (dirs : list folder) :
  Forall (fun group => exact_hash_class group \/ title_class group)
         (find_duplicate_movies_enhanced dirs).1.
Proof.
  unfold find_duplicate_movies_enhanced. cbv zeta.
  destruct (movie_folders dirs) as [|f0 fs] eqn:Ef; [constructor|].
  destruct (find_groups (scan dirs)) as [[groups h]|] eqn:Hfind;
    [|constructor].
  cbn [fst]. apply Forall_fmap, Forall_forall. intros g Hg. simpl.
  destruct (find_groups_structure _ _ _ Hfind) as [-> _].
  destruct (scan_filed dirs) as (Fh & Ft & _ & _).
  apply elem_of_app in Hg as [Hg|Hg].
  - left. unfold hash_groups in Hg.
    apply list_elem_of_In, filter_In in Hg as [Hg Hb].
    apply list_elem_of_In, list_elem_of_fmap in Hg as ([k rs] & -> & Hitem).
    simpl in *.
    assert (exists c fp, k = c :: fp) as (c & fp & ->).
    { destruct rs as [|r0 rs]; [done|].
      destruct (Fh k r0) as (_ & c & fp & _ & -> & _); [|by eauto].
      exists (r0 :: rs). split; [done|]. apply list_elem_of_here. }
    exists c, fp. apply Forall_forall. intros e He.
    apply deref_elem in He as (r & Hr & He).
    destruct (find_groups_heap _ _ _ _ _ Hfind He) as (e0 & He0 & Hu).
    destruct (Fh (c :: fp) r) as (e1 & _ & _ & He1 & _ & Hf);
      [by exists rs|].
    rewrite He0 in He1. injection He1 as <-. split.
    + apply (f_equal file_hash) in Hu. simpl in Hu. by rewrite <- Hu.
    + rewrite (tags_lookup _ _ _ He).
      apply (find_groups_tags _ _ _ Hfind r).
      unfold hash_groups. eapply groups_elem_of; [|done..].
      apply list_elem_of_fmap. by exists (c :: fp, rs).
  - right. unfold title_groups in Hg.
    apply list_elem_of_In, filter_In in Hg as [Hg Hb].
    apply list_elem_of_In, list_elem_of_fmap in Hg as (rs & -> & Hrs).
    apply list_elem_of_fmap in Hrs as ([k rs'] & -> & Hitem). simpl in *.
    exists k. apply Forall_forall. intros e He.
    apply deref_elem in He as (r & Hr & He).
    destruct (find_groups_heap _ _ _ _ _ Hfind He) as (e0 & He0 & Hu).
    destruct (unsettled_not_processed _ _ _ Hr) as [Hr' _].
    destruct (Ft k r) as (e1 & He1 & Hk); [by exists rs'|].
    rewrite He0 in He1. injection He1 as <-. split.
    + apply (f_equal original_name) in Hu. simpl in Hu. by rewrite <- Hu.
    + rewrite (tags_lookup _ _ _ He).
      apply (find_groups_tags _ _ _ Hfind r).
      unfold title_groups. eapply groups_elem_of; [|done..].
      apply list_elem_of_fmap. exists rs'. split; [done|].
      apply list_elem_of_fmap. by exists (k, rs').
Qed.

Lemma scan_heap_fold fs : forall sc,
  scan_heap (foldl scan_folder sc fs) = scan_heap sc ++ omap entry_of fs.
Proof.
  induction fs as [|f fs IH]; intros sc; simpl; [by rewrite app_nil_r|].
  rewrite IH. unfold scan_folder, entry_of.
  destruct (largest (folder_videos f)) as [v|]; simpl; [|done].
  by rewrite <- app_assoc.
Qed.

(** The entries of a scan: one for each folder that holds a video file, in
    the order of the folders. *)
Lemma scan_heap_entries dirs :
  scan_heap (scan dirs) = omap entry_of (movie_folders dirs).
Proof. unfold scan. by rewrite scan_heap_fold. Qed.

Lemma largest_from b vs v :
  foldl (fun best v =>
           match best with
           | None => Some v
           | Some b =>
               if (video_size b <? video_size v)%Z then Some v else Some b
           end) (Some b) vs = Some v ->
  (v = b \/ v ∈ vs) /\ (video_size b <= video_size v)%Z /\
  Forall (fun v' => (video_size v' <= video_size v)%Z) vs.
Proof.
  revert b. induction vs as [|a vs IH]; intros b; simpl.
  - intros [= ->]. split_and!; [by left|lia|constructor].
  - destruct (video_size b <? video_size a)%Z eqn:E.
    + apply Z.ltb_lt in E. intros H. apply IH in H as ([->|Hin] & Hle & Hall).
      * split_and!; [right; apply list_elem_of_here|lia|].
        constructor; [lia|done].
      * split_and!; [right; by apply list_elem_of_further|lia|].
        constructor; [lia|done].
    + apply Z.ltb_ge in E. intros H. apply IH in H as ([->|Hin] & Hle & Hall).
      * split_and!; [by left|lia|]. constructor; [lia|done].
      * split_and!; [right; by apply list_elem_of_further|lia|].
        constructor; [lia|done].
Qed.

Lemma largest_spec vs v :
  largest vs = Some v ->
  v ∈ vs /\ Forall (fun v' => (video_size v' <= video_size v)%Z) vs.
Proof.
  unfold largest. destruct vs as [|a vs]; simpl; [done|].
  intros H. apply largest_from in H as ([->|Hin] & Hle & Hall).
  - split; [apply list_elem_of_here|]. constructor; [lia|done].
  - split; [by apply list_elem_of_further|]. constructor; [lia|done].
Qed.

Lemma entry_of_shows f e0 e :
  entry_of f = Some e0 -> untagged e0 = untagged e -> shows e f.
Proof.
  unfold entry_of. destruct (largest (folder_videos f)) as [v|] eqn:E;
    simpl; [|done].
  intros [= <-] Hu. apply largest_spec in E as [Hin Hall].
  exists v. unfold untagged in Hu. simpl in Hu.
  injection Hu as <- <- <- <- <- <- <-. done.
Qed.

(** X6: every entry of every group that the enhanced detector returns
    stands for a folder of the library other than [_Trailers], and shows
    the largest video file of that folder: its size, path and fingerprint,
    and the title year and the quality read for the folder. *)
Theorem X6_entries_show_largest_video (dirs : list folder) :
  Forall (Forall (fun e =>
            exists f, f ∈ dirs /\ folder_name f <> trailers /\ shows e f))
         (find_duplicate_movies_enhanced dirs).1.
Proof.
  unfold find_duplicate_movies_enhanced. cbv zeta.
  destruct (movie_folders dirs) as [|f0 fs] eqn:Ef; [constructor|].
  destruct (find_groups (scan dirs)) as [[groups h]|] eqn:Hfind;
    [|constructor].
  cbn [fst]. apply Forall_fmap, Forall_forall. intros g _. simpl.
  apply Forall_forall. intros e He.
  apply deref_elem in He as (r & _ & He).
  destruct (find_groups_heap _ _ _ _ _ Hfind He) as (e0 & He0 & Hu).
  rewrite scan_heap_entries in He0.
  apply list_elem_of_lookup_2, list_elem_of_omap in He0 as (f & Hf & Hef).
  unfold movie_folders in Hf.
  apply list_elem_of_In, filter_In in Hf as [Hf Hn].
  exists f. split_and!.
  - by apply list_elem_of_In.
  - apply negb_true_iff in Hn. by apply bool_decide_eq_false in Hn.
  - by eapply entry_of_shows.
Qed.

Lemma NoDup_join_filter (f : list ref -> bool) (l : list (list ref)) :
  NoDup (mjoin l) -> NoDup (mjoin (List.filter f l)).
Proof.
  induction l as [|g l IH]; simpl; [done|].
  intros (H1 & H2 & H3)%NoDup_app. destruct (f g); simpl; [|by apply IH].
  apply NoDup_app. split_and!; [done| |by apply IH].
  intros r Hr Hin. apply (H2 r Hr).
  apply elem_of_groups in Hin as (g' & Hg' & _ & Hr').
  apply list_elem_of_join. by exists g'.
Qed.

Lemma NoDup_join_map_filter (p : ref -> bool) (l : list (list ref)) :
  NoDup (mjoin l) -> NoDup (mjoin (map (List.filter p) l)).
Proof.
  induction l as [|g l IH]; simpl; [done|].
  intros (H1 & H2 & H3)%NoDup_app.
  apply NoDup_app. split_and!; [by apply NoDup_filter_bool| |by apply IH].
  intros r Hr Hin. apply (H2 r); [by eapply elem_of_filter_bool|].
  apply list_elem_of_join in Hin as (g' & Hr' & Hg').
  apply list_elem_of_fmap in Hg' as (g'' & -> & Hg'').
  apply list_elem_of_join. exists g''. split; [|done].
  by eapply elem_of_filter_bool.
Qed.

(** No entry is in two groups, or twice in one. *)
Lemma find_groups_NoDup dirs groups h :
  find_groups (scan dirs) = Ok (groups, h) -> NoDup (mjoin groups).
Proof.
  intros Hfind. destruct (find_groups_structure _ _ _ Hfind) as [-> _].
  destruct (scan_filed dirs) as (_ & _ & Hnd & Hvh).
  destruct (scan_title_index dirs) as [Hndt _].
  rewrite join_app. apply NoDup_app. split_and!.
  - by apply NoDup_join_filter.
  - intros r Hr Hin.
    destruct (hash_phase_tags (hash_lookup (scan dirs))
                (DetectState (scan_heap (scan dirs)) ∅ []) Hnd Hvh)
      as [T1 _].
    destruct (T1 r Hr) as [_ Pr]. fold (settled (scan dirs)) in Pr.
    apply elem_of_groups in Hin as (g & Hg & _ & Hrg).
    apply list_elem_of_fmap in Hg as (rs & -> & _).
    apply unsettled_not_processed in Hrg as [_ Hrg]. congruence.
  - apply NoDup_join_filter. unfold unsettled, unprocessed_of.
    by apply NoDup_join_map_filter.
Qed.

Lemma NoDup_omap_lookup {A} (l : list A) (rs : list nat) :
  NoDup l -> NoDup rs -> NoDup (omap (fun r => l !! r) rs).
Proof.
  intros Hl. induction rs as [|r rs IH]; simpl; [constructor|].
  intros [Hr Hrs]%NoDup_cons. destruct (l !! r) as [x|] eqn:E; [|by apply IH].
  apply NoDup_cons. split; [|by apply IH].
  intros Hin. apply list_elem_of_omap in Hin as (r' & Hr' & E').
  assert (r = r') as -> by exact (NoDup_lookup l r r' x Hl E E'). done.
Qed.

Lemma omap_join {A B} (f : A -> option B) (l : list (list A)) :
  mjoin (map (omap f) l) = omap f (mjoin l).
Proof.
  induction l as [|g l IH]; simpl; [done|]. by rewrite omap_app, IH.
Qed.

Lemma omap_fmap_lookup {A B} (f : A -> B) (l : list A) (rs : list nat) :
  f <$> omap (fun r => l !! r) rs = omap (fun r => (f <$> l) !! r) rs.
Proof.
  induction rs as [|r rs IH]; simpl; [done|].
  rewrite list_lookup_fmap. destruct (l !! r); simpl; [|exact IH].
  f_equal. exact IH.
Qed.

Lemma entry_of_path f e : entry_of f = Some e -> path e = folder_path f.
Proof.
  unfold entry_of. destruct (largest _); simpl; [|done]. by intros [= <-].
Qed.

Lemma NoDup_omap_paths fs :
  NoDup (folder_path <$> fs) -> NoDup (path <$> omap entry_of fs).
Proof.
  induction fs as [|f fs IH]; simpl; [constructor|].
  intros [Hf Hfs]%NoDup_cons. destruct (entry_of f) as [e|] eqn:E; simpl;
    [|by apply IH].
  apply NoDup_cons. split; [|by apply IH].
  intros Hin. apply Hf. rewrite <- (entry_of_path _ _ E).
  apply list_elem_of_fmap in Hin as (e' & -> & Hin).
  apply list_elem_of_omap in Hin as (f' & Hf' & E').
  rewrite (entry_of_path _ _ E'). by apply list_elem_of_fmap_2.
Qed.

Lemma NoDup_fmap_filter {A B} (f : A -> B) (p : A -> bool) (l : list A) :
  NoDup (f <$> l) -> NoDup (f <$> List.filter p l).
Proof.
  induction l as [|x l IH]; simpl; [done|].
  intros [Hx Hl]%NoDup_cons. destruct (p x); simpl; [|by apply IH].
  apply NoDup_cons. split; [|by apply IH].
  intros Hin. apply Hx. apply list_elem_of_fmap in Hin as (y & -> & Hy).
  apply list_elem_of_fmap_2.
  by apply list_elem_of_In, filter_In in Hy as [Hy%list_elem_of_In _].
Qed.

(** X7: when the folders of the library have pairwise different paths, no
    folder is listed twice in the groups that the enhanced detector
    returns, neither in one group nor in two. *)
Theorem X7_no_folder_listed_twice (dirs : list folder) :
  NoDup (folder_path <$> dirs) ->
  NoDup (path <$> mjoin (find_duplicate_movies_enhanced dirs).1).
Proof.
  intros Hnd. unfold find_duplicate_movies_enhanced. cbv zeta.
  destruct (movie_folders dirs) as [|f0 fs] eqn:Ef; [constructor|].
  destruct (find_groups (scan dirs)) as [[groups h]|] eqn:Hfind;
    [|constructor].
  cbn [fst]. unfold deref. rewrite omap_join, omap_fmap_lookup.
  pose proof (find_groups_NoDup _ _ _ Hfind) as Hrs.
  apply NoDup_omap_lookup; [|done].
  apply find_groups_structure in Hfind as [_ Hs].
  assert (same_entries h (scan_heap (scan dirs))) as Hs'.
  { eapply same_entries_trans; [done|]. apply hash_phase_same. }
  assert (path <$> h = path <$> scan_heap (scan dirs)) as ->.
  { unfold same_entries in Hs'. apply (f_equal (fmap path)) in Hs'.
    rewrite <- !list_fmap_compose in Hs'. exact Hs'. }
  rewrite scan_heap_entries. apply NoDup_omap_paths.
  by apply NoDup_fmap_filter.
Qed.

Lemma X7_no_folder_listed_twice_witness :
  NoDup (path <$> mjoin (find_duplicate_movies_enhanced small_library).1).
Proof.
  apply (X7_no_folder_listed_twice small_library).
  apply (bool_decide_unpack (NoDup (folder_path <$> small_library))).
  vm_compute. reflexivity.
Defined.

End GroupClasses.

(** ** The groups of the plain detector *)

Section PlainDetector.

Lemma plain_index_append_key_in key e d k :
  k ∈ (Plain.index_append key e d).*1 <-> k = key \/ k ∈ d.*1.
Proof.
  induction d as [|[k0 es] d IH]; simpl.
  - rewrite list_elem_of_singleton, elem_of_nil. tauto.
  - case_bool_decide as Hk; simpl.
    + subst. rewrite !elem_of_cons. tauto.
    + rewrite !elem_of_cons, IH. tauto.
Qed.

Lemma plain_index_append_keys key e d :
  NoDup d.*1 -> NoDup (Plain.index_append key e d).*1.
Proof.
  induction d as [|[k0 es] d IH]; simpl; intros Hd.
  - apply NoDup_singleton.
  - apply NoDup_cons in Hd as [Hk0 Hd]. case_bool_decide as E; simpl.
    + by apply NoDup_cons.
    + apply NoDup_cons. split; [|by apply IH].
      rewrite plain_index_append_key_in. intros [->|?]; done.
Qed.

Lemma plain_index_append_item key e d k es :
  NoDup d.*1 -> (k, es) ∈ Plain.index_append key e d ->
  (k <> key /\ (k, es) ∈ d) \/
  (k = key /\ exists es0, es = es0 ++ [e] /\
                          ((key, es0) ∈ d \/ (es0 = [] /\ key ∉ (d.*1)))).
Proof.
  induction d as [|[k0 es0] d IH]; simpl; intros Hnd Hin.
  - apply list_elem_of_singleton in Hin. injection Hin as -> ->.
    right. split; [done|]. exists []. split; [done|]. right.
    split; [done|]. apply not_elem_of_nil.
  - apply NoDup_cons in Hnd as [Hk0 Hnd]. case_bool_decide as Hk.
    + subst k0. apply elem_of_cons in Hin as [Heq|Hin].
      * injection Heq as -> ->. right. split; [done|]. exists es0.
        split; [done|]. left. apply list_elem_of_here.
      * left. split; [|by apply list_elem_of_further]. intros ->.
        apply Hk0. by apply (list_elem_of_fmap_2 fst) in Hin.
    + apply elem_of_cons in Hin as [Heq|Hin].
      * injection Heq as -> ->. left. split; [done|].
        apply list_elem_of_here.
      * destruct (IH Hnd Hin) as [[Hne H]|[-> (es1 & -> & H)]].
        -- left. split; [done|]. by apply list_elem_of_further.
        -- right. split; [done|]. exists es1. split; [done|].
           destruct H as [H|[-> H]].
           ++ left. by apply list_elem_of_further.
           ++ right. split; [done|].
              intros [?|?]%elem_of_cons; [congruence|done].
Qed.

Lemma folders_of_key_snoc k fs f :
  folders_of_key k (fs ++ [f])
  = folders_of_key k fs ++ (if bool_decide (folder_key f = k) then [f] else []).
Proof.
  unfold folders_of_key. rewrite List.filter_app. simpl.
  by destruct (bool_decide _).
Qed.

Lemma plain_scan_folder fs d f :
  plain_index_of fs d -> plain_index_of (fs ++ [f]) (Plain.scan_folder d f).
Proof.
  intros (Hnd & Hitems & Hkeys). unfold Plain.scan_folder. cbv zeta.
  fold (plain_entry_of f). fold (folder_key f).
  set (e := plain_entry_of f). set (key := folder_key f).
  split_and!.
  - by apply plain_index_append_keys.
  - intros k es Hin. apply plain_index_append_item in Hin; [|done].
    rewrite folders_of_key_snoc. fold key.
    destruct Hin as [[Hne Hin]|[-> (es0 & -> & [Hin|[-> Hn]])]].
    + destruct (Hitems k es Hin) as [H1 H2].
      rewrite bool_decide_eq_false_2 by done. by rewrite app_nil_r.
    + destruct (Hitems key es0 Hin) as [H1 H2].
      rewrite bool_decide_eq_true_2 by done. split.
      * by destruct es0.
      * by rewrite map_app, <- H2.
    + rewrite bool_decide_eq_true_2 by done. split; [done|].
      assert (folders_of_key key fs = []) as ->; [|done].
      destruct (folders_of_key key fs) as [|f' l] eqn:E; [done|]. exfalso.
      assert (f' ∈ folders_of_key key fs) as Hf'
          by (rewrite E; apply list_elem_of_here).
      unfold folders_of_key in Hf'.
      apply list_elem_of_In, filter_In in Hf' as [Hf' Hk].
      apply bool_decide_eq_true in Hk. apply Hn. rewrite <- Hk.
      by apply Hkeys, list_elem_of_In.
  - intros f' Hf'. rewrite plain_index_append_key_in.
    apply elem_of_app in Hf' as [Hf'|Hf'].
    + right. by apply Hkeys.
    + apply list_elem_of_singleton in Hf' as ->. by left.
Qed.

Lemma plain_scan fs : forall fs0 d,
  plain_index_of fs0 d ->
  plain_index_of (fs0 ++ fs) (foldl Plain.scan_folder d fs).
Proof.
  induction fs as [|f fs IH]; intros fs0 d H; simpl.
  - by rewrite app_nil_r.
  - replace (fs0 ++ f :: fs) with ((fs0 ++ [f]) ++ fs)
      by (by rewrite <- app_assoc).
    by apply IH, plain_scan_folder.
Qed.

(** X8: the groups of the plain detector are the title keys under which
    more than one folder falls: a list is a group when, and only when, it
    holds all the folders of one title key, in the order of the scan, and
    these are more than one.  Folders without a video file are among
    them. *)
Theorem X8_plain_groups_are_title_keys (dirs : list folder)
        (group : list Plain.entry) :
  group ∈ Plain.find_duplicate_movies dirs <->
  exists key,
    group = map plain_entry_of (folders_of_key key (movie_folders dirs)) /\
    1 < length group.
Proof.
  unfold Plain.find_duplicate_movies. cbv zeta.
  destruct (plain_scan (movie_folders dirs) [] []) as (Hnd & Hitems & Hkeys).
  { split_and!; [constructor| |].
    - intros k es H. by apply elem_of_nil in H.
    - intros f H. by apply elem_of_nil in H. }
  simpl in *. set (d := foldl Plain.scan_folder [] (movie_folders dirs)) in *.
  rewrite list_elem_of_In, filter_In, <- list_elem_of_In, Nat.ltb_lt. split.
  - intros [Hin Hlen]. apply list_elem_of_fmap in Hin as ([k es] & -> & Hin).
    exists k. split; [|done]. by apply Hitems.
  - intros (key & -> & Hlen). split; [|done].
    destruct (folders_of_key key (movie_folders dirs)) as [|f l] eqn:E;
      [simpl in Hlen; lia|].
    assert (f ∈ folders_of_key key (movie_folders dirs)) as Hf
        by (rewrite E; apply list_elem_of_here).
    unfold folders_of_key in Hf.
    apply list_elem_of_In, filter_In in Hf as [Hf Hk].
    apply bool_decide_eq_true in Hk. apply list_elem_of_In, Hkeys in Hf.
    rewrite Hk in Hf. apply list_elem_of_fmap in Hf as ([k es] & Hk' & Hin).
    simpl in Hk'. subst k. destruct (Hitems _ _ Hin) as [_ Hes].
    rewrite E in Hes. rewrite <- Hes.
    apply list_elem_of_fmap. by exists (key, es).
Qed.

End PlainDetector.

(** ** The normaliser and the case of letters *)

Section LetterCase.

Implicit Types (s : pystr) (c : ascii) (r : regex) (st : mstate).

Lemma blind_spec p c : blind p = true -> p (lower_char c) = p c.
Proof.
  unfold blind. rewrite forallb_forall. intros H.
  specialize (H (nat_of_ascii c)). rewrite ascii_nat_embedding in H.
  apply Bool.eqb_prop, H, in_seq. pose proof (nat_ascii_bounded c). lia.
Qed.

Lemma all_chars (f : ascii -> bool) :
  forallb (fun n => f (ascii_of_nat n)) (seq 0 256) = true ->
  forall c, f c = true.
Proof.
  rewrite forallb_forall. intros H c.
  specialize (H (nat_of_ascii c)). rewrite ascii_nat_embedding in H.
  apply H, in_seq. pose proof (nat_ascii_bounded c). lia.
Qed.

Lemma lower_char_idem c : lower_char (lower_char c) = lower_char c.
Proof.
  apply Ascii.eqb_eq. revert c. apply all_chars. vm_compute. reflexivity.
Qed.

Lemma lower_idem s : lower (lower s) = lower s.
Proof.
  unfold lower. rewrite map_map. apply map_ext. apply lower_char_idem.
Qed.

Lemma lower_length s : length (lower s) = length s.
Proof. apply length_map. Qed.

Lemma at_eos_lower s : at_eos (lower s) = at_eos s.
Proof.
  assert (forall c, char_eqb (lower_char c) newline = char_eqb c newline)
    as H.
  { intros c.
    apply (Bool.eqb_prop (char_eqb (lower_char c) newline)). revert c.
    apply all_chars. vm_compute. reflexivity. }
  destruct s as [|c [|c' s]]; simpl; auto.
Qed.

Lemma consumed_lower st st' :
  consumed (lower_state st) (lower_state st') = lower (consumed st st').
Proof.
  unfold consumed, lower_state, lower. simpl.
  rewrite !length_map. symmetry. apply fmap_take.
Qed.

Lemma set_group_lower n st st' :
  set_group n (lower_state st) (lower_state st')
  = lower_state (set_group n st st').
Proof.
  unfold set_group. rewrite consumed_lower. reflexivity.
Qed.

Lemma fmap_orelse {A B} (f : A -> B) (x y : option A) :
  f <$> orelse x y = orelse (f <$> x) (f <$> y).
Proof. by destruct x. Qed.

Lemma rep_loop_lower greedy body body' :
  (forall st k k', akin k k' ->
                   body' (lower_state st) k' = lower_state <$> body st k) ->
  forall fuel st k k', akin k k' ->
    rep_loop greedy body' k' fuel (lower_state st)
    = lower_state <$> rep_loop greedy body k fuel st.
Proof.
  intros Hbody. induction fuel as [|fuel IH]; intros st k k' Hk; simpl.
  - apply Hk.
  - rewrite lower_length.
    erewrite Hbody.
    + destruct greedy; rewrite fmap_orelse, Hk; reflexivity.
    + intros st1. simpl. rewrite lower_length.
      destruct (length (rest st1) <? length (rest st)); [|done].
      by apply IH.
Qed.

(** The matcher does on the lower-case form of a text what it does on the
    text, when the pattern is blind to letter case. *)
Lemma rmatch_lower r :
  case_blind r = true ->
  forall st k k', akin k k' ->
    rmatch r (lower_state st) k' = lower_state <$> rmatch r st k.
Proof.
  induction r as [|p|r1 IH1 r2 IH2|r1 IH1 r2 IH2|r1 IH1|r1 IH1|n r1 IH1| |];
    simpl; intros Hb st k k' Hk.
  - apply Hk.
  - destruct (rest st) as [|c s'] eqn:E; simpl; [done|].
    rewrite (blind_spec p c Hb). destruct (p c); [|done].
    specialize (Hk (advance st s')). exact Hk.
  - apply andb_true_iff in Hb as [Hb1 Hb2]. apply (IH1 Hb1).
    intros st1. by apply IH2.
  - apply andb_true_iff in Hb as [Hb1 Hb2].
    rewrite fmap_orelse, (IH1 Hb1 st k k' Hk), (IH2 Hb2 st k k' Hk). done.
  - rewrite lower_length. apply rep_loop_lower; [|done].
    intros st0 k0 k0' Hk0. by apply IH1.
  - rewrite lower_length. apply rep_loop_lower; [|done].
    intros st0 k0 k0' Hk0. by apply IH1.
  - apply (IH1 Hb). intros st1. rewrite set_group_lower. apply Hk.
  - destruct (pos st =? 0); [apply Hk|done].
  - rewrite at_eos_lower. destruct (at_eos (rest st)); [apply Hk|done].
Qed.

Lemma match_at_lower r i s :
  case_blind r = true ->
  match_at r i (lower s) = lower_match <$> match_at r i s.
Proof.
  intros Hb. unfold match_at. cbv zeta.
  pose proof (rmatch_lower r Hb (MState i s []) Some Some) as H.
  unfold lower_state at 1 in H. simpl in H. rewrite H; [|by intros st].
  destruct (rmatch r (MState i s []) Some) as [st'|]; simpl; [|done].
  unfold lower_match. simpl. f_equal. f_equal.
  pose proof (consumed_lower (MState i s []) st') as Hc.
  unfold lower_state at 1 in Hc. simpl in Hc. exact Hc.
Qed.

Lemma lower_app s t : lower (s ++ t) = lower s ++ lower t.
Proof. apply map_app. Qed.

Lemma lower_drop n s : lower (drop n s) = drop n (lower s).
Proof. unfold lower. apply fmap_drop. Qed.

Lemma sub_from_lower r repl :
  case_blind r = true -> lower repl = repl ->
  forall fuel i s,
    sub_from fuel r repl i (lower s) = lower (sub_from fuel r repl i s).
Proof.
  intros Hb Hrepl. induction fuel as [|fuel IH]; intros i s; [done|].
  cbn [sub_from]. rewrite match_at_lower by done.
  assert (match lower s with
          | [] => []
          | c :: s' => c :: sub_from fuel r repl (S i) s'
          end
          = lower match s with
                  | [] => []
                  | c :: s' => c :: sub_from fuel r repl (S i) s'
                  end) as Hskip.
  { destruct s as [|c s']; [done|].
    change (lower (c :: s')) with (lower_char c :: lower s').
    cbv iota. rewrite IH. reflexivity. }
  destruct (match_at r i s) as [m|]; cbn [fmap option_fmap option_map].
  - cbn [lower_match m_text]. rewrite lower_length.
    destruct (length (m_text m) =? 0).
    + by rewrite lower_app, Hrepl, Hskip.
    + by rewrite lower_app, Hrepl, <- lower_drop, IH.
  - exact Hskip.
Qed.

Lemma re_sub_lower r repl s :
  case_blind r = true -> lower repl = repl ->
  re_sub r repl (lower s) = lower (re_sub r repl s).
Proof.
  intros Hb Hrepl. unfold re_sub. rewrite lower_length.
  by apply sub_from_lower.
Qed.

Lemma is_space_lower c : is_space (lower_char c) = is_space c.
Proof.
  apply (Bool.eqb_prop (is_space (lower_char c))). revert c.
  apply all_chars. vm_compute. reflexivity.
Qed.

Lemma lstrip_lower s : lstrip (lower s) = lower (lstrip s).
Proof.
  induction s as [|c s IH]; simpl; [done|].
  rewrite is_space_lower. by destruct (is_space c).
Qed.

Lemma strip_lower s : strip (lower s) = lower (strip s).
Proof.
  unfold strip, rstrip. rewrite lstrip_lower. unfold lower.
  rewrite <- !fmap_reverse. fold (lower (reverse (lstrip s))).
  rewrite lstrip_lower. unfold lower. by rewrite fmap_reverse.
Qed.

Lemma split_on_lower sep s :
  (forall c, char_eqb (lower_char c) sep = char_eqb c sep) ->
  split_on sep (lower s) = map lower (split_on sep s).
Proof.
  intros Hsep. induction s as [|c s IH]; simpl; [done|].
  rewrite IH, Hsep. destruct (split_on sep s) as [|w ws]; simpl; [done|].
  by destruct (char_eqb c sep).
Qed.

Lemma lower_char_sep c (sep : ascii) :
  sep = slash \/ sep = dot ->
  char_eqb (lower_char c) sep = char_eqb c sep.
Proof.
  intros [->| ->];
    [apply (Bool.eqb_prop (char_eqb (lower_char c) slash))
    |apply (Bool.eqb_prop (char_eqb (lower_char c) dot))];
    revert c; apply all_chars; vm_compute; reflexivity.
Qed.

Lemma lower_eq_dot w : lower w = [dot] <-> w = [dot].
Proof.
  destruct w as [|c [|c' w]]; simpl; try done. split.
  - intros [= H]. f_equal. pose proof (lower_char_sep c dot (or_intror eq_refl))
      as Hc. rewrite H in Hc. unfold char_eqb in Hc.
    rewrite Ascii.eqb_refl in Hc. symmetry in Hc. by apply Ascii.eqb_eq in Hc.
  - intros [= ->]. reflexivity.
Qed.

Lemma path_name_lower s : path_name (lower s) = lower (path_name s).
Proof.
  unfold path_name. cbv zeta.
  rewrite split_on_lower by (intros c; apply lower_char_sep; by left).
  generalize (split_on slash s). intros l.
  match goal with
  | |- context [filter ?P (map lower l)] =>
      assert (filter P (map lower l) = map lower (filter P l)) as ->;
      [|generalize (filter P l)]
  end.
  { induction l as [|w l IH]; [done|]. cbn [map].
    rewrite !filter_cons.
    destruct (decide (w ≠ [] ∧ w ≠ [dot])) as [Hw|Hw].
    - assert (lower w ≠ [] ∧ lower w ≠ [dot]) as Hw'.
      { destruct Hw as [H1 H2]. split; [by destruct w|].
        by rewrite lower_eq_dot. }
      rewrite !decide_True by done. cbn [map]. f_equal. exact IH.
    - assert (~ (lower w ≠ [] ∧ lower w ≠ [dot])) as Hw'.
      { intros [H1 H2]. apply Hw. split; [by destruct w|].
        by rewrite <- lower_eq_dot. }
      rewrite !decide_False by done. exact IH. }
  intros l'. change (map lower l') with (lower <$> l'). rewrite fmap_last.
  by destruct (last l').
Qed.

Lemma rfind_dot_lower s : rfind_dot (lower s) = rfind_dot s.
Proof.
  induction s as [|c s IH]; simpl; [done|].
  rewrite IH, (lower_char_sep c dot) by (by right). done.
Qed.

Lemma path_stem_lower s : path_stem (lower s) = lower (path_stem s).
Proof.
  unfold path_stem. cbv zeta. rewrite path_name_lower, rfind_dot_lower.
  rewrite lower_length. destruct (rfind_dot (path_name s)) as [i|]; [|done].
  destruct (_ && _); [|done]. unfold lower. by rewrite fmap_take.
Qed.

Lemma lower_char_of_digit d : is_digit d = true -> lower_char d = d.
Proof.
  intros H. apply Ascii.eqb_eq.
  assert (implb (is_digit d) (Ascii.eqb (lower_char d) d) = true) as Hd.
  { revert d H. intros d _. revert d. apply all_chars.
    vm_compute. reflexivity. }
  by rewrite H in Hd.
Qed.

Lemma first_year_lower s : first_year (lower s) = first_year s.
Proof.
  induction s as [|c s IH].
  - reflexivity.
  - change (lower (c :: s)) with (lower_char c :: lower s).
    cbn [first_year]. change (lower_char c :: lower s) with (lower (c :: s)).
    rewrite lower_is_year_at, IH.
    destruct (is_year_at (c :: s)) eqn:E; [|done]. f_equal.
    destruct s as [|c2 [|d1 [|d2 s]]]; try done. cbn [is_year_at] in E.
    apply andb_true_iff in E as [E E4]. apply andb_true_iff in E as [E E3].
    simpl. rewrite (lower_char_of_digit d1 E3), (lower_char_of_digit d2 E4).
    apply orb_true_iff in E as [E|E]; apply andb_true_iff in E as [E1 E2];
      unfold char_eqb in E1, E2; apply Ascii.eqb_eq in E1, E2; by subst.
Qed.

Lemma normalizer_patterns_blind :
  case_blind year_tail_re = true /\ case_blind quality_tail_re = true /\
  case_blind (Chr ".") = true /\ case_blind (OneOf "_-") = true /\
  case_blind (Plus Space) = true.
Proof. vm_compute. by split_and!. Qed.

Lemma normalize_stem_lower s :
  normalize_stem (lower s) = normalize_stem s.
Proof.
  pose proof (year_normalize_stem (lower s)) as Hy.
  pose proof (year_normalize_stem s) as Hy'.
  rewrite first_year_lower, <- Hy' in Hy.
  destruct normalizer_patterns_blind as (B1 & B2 & B3 & B4 & B5).
  unfold normalize_stem in *. cbv zeta in *. cbn [year] in Hy.
  f_equal; [|exact Hy]. f_equal.
  rewrite (re_sub_lower _ _ _ B1 eq_refl), (re_sub_lower _ _ _ B2 eq_refl),
    (re_sub_lower _ _ _ B3 eq_refl), (re_sub_lower _ _ _ B4 eq_refl),
    (re_sub_lower _ _ _ B5 eq_refl), strip_lower, lower_idem.
  reflexivity.
Qed.

(** X9: the title normaliser does not tell a letter from its lower-case
    form: a name and its lower-case form have the same normalized title
    and the same year, and so the same title key. *)
Theorem X9_normalized_title_ignores_case (name : pystr) :
  get_normalized_title (lower name) = get_normalized_title name /\
  title_key (get_normalized_title (lower name))
  = title_key (get_normalized_title name).
Proof.
  assert (get_normalized_title (lower name) = get_normalized_title name)
    as H.
  { unfold get_normalized_title.
    by rewrite path_stem_lower, normalize_stem_lower. }
  by rewrite H.
Qed.

End LetterCase.

(** ** The shape of a normalized title *)

Section TitleShape.

Implicit Types (s t : pystr) (c : ascii) (r : regex) (st : mstate).

Lemma match_at_Cls p i s :
  match_at (Cls p) i s
  = match s with
    | c :: s' => if p c then Some (PyMatch i [c] []) else None
    | [] => None
    end.
Proof.
  unfold match_at. simpl. destruct s as [|c s']; [done|].
  destruct (p c); [|done]. f_equal. f_equal.
  apply consumed_app. reflexivity.
Qed.

(** Replacing the characters of a class: what is left are the characters
    outside the class, and those of the replacement. *)
Lemma sub_Cls_Forall p repl (Q : ascii -> Prop) fuel : forall i s,
  length s < fuel ->
  Forall Q repl -> (forall c, c ∈ s -> p c = false -> Q c) ->
  Forall Q (sub_from fuel (Cls p) repl i s).
Proof.
  induction fuel as [|fuel IH]; intros i s Hlen Hrepl Hs; [lia|].
  cbn [sub_from]. rewrite match_at_Cls. destruct s as [|c s']; [done|].
  simpl in Hlen.
  assert (Forall Q (sub_from fuel (Cls p) repl (S i) s')) as Hrec.
  { apply IH; [lia|done|]. intros c' Hc'. apply Hs. by right. }
  destruct (p c) eqn:E; simpl.
  - apply Forall_app. split; [done|]. rewrite drop_0.
    apply IH; [lia|done|]. intros c' Hc'. apply Hs. by right.
  - constructor; [|done]. apply Hs; [by left|done].
Qed.

Lemma re_sub_Cls_Forall p repl (Q : ascii -> Prop) s :
  Forall Q repl -> (forall c, c ∈ s -> p c = false -> Q c) ->
  Forall Q (re_sub (Cls p) repl s).
Proof. intros. apply sub_Cls_Forall; [lia|done..]. Qed.

Lemma lstrip_length s : length (lstrip s) <= length s.
Proof. apply suffix_length, lstrip_suffix. Qed.

(** A greedy run of white space stops where [lstrip] does. *)
Lemma rep_loop_spaces fuel : forall st,
  length (rest st) <= fuel ->
  rep_loop true (rmatch Space) Some fuel st
  = Some (MState (pos st + (length (rest st) - length (lstrip (rest st))))
                 (lstrip (rest st)) (caps st)).
Proof.
  induction fuel as [|fuel IH]; intros [i s cs] Hlen; simpl in *.
  - destruct s; [|simpl in Hlen; lia]. simpl. by rewrite Nat.add_0_r.
  - destruct s as [|c s']; simpl.
    + by rewrite Nat.add_0_r.
    + destruct (is_space c) eqn:E; simpl.
      * rewrite (proj2 (Nat.ltb_lt _ _)) by lia.
        unfold advance. simpl. rewrite IH by (simpl in *; lia). simpl.
        pose proof (lstrip_length s'). do 2 f_equal. lia.
      * f_equal. f_equal. lia.
Qed.

Lemma match_at_spaces i s :
  match_at (Plus Space) i s
  = if starts_blank s
    then Some (PyMatch i (take (length s - length (lstrip s)) s) [])
    else None.
Proof.
  unfold match_at, Plus. cbn [rmatch]. unfold Space at 1. cbn [rmatch rest].
  destruct s as [|c s']; [done|]. cbn [starts_blank].
  destruct (is_space c) eqn:E; [|done].
  unfold advance. cbn [rest pos caps].
  rewrite rep_loop_spaces by done. cbn [rest pos caps].
  unfold consumed. cbn [rest]. cbn [lstrip]. by rewrite E.
Qed.

Lemma drop_lstrip s : drop (length s - length (lstrip s)) s = lstrip s.
Proof.
  destruct (lstrip_suffix s) as [k Hk]. rewrite Hk at 1 3.
  rewrite length_app. replace (length k + length (lstrip s)
                               - length (lstrip s)) with (length k) by lia.
  by rewrite drop_app_length.
Qed.

Lemma lstrip_not_blank s : starts_blank (lstrip s) = false.
Proof.
  induction s as [|c s IH]; simpl; [done|].
  destruct (is_space c) eqn:E; [done|]. simpl. done.
Qed.

Lemma starts_blank_lstrip s : starts_blank s = true -> length (lstrip s) < length s.
Proof.
  destruct s as [|c s]; simpl; [done|]. intros ->.
  pose proof (lstrip_length s). lia.
Qed.

(** What [re.sub(r'\s+', ' ', s)] leaves: blanks, and the characters of
    [s] that are no white space; no two white-space characters in a row. *)
Lemma sub_spaces fuel : forall i s,
  length s < fuel ->
  Forall (fun c => c = " "%char \/ (c ∈ s /\ is_space c = false))
         (sub_from fuel (Plus Space) blank i s) /\
  spaced_once (sub_from fuel (Plus Space) blank i s) = true /\
  (starts_blank s = false ->
   starts_blank (sub_from fuel (Plus Space) blank i s) = false).
Proof.
  induction fuel as [|fuel IH]; intros i s Hlen; [lia|].
  cbn [sub_from]. rewrite match_at_spaces.
  destruct (starts_blank s) eqn:Hb.
  - cbv zeta. cbn [m_text]. rewrite length_take.
    pose proof (starts_blank_lstrip s Hb) as Hlt.
    rewrite (proj2 (Nat.eqb_neq _ _)) by lia.
    rewrite (Nat.min_l (length s - length (lstrip s)) (length s)) by lia.
    rewrite drop_lstrip.
    destruct (IH (i + (length s - length (lstrip s))) (lstrip s))
      as (H1 & H2 & H3); [lia|].
    specialize (H3 (lstrip_not_blank s)).
    set (out := sub_from fuel (Plus Space) blank
                  (i + (length s - length (lstrip s))) (lstrip s)) in *.
    split_and!.
    + constructor; [by left|]. eapply Forall_impl; [exact H1|].
      intros c [->|[Hc Hs]]; [by left|right]. split; [|done].
      destruct (lstrip_suffix s) as [k Hk]. rewrite Hk.
      apply elem_of_app. by right.
    + destruct out as [|c' out']; [done|]. simpl in H3.
      change (blank ++ c' :: out') with (" "%char :: c' :: out').
      cbn [spaced_once] in *. rewrite H3 in *. rewrite andb_false_r.
      exact H2.
    + done.
  - destruct s as [|c s']; [done|]. simpl in Hb, Hlen.
    destruct (IH (S i) s') as (H1 & H2 & H3); [lia|].
    split_and!.
    + constructor; [right; split; [by left|done]|].
      eapply Forall_impl; [exact H1|].
      intros c' [->|[Hc Hs]]; [by left|right]. split; [by right|done].
    + cbn [spaced_once].
      destruct (sub_from fuel _ _ _ _) as [|c' out']; [done|].
      rewrite Hb. exact H2.
    + intros _. exact Hb.
Qed.

Lemma spaced_once_suffix s t :
  s `suffix_of` t -> spaced_once t = true -> spaced_once s = true.
Proof.
  intros [k ->]. induction k as [|c k IH]; [done|].
  intros H. apply IH. simpl in H. destruct (k ++ s); [done|].
  by apply andb_true_iff in H as [_ H].
Qed.

Lemma spaced_once_prefix s : forall t,
  s `prefix_of` t -> spaced_once t = true -> spaced_once s = true.
Proof.
  induction s as [|c s IH]; intros t [k ->]; [done|]. simpl.
  destruct s as [|c' s]; [done|]. simpl.
  intros H. apply andb_true_iff in H as [H1 H2]. rewrite H1. simpl.
  apply (IH ((c' :: s) ++ k)); [by exists k|done].
Qed.

Lemma ends_rstrip s c t : rstrip s = t ++ [c] -> is_space c = false.
Proof.
  unfold rstrip. intros H. apply (f_equal reverse) in H.
  rewrite reverse_involutive, reverse_app in H. simpl in H.
  pose proof (lstrip_not_blank (reverse s)) as Hb. rewrite H in Hb.
  exact Hb.
Qed.

Lemma starts_blank_prefix s t :
  s `prefix_of` t -> s <> [] -> starts_blank s = starts_blank t.
Proof. intros [k ->] Hs. by destruct s. Qed.

(** What [strip] leaves has no white space at either end. *)
Lemma strip_ends s :
  starts_blank (strip s) = false /\
  (forall t c, strip s = t ++ [c] -> is_space c = false).
Proof.
  split.
  - unfold strip. destruct (rstrip (lstrip s)) as [|c t] eqn:E; [done|].
    rewrite <- E. rewrite (starts_blank_prefix _ (lstrip s)).
    + apply lstrip_not_blank.
    + apply rstrip_prefix.
    + by rewrite E.
  - intros t c. unfold strip. apply ends_rstrip.
Qed.

Lemma strip_sublist s : exists a b, s = a ++ strip s ++ b.
Proof.
  unfold strip. destruct (lstrip_suffix s) as [a Ha].
  destruct (rstrip_prefix (lstrip s)) as [b Hb].
  exists a, b. by rewrite <- Hb.
Qed.

Lemma neat_strip s : neat s -> neat (strip s).
Proof.
  intros [H1 H2]. destruct (strip_sublist s) as (a & b & Hs). split.
  - rewrite Hs in H1. apply Forall_app in H1 as [_ H1].
    by apply Forall_app in H1 as [H1 _].
  - apply (spaced_once_prefix _ (strip s ++ b)); [by exists b|].
    apply (spaced_once_suffix _ s); [|done]. exists a. exact Hs.
Qed.

Lemma spaced_once_cons c c' s :
  spaced_once (c :: c' :: s)
  = negb (is_space c && is_space c') && spaced_once (c' :: s).
Proof. reflexivity. Qed.

Lemma spaced_once_lower s : spaced_once (lower s) = spaced_once s.
Proof.
  induction s as [|c s IH]; [done|]. destruct s as [|c' s]; [done|].
  change (lower (c :: c' :: s)) with (lower_char c :: lower_char c' :: lower s).
  rewrite !spaced_once_cons.
  change (lower_char c' :: lower s) with (lower (c' :: s)).
  by rewrite IH, !is_space_lower.
Qed.

Lemma title_char_lower c :
  existsb (char_eqb c) (str "._-") = false ->
  (is_space c = true -> c = " "%char) ->
  title_char (lower_char c) = true.
Proof.
  intros H1 H2. unfold title_char.
  rewrite lower_char_idem, is_space_lower. unfold char_eqb at 2.
  rewrite Ascii.eqb_refl.
  assert (existsb (char_eqb (lower_char c)) (str "._-")
          = existsb (char_eqb c) (str "._-")) as ->.
  { apply (Bool.eqb_prop (existsb (char_eqb (lower_char c)) (str "._-"))).
    revert c H1 H2. intros c _ _. revert c. apply all_chars.
    vm_compute. reflexivity. }
  rewrite H1. simpl. destruct (is_space c) eqn:E; [|done].
  by rewrite (H2 eq_refl).
Qed.

Lemma Matches_consumed r st st' :
  Matches r st st' -> rest st = consumed st st' ++ rest st'.
Proof.
  intros M. apply Matches_suffix in M as [k Hk].
  rewrite (consumed_app st st' k Hk). exact Hk.
Qed.

Lemma Matches_star_spaces st st' :
  Matches (Star Space) st st' ->
  exists w, rest st = w ++ rest st' /\ Forall (fun c => is_space c = true) w.
Proof.
  remember (Star Space) as r eqn:Er. intros M. induction M; try done.
  - exists []. by split.
  - injection Er as ->.
    destruct (IHM2 eq_refl) as (w & Hw & Hsp).
    inversion M1 as [|? ? c s' Hr Hc| | | | | | | | | |]; subst.
    exists (c :: w). simpl in Hw. rewrite Hr, Hw. split; [done|].
    by constructor.
Qed.

(** A match of [^(the|a|an)\s+] ends behind a white-space character. *)
Lemma article_ends_blank st st' :
  Matches article_re st st' ->
  exists w c, rest st = w ++ c :: rest st' /\ is_space c = true.
Proof.
  unfold article_re. cbn [Seq]. intros M.
  inversion M as [| |? ? ? st1 ? M1 M2| | | | | | | | |]; subst.
  inversion M2 as [| |? ? ? st2 ? M3 M4| | | | | | | | |]; subst.
  unfold Plus in M4.
  inversion M4 as [| |? ? ? st3 ? M5 M6| | | | | | | | |]; subst.
  pose proof (Matches_suffix _ _ _ M1) as [k1 H1].
  pose proof (Matches_suffix _ _ _ M3) as [k2 H2].
  inversion M5 as [|? ? c s' Hr Hc| | | | | | | | | |]; subst.
  apply Matches_star_spaces in M6 as (w & Hw & Hsp). simpl in Hw.
  destruct (decide (w = [])) as [->|Hne].
  - exists (k1 ++ k2), c. simpl in Hw. subst s'.
    rewrite H1, H2, Hr, <- app_assoc. done.
  - destruct (exists_last Hne) as (w' & c' & ->).
    apply Forall_app in Hsp as [_ Hsp]. inversion Hsp; subst.
    exists (k1 ++ k2 ++ c :: w'), c'. split; [|done].
    rewrite H1, H2, Hr, <- !app_assoc. simpl. by rewrite <- ?app_assoc.
Qed.

Lemma spaced_once_middle w c s :
  spaced_once (w ++ c :: s) = true -> is_space c = true ->
  starts_blank s = false.
Proof.
  intros H Hc. apply (spaced_once_suffix (c :: s)) in H; [|by exists w].
  destruct s as [|c' s]; [done|]. simpl in *.
  apply andb_true_iff in H as [H _]. rewrite Hc in H. simpl in H.
  by apply negb_true_iff in H.
Qed.

(** Taking the article off a text without white-space runs that does not
    start with white space leaves a text that does not start with white
    space. *)
Lemma article_removed_start s :
  spaced_once s = true -> starts_blank s = false ->
  starts_blank (re_sub article_re [] s) = false.
Proof.
  intros N Hb. unfold re_sub. cbn [sub_from]. cbv zeta.
  assert (match s with
          | [] => []
          | c :: s' => c :: sub_from (length s) article_re [] 1 s'
          end = s) as Hskip.
  { destruct s as [|c s']; [done|]. f_equal. apply sub_anchored. }
  rewrite Hskip.
  destruct (match_at article_re 0 s) as [m|] eqn:E; [|done].
  apply match_at_Some in E as (st' & M & ->). cbn [m_text].
  destruct (length (consumed (MState 0 s []) st') =? 0) eqn:En; [done|].
  apply Nat.eqb_neq in En. simpl.
  pose proof (Matches_consumed _ _ _ M) as Hcons. cbn [rest] in Hcons.
  destruct (article_ends_blank _ _ M) as (w & c & Hw & Hc).
  cbn [rest] in Hw.
  assert (drop (length (consumed (MState 0 s []) st')) s = rest st') as Hd.
  { rewrite Hcons at 2. by rewrite drop_app_length. }
  rewrite Hd.
  destruct (length (consumed (MState 0 s []) st')) as [|n]; [done|].
  change (0 + S n) with (S n). unfold article_re at 1. cbn [Seq].
  rewrite (sub_anchored _ _ _ n (rest st')).
  rewrite Hw in N. by eapply spaced_once_middle.
Qed.

Lemma lstrip_id s : starts_blank s = false -> lstrip s = s.
Proof. destruct s as [|c s]; simpl; [done|]. by intros ->. Qed.

Lemma strip_id s :
  starts_blank s = false ->
  (forall t c, s = t ++ [c] -> is_space c = false) -> strip s = s.
Proof.
  intros Hb He. unfold strip, rstrip. rewrite (lstrip_id s Hb).
  rewrite lstrip_id; [apply reverse_involutive|].
  destruct (reverse s) as [|c t] eqn:E; [done|]. simpl.
  apply (He (reverse t) c). apply (f_equal reverse) in E.
  rewrite reverse_involutive in E. by rewrite E, reverse_cons.
Qed.

Lemma starts_blank_lower s : starts_blank (lower s) = starts_blank s.
Proof. destruct s as [|c s]; [done|]. simpl. apply is_space_lower. Qed.


End TitleShape.

(** ** Searching a text *)

Section Search.

Implicit Types (s t : pystr) (c : ascii) (r : regex) (st : mstate).

Lemma match_at_is_Some r i s :
  is_Some (match_at r i s) <-> exists st', Matches r (MState i s []) st'.
Proof.
  split.
  - intros [m Hm]. apply match_at_Some in Hm as (st' & M & _). by exists st'.
  - intros [st' M]. destruct (match_at r i s) eqn:E; [by eexists|].
    by destruct (match_at_None _ _ _ _ E M).
Qed.

Lemma search_from_is_Some r s : forall i,
  is_Some (search_from r i s) <->
  exists a b st', s = a ++ b /\ Matches r (MState (i + length a) b []) st'.
Proof.
  induction s as [|c s IH]; intros i; simpl.
  - destruct (match_at r i []) as [m|] eqn:E.
    + split; [intros _|by eexists].
      apply match_at_Some in E as (st' & M & _).
      exists [], [], st'. simpl. by rewrite Nat.add_0_r.
    + split; [by intros [? ?]|]. intros (a & b & st' & Hs & M).
      symmetry in Hs. apply app_eq_nil in Hs as [-> ->]. simpl in M.
      rewrite Nat.add_0_r in M. by destruct (match_at_None _ _ _ _ E M).
  - destruct (match_at r i (c :: s)) as [m|] eqn:E.
    + split; [intros _|by eexists].
      apply match_at_Some in E as (st' & M & _).
      exists [], (c :: s), st'. simpl. by rewrite Nat.add_0_r.
    + rewrite IH. split.
      * intros (a & b & st' & -> & M). exists (c :: a), b, st'.
        split; [done|]. simpl. by rewrite Nat.add_succ_r.
      * intros (a & b & st' & Hs & M). destruct a as [|c' a].
        -- simpl in *. subst b. rewrite Nat.add_0_r in M.
           by destruct (match_at_None _ _ _ _ E M).
        -- injection Hs as <- ->. exists a, b, st'. split; [done|].
           simpl in M. by rewrite Nat.add_succ_r in M.
Qed.

(** [re.search] finds a pattern when, and only when, the pattern matches
    at some offset of the text. *)
Lemma found_iff r s :
  found r s = true <->
  exists a b st', s = a ++ b /\ Matches r (MState (length a) b []) st'.
Proof.
  unfold found, re_search. rewrite bool_decide_eq_true.
  by rewrite search_from_is_Some.
Qed.

Lemma Matches_Chr_inv c st st' :
  Matches (Chr c) st st' -> rest st = c :: rest st'.
Proof.
  unfold Chr. intros M.
  inversion M as [|? ? c' s' Hr Hc| | | | | | | | | |]; subst.
  unfold char_eqb in Hc. apply Ascii.eqb_eq in Hc as ->. by rewrite Hr.
Qed.

Lemma Matches_Lit_inv w : forall st st',
  Matches (Lit w) st st' -> rest st = w ++ rest st'.
Proof.
  induction w as [|c w IH]; intros st st' M.
  - inversion M; by subst.
  - destruct w as [|c' w].
    + by apply Matches_Chr_inv in M.
    + change (Lit (c :: c' :: w)) with (Cat (Chr c) (Lit (c' :: w))) in M.
      inversion M as [| |? ? ? st1 ? M1 M2| | | | | | | | |]; subst.
      apply Matches_Chr_inv in M1. apply IH in M2.
      rewrite M1, M2. done.
Qed.

Lemma Matches_Chr c st s' :
  rest st = c :: s' -> Matches (Chr c) st (advance st s').
Proof.
  intros H. apply M_cls with (c := c); [done|].
  unfold char_eqb. apply Ascii.eqb_refl.
Qed.

Lemma Matches_Lit w : forall st t,
  rest st = w ++ t ->
  exists st', Matches (Lit w) st st' /\ rest st' = t /\
              pos st' = pos st + length w.
Proof.
  induction w as [|c w IH]; intros st t H.
  - exists st. split; [constructor|]. simpl. by rewrite Nat.add_0_r.
  - destruct w as [|c' w].
    + exists (advance st t). split; [by apply Matches_Chr|]. simpl.
      split; [done|lia].
    + destruct (IH (advance st ((c' :: w) ++ t)) t) as (st' & M & Hr & Hp);
        [done|].
      exists st'. split_and!; [|done|simpl in *; lia].
      change (Lit (c :: c' :: w)) with (Cat (Chr c) (Lit (c' :: w))).
      eapply M_cat; [|exact M]. by apply Matches_Chr.
Qed.

Lemma contains_app p a t : contains p (a ++ p ++ t) = true.
Proof.
  assert (forall q u, starts_with q (q ++ u) = true) as Hs.
  { induction q as [|c q IHq]; intros u; simpl; [done|].
    unfold char_eqb. by rewrite Ascii.eqb_refl, IHq. }
  induction a as [|c a IH].
  - change ([] ++ p ++ t) with (p ++ t). specialize (Hs p t).
    destruct (p ++ t); simpl in *; by rewrite Hs.
  - change ((c :: a) ++ p ++ t) with (c :: a ++ p ++ t). cbn [contains].
    by rewrite IH, orb_true_r.
Qed.

Lemma starts_with_app p s :
  starts_with p s = true -> exists t, s = p ++ t.
Proof.
  revert s. induction p as [|c p IH]; intros s; simpl; [by exists s|].
  destruct s as [|c' s]; [done|]. rewrite andb_true_iff. intros [Hc Hp].
  unfold char_eqb in Hc. apply Ascii.eqb_eq in Hc as ->.
  destruct (IH s Hp) as [t ->]. by exists t.
Qed.

Lemma contains_split p s :
  contains p s = true -> exists a t, s = a ++ p ++ t.
Proof.
  induction s as [|c s IH]; simpl.
  - rewrite orb_false_r. intros H%starts_with_app. destruct H as [t Ht].
    by exists [], t.
  - intros [H|H]%orb_true_iff.
    + apply starts_with_app in H as [t Ht]. by exists [], t.
    + destruct (IH H) as (a & t & ->). by exists (c :: a), t.
Qed.

End Search.

(** ** Subtitles that are kept *)

Section Subtitles.

Implicit Types (s t : pystr) (c : ascii) (r : regex) (st : mstate).

Lemma Matches_Alts_Lit (ws : list string) : forall st st',
  Matches (Alts (map (fun w : string => Lit w) ws)) st st' ->
  exists w : string, w ∈ ws /\ rest st = str w ++ rest st'.
Proof.
  induction ws as [|w ws IH]; intros st st' M.
  - simpl in M. inversion M; subst. done.
  - destruct ws as [|w' ws].
    + simpl in M. exists w. split; [apply list_elem_of_here|].
      by apply Matches_Lit_inv.
    + change (Alts (map (fun w : string => Lit w) (w :: w' :: ws)))
        with (Alt (Lit w) (Alts (map (fun w : string => Lit w) (w' :: ws))))
        in M.
      inversion M as [| | |? ? ? ? M1|? ? ? ? M1| | | | | | |]; subst.
      * exists w. split; [apply list_elem_of_here|].
        by apply Matches_Lit_inv.
      * destruct (IH _ _ M1) as (w0 & Hw0 & Hr). exists w0.
        split; [by apply list_elem_of_further|done].
Qed.

Lemma language_tag_found s :
  found language_tag_re s = true ->
  exists code : string,
    code ∈ language_codes /\ contains ("."%char :: str code) s = true.
Proof.
  intros H. apply found_iff in H as (a & b & st' & -> & M).
  unfold language_tag_re in M. cbn [Seq] in M.
  inversion M as [| |? ? ? st1 ? M1 M2| | | | | | | | |]; subst.
  inversion M2 as [| |? ? ? st2 ? M3 M4| | | | | | | | |]; subst.
  inversion M3 as [| | | | | | | | |? ? ? st3 M5| |]; subst.
  apply Matches_Chr_inv in M1.
  apply (Matches_Alts_Lit language_codes) in M5 as (code & Hcode & Hr). cbn [rest] in M1. exists code. split; [done|].
  rewrite M1, Hr.
  change ("."%char :: str code ++ rest st3)
    with (("."%char :: str code) ++ rest st3).
  apply contains_app.
Qed.

(** X11: with [keep_subtitles] on, [process_subtitles] deletes a subtitle
    file only if the lower-case form of its stem holds a dot followed by
    one of the twelve language codes. *)
Theorem X11_subtitle_deleted_only_with_tag (name : pystr) :
  keeps_subtitle true name = false ->
  exists code : string,
    code ∈ language_codes /\
    contains ("."%char :: str code) (lower (path_stem name)) = true.
Proof.
  unfold keeps_subtitle, is_preferred_subtitle. cbv zeta. simpl.
  destruct (found language_tag_re (lower (path_stem name))) eqn:E;
    [|done].
  intros _. by apply language_tag_found.
Qed.

Lemma X11_subtitle_deleted_only_with_tag_witness :
  exists code : string,
    code ∈ language_codes /\
    contains ("."%char :: str code) (lower (path_stem "Movie.spa.srt"))
    = true.
Proof.
  apply (X11_subtitle_deleted_only_with_tag "Movie.spa.srt").
  vm_compute. reflexivity.
Defined.

Lemma language_re_ending (sep : ascii) (lang : string) (base : pystr) :
  sep = "."%char \/ sep = "_"%char ->
  found (language_re lang) (base ++ sep :: str lang) = true.
Proof.
  intros Hsep. apply found_iff.
  destruct (Matches_Lit (str lang)
              (MState (S (length base)) (str lang) []) [])
    as (st' & M & Hr & Hp); [cbn [rest]; by rewrite app_nil_r|].
  exists base, (sep :: str lang), st'. split; [done|].
  unfold language_re.
  assert (Matches (Seq [Chr sep; Lit lang; Eos])
                  (MState (length base) (sep :: str lang) []) st') as Hm.
  { cbn [Seq]. eapply M_cat; [by apply Matches_Chr|].
    eapply M_cat; [exact M|]. apply M_eos. by rewrite Hr. }
  destruct Hsep as [-> | ->].
  - apply M_alt_l. exact Hm.
  - apply M_alt_r, M_alt_r, M_alt_l. exact Hm.
Qed.

(** X12: a subtitle whose stem ends in [.eng], [.en] or [.english], or in
    these codes after an underscore, counts as one of a preferred
    language, whatever else its stem holds. *)
Theorem X12_preferred_ending_kept :
  Forall (fun ending : string =>
            forall base : pystr,
              is_preferred_subtitle (base ++ str ending) = true)
         preferred_endings.
Proof.
  assert (forall (sep : ascii) (lang : string) (base : pystr),
            sep = "."%char \/ sep = "_"%char ->
            lang ∈ preferred_subtitle_languages ->
            lower (sep :: str lang) = sep :: str lang ->
            is_preferred_subtitle (base ++ sep :: str lang) = true) as H.
  { intros sep lang base Hsep Hlang Hlow.
    unfold is_preferred_subtitle. cbv zeta.
    rewrite lower_app, Hlow.
    assert (existsb (fun l : string =>
                       found (language_re l) (lower base ++ sep :: str lang))
                    preferred_subtitle_languages = true) as ->.
    { apply existsb_exists. exists lang. split.
      - by apply list_elem_of_In.
      - by apply language_re_ending. }
    by destruct (negb _). }
  unfold preferred_endings, preferred_subtitle_languages in *.
  repeat constructor; intros base.
  - apply (H "."%char "eng"%string); [by left| |done].
    repeat first [apply list_elem_of_here | apply list_elem_of_further].
  - apply (H "."%char "en"%string); [by left| |done].
    repeat first [apply list_elem_of_here | apply list_elem_of_further].
  - apply (H "."%char "english"%string); [by left| |done].
    repeat first [apply list_elem_of_here | apply list_elem_of_further].
  - apply (H "_"%char "eng"%string); [by right| |done].
    repeat first [apply list_elem_of_here | apply list_elem_of_further].
  - apply (H "_"%char "en"%string); [by right| |done].
    repeat first [apply list_elem_of_here | apply list_elem_of_further].
  - apply (H "_"%char "english"%string); [by right| |done].
    repeat first [apply list_elem_of_here | apply list_elem_of_further].
Qed.

End Subtitles.

(** ** HDR formats *)

Section HdrFormat.

Implicit Types (cli : mediainfo) (s t : pystr).

Ltac in_list :=
  solve [repeat first [apply list_elem_of_here | apply list_elem_of_further]].

Lemma normalize_hdr_format_cases format :
  normalize_hdr_format format ∈ hdr_labels \/
  normalize_hdr_format format = format.
Proof.
  unfold normalize_hdr_format, hdr_labels.
  repeat match goal with
         | |- context [if ?b then _ else _] => destruct b
         end;
    try (left; in_list).
  by right.
Qed.

Lemma stdout_field_Some stdout f :
  stdout_field stdout = Some f -> f = strip stdout /\ f <> [].
Proof.
  unfold stdout_field. destruct (strip stdout) as [|c t] eqn:E; simpl;
    [done|]. by intros [= <-].
Qed.

Lemma hdr_format_of_cases format transfer primaries c f :
  hdr_format_of format transfer primaries = Some (c :: f) ->
  (c :: f) ∈ hdr_labels \/ format = Some (c :: f).
Proof.
  unfold hdr_format_of.
  destruct format as [[|c0 f0]|].
  - destruct transfer as [[|c1 t1]|]; [| |].
    + destruct primaries as [p|]; [|done]. destruct (_ && _); [|done].
      intros [= <- <-]. left. unfold hdr_labels. in_list.
    + cbv zeta. destruct (_ || _).
      * intros [= <- <-]. left. unfold hdr_labels. in_list.
      * destruct (contains "HLG" _); [|done].
        intros [= <- <-]. left. unfold hdr_labels. in_list.
    + destruct primaries as [p|]; [|done]. destruct (_ && _); [|done].
      intros [= <- <-]. left. unfold hdr_labels. in_list.
  - intros [= H]. destruct (normalize_hdr_format_cases (c0 :: f0)) as [Hl|He].
    + left. by rewrite <- H.
    + right. by rewrite <- H, He.
  - destruct transfer as [[|c1 t1]|]; [| |].
    + destruct primaries as [p|]; [|done]. destruct (_ && _); [|done].
      intros [= <- <-]. left. unfold hdr_labels. in_list.
    + cbv zeta. destruct (_ || _).
      * intros [= <- <-]. left. unfold hdr_labels. in_list.
      * destruct (contains "HLG" _); [|done].
        intros [= <- <-]. left. unfold hdr_labels. in_list.
    + destruct primaries as [p|]; [|done]. destruct (_ && _); [|done].
      intros [= <- <-]. left. unfold hdr_labels. in_list.
Qed.

(** X13: [get_mediainfo_hdr_format] never raises.  A result it returns
    names a format, which is one of the five names it knows or else the
    text MediaInfo printed for [HDR_Format], stripped; it was made without
    an error and logs nothing.  When it returns no result, it has logged
    nothing, or one warning for the error that one of its three runs of
    MediaInfo raised. *)
Theorem X13_hdr_format_result (cli : mediainfo) :
  match get_mediainfo_hdr_format cli with
  | (Some info, log) =>
      log = [] /\ mediainfo_installed cli = true /\
      hi_profile info = None /\ hi_compatibility info = None /\
      exists format,
        hi_format info = Some format /\ format <> [] /\
        (format ∈ hdr_labels \/
         exists stdout, mediainfo_inform cli inform_hdr_format = Ok stdout /\
                        format = strip stdout)
  | (None, log) =>
      log = [] \/
      exists e template,
        log = [LogWarning "Error getting HDR format" e] /\
        mediainfo_installed cli = true /\
        mediainfo_inform cli template = Raise e
  end.
Proof.
  unfold get_mediainfo_hdr_format.
  destruct (mediainfo_installed cli); simpl; [|by left].
  unfold hdr_format_body.
  destruct (mediainfo_inform cli inform_hdr_format) as [o1|e1] eqn:E1;
    simpl; [|right; by exists e1, inform_hdr_format].
  destruct (mediainfo_inform cli inform_transfer) as [o2|e2] eqn:E2;
    simpl; [|right; by exists e2, inform_transfer].
  destruct (mediainfo_inform cli inform_primaries) as [o3|e3] eqn:E3;
    simpl; [|right; by exists e3, inform_primaries].
  destruct (hdr_format_of _ _ _) as [[|c f]|] eqn:E; [by left| |by left].
  split_and!; try done. exists (c :: f). split_and!; try done.
  apply hdr_format_of_cases in E as [Hl|He]; [by left|right].
  exists o1. split; [done|]. by apply stdout_field_Some in He as [-> _].
Qed.

(** X14: when MediaInfo prints no [HDR_Format] but does print transfer
    characteristics, and these name neither PQ, SMPTE ST 2084 nor HLG,
    then [get_mediainfo_hdr_format] returns no result, whatever the colour
    primaries are: BT.2020 primaries are looked at only when no transfer
    characteristics are printed. *)
Theorem X14_transfer_hides_primaries (cli : mediainfo)
        (format transfer primaries : pystr) :
  mediainfo_installed cli = true ->
  mediainfo_inform cli inform_hdr_format = Ok format ->
  mediainfo_inform cli inform_transfer = Ok transfer ->
  mediainfo_inform cli inform_primaries = Ok primaries ->
  strip format = [] -> strip transfer <> [] ->
  contains_any [str "PQ"; str "SMPTE ST 2084"; str "HLG"] (strip transfer)
  = false ->
  get_mediainfo_hdr_format cli = (None, []).
Proof.
  intros Hi H1 H2 H3 Hf Ht Hc.
  assert (hdr_format_of (stdout_field format) (stdout_field transfer)
                        (stdout_field primaries) = None) as Hnone.
  { unfold stdout_field at 1 2. rewrite Hf. cbn [truthy].
    destruct (strip transfer) as [|c t] eqn:E; [done|]. cbn [truthy].
    unfold contains_any in Hc. cbn [existsb] in Hc.
    apply orb_false_iff in Hc as [Hc1 Hc].
    apply orb_false_iff in Hc as [Hc2 Hc].
    apply orb_false_iff in Hc as [Hc3 _].
    unfold hdr_format_of. cbv zeta. by rewrite Hc1, Hc2, Hc3. }
  unfold get_mediainfo_hdr_format. rewrite Hi. cbn [negb].
  unfold hdr_format_body. rewrite H1, H2, H3.
  cbn [mbind result_bind]. cbv zeta. by rewrite Hnone.
Qed.

Lemma X14_transfer_hides_primaries_witness :
  get_mediainfo_hdr_format (printing "" "BT.709" "BT.2020") = (None, []).
Proof.
  apply (X14_transfer_hides_primaries (printing "" "BT.709" "BT.2020")
           (str "") (str "BT.709") (str "BT.2020"));
    try (vm_compute; reflexivity).
  vm_compute. discriminate.
Defined.

Example hdr_from_primaries :
  (get_mediainfo_hdr_format (printing "" "" "BT.2020")).1
  = Some (HdrInfo (Some (str "HDR")) None None (Some (str "BT.2020")) None).
Proof. vm_compute. reflexivity. Qed.

End HdrFormat.

(** ** Cleaned folder names *)

Section FolderNames.

Implicit Types (s t : pystr) (c : ascii) (r : regex) (st : mstate).

Lemma lacks_Forall c s :
  lacks c s = true <-> Forall (fun x => char_eqb x c = false) s.
Proof.
  unfold lacks. rewrite forallb_forall, Forall_forall. split.
  - intros H x Hx. apply negb_true_iff, H. by apply list_elem_of_In.
  - intros H x Hx. apply negb_true_iff, H. by apply list_elem_of_In.
Qed.

Lemma contains_single c s : contains [c] s = false -> lacks c s = true.
Proof.
  induction s as [|x s IH]; simpl; [done|].
  rewrite andb_true_r. intros [H1 H2]%orb_false_iff.
  unfold char_eqb in *. rewrite Ascii.eqb_sym, H1. simpl. by apply IH.
Qed.

Lemma lacks_sublist c a s b : lacks c (a ++ s ++ b) = true -> lacks c s = true.
Proof.
  rewrite !lacks_app. intros H. apply andb_true_iff in H as [_ H].
  by apply andb_true_iff in H as [H _].
Qed.

(** After [# Replace dots with spaces] no dot is left. *)
Lemma spaces_for_dots_lacks s : lacks dot (spaces_for_dots s) = true.
Proof.
  unfold spaces_for_dots. destruct (contains "." s) eqn:E;
    [|by apply contains_single].
  cbv zeta. set (t1 := re_sub (Chr ".") " " s).
  assert (Forall (fun x => char_eqb x dot = false) t1) as H1.
  { apply re_sub_Cls_Forall; [by repeat constructor|].
    intros c _ Hc. cbv beta in Hc. unfold char_eqb in *.
    by rewrite Ascii.eqb_sym. }
  set (t2 := re_sub (Plus Space) " " t1).
  destruct (sub_spaces (S (length t1)) 0 t1) as (H3 & _ & _); [lia|].
  change (sub_from (S (length t1)) (Plus Space) blank 0 t1) with t2 in H3.
  destruct (strip_sublist t2) as (a & b & Hs).
  apply (lacks_sublist _ a _ b). rewrite <- Hs. apply lacks_Forall.
  eapply Forall_impl; [exact H3|]. intros c [->|[Hc _]]; [done|].
  rewrite Forall_forall in H1. by apply H1.
Qed.

(** What a match captures is made of characters of the text. *)
Lemma Matches_caps_Forall (Q : ascii -> Prop) r st st' :
  Matches r st st' -> Forall Q (rest st) ->
  (forall n t, lookup_group n (caps st) = Some t -> Forall Q t) ->
  forall n t, lookup_group n (caps st') = Some t -> Forall Q t.
Proof.
  intros M. induction M; intros Hq Hc k t Hk; eauto.
  - eapply IHM2; [| |exact Hk].
    + pose proof (Matches_suffix _ _ _ M1) as [w Hw].
      rewrite Hw in Hq. by apply Forall_app in Hq as [_ Hq].
    + intros k' t' Hk'. by eapply IHM1.
  - eapply IHM2; [| |exact Hk].
    + pose proof (Matches_suffix _ _ _ M1) as [w Hw].
      rewrite Hw in Hq. by apply Forall_app in Hq as [_ Hq].
    + intros k' t' Hk'. by eapply IHM1.
  - eapply IHM2; [| |exact Hk].
    + pose proof (Matches_suffix _ _ _ M1) as [w Hw].
      rewrite Hw in Hq. by apply Forall_app in Hq as [_ Hq].
    + intros k' t' Hk'. by eapply IHM1.
  - simpl in Hk. destruct (n =? k).
    + injection Hk as <-. unfold consumed. by apply Forall_take.
    + by eapply IHM.
Qed.

Lemma match_at_group_Forall (Q : ascii -> Prop) r i s m n :
  match_at r i s = Some m -> Forall Q s -> Forall Q (group_of m n).
Proof.
  intros Hm Hs. apply match_at_Some in Hm as (st' & M & ->).
  unfold group_of, group. cbn [m_caps].
  destruct (lookup_group n (caps st')) as [t|] eqn:E; simpl; [|done].
  eapply (Matches_caps_Forall Q _ _ _ M); [done| |exact E]. done.
Qed.

(** Replacing by a template: what is left are characters of the text and
    of the replacements. *)
Lemma sub_with_Forall (Q : ascii -> Prop) r repl fuel : forall i s,
  Forall Q s ->
  (forall i t m, match_at r i t = Some m -> Forall Q t ->
                 Forall Q (repl m)) ->
  Forall Q (sub_with_from fuel r repl i s).
Proof.
  induction fuel as [|fuel IH]; intros i s Hs Hrepl; [done|].
  cbn [sub_with_from]. cbv zeta.
  assert (Forall Q match s with
                   | [] => []
                   | c :: s' => c :: sub_with_from fuel r repl (S i) s'
                   end) as Hskip.
  { destruct s as [|c s']; [done|]. inversion Hs; subst.
    constructor; [done|]. by apply IH. }
  destruct (match_at r i s) as [m|] eqn:E; [|done].
  destruct (length (m_text m) =? 0).
  - apply Forall_app. split; [by eapply Hrepl|done].
  - apply Forall_app. split; [by eapply Hrepl|].
    apply IH; [by apply Forall_drop|done].
Qed.

Lemma parenthesize_year_lacks s :
  lacks dot s = true -> lacks dot (parenthesize_year s) = true.
Proof.
  intros Hs. unfold parenthesize_year.
  destruct (re_search trailing_year_re s); [|done].
  apply lacks_Forall. apply sub_with_Forall; [by apply lacks_Forall|].
  intros i t m Hm Ht. unfold in_parentheses.
  apply Forall_app. split; [by repeat constructor|].
  apply Forall_app. split; [|by repeat constructor].
  by eapply match_at_group_Forall.
Qed.

Lemma two_dots_found s : found two_dots_re s = true -> lacks dot s = false.
Proof.
  intros H. apply found_iff in H as (a & b & st' & -> & M).
  unfold two_dots_re in M. cbn [Seq] in M.
  inversion M as [| |? ? ? st1 ? M1 M2| | | | | | | | |]; subst.
  apply Matches_Chr_inv in M1. cbn [rest] in M1. rewrite M1, lacks_app.
  unfold lacks at 2. cbn [forallb]. unfold char_eqb, dot.
  rewrite Ascii.eqb_refl. cbn [negb andb]. apply andb_false_r.
Qed.

(** X15: the name [clean_folder_names] computes for a folder holds no
    dot; so [health_check] does not report [Contains dots] for a folder
    that carries this name. *)
Theorem X15_clean_name_has_no_dot (folder_name : pystr) (movies : bool) :
  lacks dot (clean_name folder_name) = true /\
  ContainsDots ∉ naming_issues movies (clean_name folder_name).
Proof.
  assert (lacks dot (clean_name folder_name) = true) as H.
  { unfold clean_name. cbv zeta.
    apply parenthesize_year_lacks, spaces_for_dots_lacks. }
  split; [done|]. unfold naming_issues.
  destruct (found two_dots_re (clean_name folder_name)) eqn:E.
  - apply two_dots_found in E. congruence.
  - cbn [andb app].
    destruct (movies && _); [|apply not_elem_of_nil].
    intros Hin. apply list_elem_of_singleton in Hin. done.
Qed.

End FolderNames.

(** ** Names that match a pattern *)

Section Patterns.

Implicit Types (s t w : pystr) (c : ascii) (r : regex) (st : mstate).

Lemma translate_plain w t :
  forallb plain w = true ->
  translate (w ++ t) = word_then w <$> translate t.
Proof.
  induction w as [|c w IH]; intros Hw.
  - simpl. by destruct (translate t).
  - cbn [forallb] in Hw. apply andb_true_iff in Hw as [Hc Hw].
    cbn [app translate]. rewrite (IH Hw).
    unfold plain in Hc. rewrite !andb_true_iff, !negb_true_iff in Hc.
    destruct Hc as [[H1 H2] H3].
    destruct (translate t); cbn; [|done]. by rewrite H1, H2, H3.
Qed.

Lemma Matches_word_then_inv w r : forall st st',
  Matches (word_then w r) st st' ->
  exists st1, rest st = w ++ rest st1 /\ Matches r st1 st'.
Proof.
  induction w as [|c w IH]; intros st st' M.
  - by exists st.
  - cbn [word_then foldr] in M.
    inversion M as [| |? ? ? sta ? Ma Mb| | | | | | | | |]; subst.
    apply Matches_Chr_inv in Ma. apply IH in Mb as (st1 & E & M1).
    exists st1. split; [|done]. by rewrite Ma, E.
Qed.

Lemma Matches_word_then w r : forall st t st',
  rest st = w ++ t ->
  Matches r (MState (pos st + length w) t (caps st)) st' ->
  Matches (word_then w r) st st'.
Proof.
  induction w as [|c w IH]; intros st t st' E M.
  - cbn [app length] in *. rewrite Nat.add_0_r in M.
    destruct st as [i s cs]. cbn [pos rest caps] in *. by subst.
  - cbn [word_then foldr]. eapply M_cat.
    + by apply (Matches_Chr c st (w ++ t)).
    + apply (IH _ t); [done|]. cbn [advance pos caps length] in *.
      by rewrite Nat.add_succ_r in M.
Qed.

(** [.*] under DOTALL takes any run of characters. *)
Lemma star_any_char a : forall i t cs,
  Matches (Star any_char) (MState i (a ++ t) cs) (MState (i + length a) t cs).
Proof.
  induction a as [|c a IH]; intros i t cs.
  - cbn [app length]. rewrite Nat.add_0_r. constructor.
  - eapply M_star_step with (st1 := MState (S i) (a ++ t) cs).
    + by apply (M_cls _ (MState i ((c :: a) ++ t) cs) c (a ++ t)).
    + cbn [rest app length]. lia.
    + cbn [length]. rewrite Nat.add_succ_r. apply IH.
Qed.

(** The pattern [*w*], for a word without special characters: the names
    that hold the word. *)
Lemma fnmatch_word w name :
  forallb plain w = true ->
  fnmatch name ("*"%char :: w ++ str "*") = Some (contains w name).
Proof.
  intros Hw. unfold fnmatch. cbn [translate].
  rewrite (translate_plain w "*" Hw).
  change (translate (str "*")) with (Some (Cat (Star any_char) Eps)).
  cbn [fmap option_fmap option_map mbind option_bind].
  change (char_eqb "*" "*") with true. cbv iota.
  cbn [mbind option_bind]. f_equal. destruct (contains w name) eqn:Ec.
  - apply bool_decide_eq_true_2.
    apply contains_split in Ec as (a & t & ->).
    destruct (rmatch _ _ at_end) as [res|] eqn:E; [by eexists|].
    exfalso.
    assert (Matches (Cat (Star any_char)
                         (word_then w (Cat (Star any_char) Eps)))
                    (MState 0 (a ++ w ++ t) [])
                    (MState (length a + length w + length t) [] []))
      as M.
    { eapply M_cat; [apply (star_any_char a 0 (w ++ t) [])|].
      apply (Matches_word_then _ _ _ t); [done|]. cbn [pos caps].
      eapply M_cat; [|apply M_eps].
      rewrite <- (app_nil_r t) at 1. apply star_any_char. }
    by pose proof (rmatch_complete _ _ _ E _ M).
  - apply bool_decide_eq_false_2. intros [res H].
    apply rmatch_Cat in H as (st1 & M1 & H).
    apply rmatch_sound in H as (st2 & M2 & _).
    apply Matches_word_then_inv in M2 as (st3 & E & M3).
    apply Matches_suffix in M1 as [a Ha]. cbn [rest] in Ha.
    rewrite Ha, E, contains_app in Ec. done.
Qed.

Lemma contains_lower w s :
  contains w s = true -> contains (lower w) (lower s) = true.
Proof.
  intros (a & t & ->)%contains_split.
  unfold lower. rewrite !map_app. apply contains_app.
Qed.

Lemma str_append (u v : string) : str (u +:+ v) = str u ++ str v.
Proof.
  unfold str. induction u as [|c u IH]; [done|]. simpl. by f_equal.
Qed.

(** One round of [for pattern in patterns], for a pattern [*w*]. *)
Lemma matches_pattern_word (w : string) patterns name :
  forallb plain (str w) = true -> forallb plain (lower w) = true ->
  matches_pattern name (String "*" (w ++ "*") :: patterns)
  = if contains (lower w) (lower name) then Some true
    else matches_pattern name patterns.
Proof.
  intros Hw Hl. cbn [matches_pattern].
  assert (str (String "*" (w ++ "*")) = "*"%char :: str w ++ str "*") as ->.
  { change (String "*" (w +:+ "*")) with ("*" +:+ (w +:+ "*"))%string.
    by rewrite !str_append. }
  rewrite (fnmatch_word w name Hw).
  assert (lower ("*"%char :: str w ++ str "*")
          = "*"%char :: lower w ++ str "*") as ->.
  { unfold lower. cbn [map]. by rewrite map_app. }
  rewrite (fnmatch_word (lower w) (lower name) Hl).
  cbn [mbind option_bind].
  destruct (contains w name) eqn:E.
  - apply contains_lower in E. by rewrite E.
  - by destruct (contains (lower w) (lower name)).
Qed.

(** X16: [matches_pattern] with the patterns of the configuration for
    unnecessary files tells the names whose lower-case form holds one of
    the words [sample], [proof], [screens], [rarbg], [www]: the test of
    the name as it is written adds nothing to the test of its lower-case
    form. *)
Theorem X16_unnecessary_names (name : pystr) :
  matches_pattern name unnecessary_patterns
  = Some (contains_any unnecessary_words (lower name)).
Proof.
  unfold unnecessary_patterns, unnecessary_words, contains_any.
  cbn [existsb].
  rewrite (matches_pattern_word "Sample") by done.
  destruct (contains _ (lower name)); [done|].
  rewrite (matches_pattern_word "Proof") by done.
  destruct (contains _ (lower name)); [done|].
  rewrite (matches_pattern_word "Screens") by done.
  destruct (contains _ (lower name)); [done|].
  rewrite (matches_pattern_word "RARBG") by done.
  destruct (contains _ (lower name)); [done|].
  rewrite (matches_pattern_word "WWW") by done.
  by destruct (contains _ (lower name)).
Qed.

(** A film whose title holds one of the words is taken for unnecessary. *)
Example bulletproof_is_unnecessary :
  matches_pattern "Bulletproof (1996)" unnecessary_patterns = Some true.
Proof. vm_compute. reflexivity. Qed.

End Patterns.

(** ** Passes of the retry *)

Section RetryPass.

Context {files : Type} {F : FileSystem files}.
Variable retry_count retry_delay_seconds : nat.

Implicit Types (st : @retry_state files) (op : failed_operation)
         (ops : list failed_operation).

Lemma pass_fold ops fs n :
  retry_failed_operations retry_count retry_delay_seconds ops fs n
  = foldl (retry_one retry_count retry_delay_seconds)
          (RetryState fs [] n []) ops.
Proof. by destruct ops. Qed.

(** One round: the operation is kept as it is when it has used up its
    retries, dropped and counted when the attempt succeeds, and kept with
    one more retry and the new error when the attempt fails. *)
Lemma retry_one_spec st op :
  let st' := retry_one retry_count retry_delay_seconds st op in
  (retry_count <= fo_retry_count op /\
   st' = RetryState (rs_files st) (rs_still_failed st ++ [op])
                    (rs_operations_retried st) (rs_slept st)) \/
  (fo_retry_count op < retry_count /\
   rs_slept st'
   = rs_slept st ++ [retry_delay_seconds * 2 ^ fo_retry_count op] /\
   ((rs_still_failed st' = rs_still_failed st /\
     rs_operations_retried st' = rs_operations_retried st + 1) \/
    (exists e,
       rs_still_failed st'
       = rs_still_failed st
           ++ [FailedOperation (fo_operation op) e (fo_retry_count op + 1)]
       /\ rs_operations_retried st' = rs_operations_retried st))).
Proof.
  cbv zeta. unfold retry_one.
  destruct (retry_count <=? fo_retry_count op) eqn:E.
  - left. by apply Nat.leb_le in E.
  - right. apply Nat.leb_gt in E. split; [done|]. cbv zeta.
    replace (fo_retry_count op + 1 - 1) with (fo_retry_count op) by lia.
    destruct (attempt _ _) as [fs [e|]];
      cbn [rs_files rs_slept rs_still_failed rs_operations_retried];
      (split; [reflexivity|]).
    + right. exists e. by split.
    + left. by split.
Qed.

(** The rounds of a pass, from any state. *)
Lemma retry_fold_spec ops : forall st,
  let st' := foldl (retry_one retry_count retry_delay_seconds) st ops in
  exists kept slept,
    rs_still_failed st' = rs_still_failed st ++ kept /\
    rs_slept st' = rs_slept st ++ slept /\
    length kept + rs_operations_retried st'
    = length ops + rs_operations_retried st /\
    fo_operation <$> kept `sublist_of` fo_operation <$> ops /\
    Forall (fun op => op ∈ ops \/ fo_retry_count op <= retry_count) kept /\
    Forall (fun d => exists k, k < retry_count /\
                               d = retry_delay_seconds * 2 ^ k) slept /\
    length slept <= length ops.
Proof.
  induction ops as [|op ops IH]; intros st; cbv zeta.
  - exists [], []. cbn. rewrite !app_nil_r. split_and!; try done.
  - cbn [foldl].
    destruct (IH (retry_one retry_count retry_delay_seconds st op))
      as (kept & slept & Hk & Hs & Hn & Hsub & Hall & Hsl & Hlen).
    rewrite Hk, Hs.
    destruct (retry_one_spec st op)
      as [[Hle H1]|(Hlt & Hs1 & [[Hk1 Hn1]|(e & Hk1 & Hn1)])].
    + exists (op :: kept), slept. rewrite H1 in *.
      cbn [rs_still_failed rs_slept rs_operations_retried] in *.
      rewrite <- app_assoc. split_and!; try done.
      * cbn [length] in *. lia.
      * cbn [fmap list_fmap]. by apply sublist_skip.
      * constructor; [left; left|].
        eapply Forall_impl; [exact Hall|]. intros o [?|?]; [|by right].
        left. by right.
      * cbn [length]. lia.
    + exists kept, (retry_delay_seconds * 2 ^ fo_retry_count op :: slept).
      rewrite Hk1, Hs1, <- app_assoc. split_and!; try done.
      * cbn [length]. lia.
      * cbn [fmap list_fmap]. by apply sublist_cons.
      * eapply Forall_impl; [exact Hall|]. intros o [?|?]; [|by right].
        left. by right.
      * constructor; [by eexists|done].
      * cbn [length]. lia.
    + exists (FailedOperation (fo_operation op) e (fo_retry_count op + 1)
                :: kept),
             (retry_delay_seconds * 2 ^ fo_retry_count op :: slept).
      rewrite Hk1, Hs1, <- !app_assoc. split_and!; try done.
      * cbn [length]. lia.
      * cbn [fmap list_fmap fo_operation]. by apply sublist_skip.
      * constructor; [right; cbn; lia|].
        eapply Forall_impl; [exact Hall|]. intros o [?|?]; [|by right].
        left. by right.
      * constructor; [by eexists|done].
      * cbn [length]. lia.
Qed.

(** X17: a pass of [retry_failed_operations] accounts for every failed
    operation, whatever the file system does: an operation is either still
    in the list, or counted in [stats.operations_retried]; the operations
    that are still in the list are operations of the list before, in their
    order; each of them is an entry that was left as it was, or has at
    most [retry_count] retries; the pass sleeps at most once for each
    operation, each time [retry_delay_seconds] times a power of two below
    2 to the [retry_count]. *)
Theorem X17_retry_pass_accounts ops fs n :
  let st := retry_failed_operations retry_count retry_delay_seconds
                                    ops fs n in
  length (rs_still_failed st) + rs_operations_retried st = length ops + n /\
  fo_operation <$> rs_still_failed st `sublist_of` fo_operation <$> ops /\
  Forall (fun op => op ∈ ops \/ fo_retry_count op <= retry_count)
         (rs_still_failed st) /\
  Forall (fun d => exists k, k < retry_count /\
                             d = retry_delay_seconds * 2 ^ k) (rs_slept st) /\
  length (rs_slept st) <= length ops.
Proof.
  cbv zeta. rewrite pass_fold.
  destruct (retry_fold_spec ops (RetryState fs [] n []))
    as (kept & slept & Hk & Hs & Hn & Hsub & Hall & Hsl & Hlen).
  rewrite Hk, Hs. cbn [rs_still_failed rs_slept rs_operations_retried] in *.
  cbn [app]. done.
Qed.

Lemma retry_fold_exhausted ops : forall st,
  Forall (fun op => retry_count <= fo_retry_count op) ops ->
  foldl (retry_one retry_count retry_delay_seconds) st ops
  = RetryState (rs_files st) (rs_still_failed st ++ ops)
               (rs_operations_retried st) (rs_slept st).
Proof.
  induction ops as [|op ops IH]; intros st Hall.
  - cbn. rewrite app_nil_r. by destruct st.
  - inversion Hall as [|? ? Hop Hops]; subst. cbn [foldl].
    rewrite (IH _ Hops). unfold retry_one.
    apply Nat.leb_le in Hop. rewrite Hop. cbn.
    by rewrite <- app_assoc.
Qed.

(** X18: a pass over operations that have all used up their retries does
    nothing: no call on the file system, no sleep, and the list of failed
    operations and the statistics are as before. *)
Theorem X18_retry_pass_exhausted ops fs n :
  Forall (fun op => retry_count <= fo_retry_count op) ops ->
  retry_failed_operations retry_count retry_delay_seconds ops fs n
  = RetryState fs ops n [].
Proof.
  intros Hall. rewrite pass_fold. by rewrite retry_fold_exhausted.
Qed.

Lemma retry_fold_counts k ops : forall st,
  k < retry_count ->
  Forall (fun op => fo_retry_count op = k) ops ->
  Forall (fun op => fo_retry_count op = k + 1) (rs_still_failed st) ->
  Forall (fun op => fo_retry_count op = k + 1)
         (rs_still_failed
            (foldl (retry_one retry_count retry_delay_seconds) st ops)).
Proof.
  induction ops as [|op ops IH]; intros st Hk Hall Hst; [done|].
  inversion Hall as [|? ? Hop Hops]; subst. cbn [foldl].
  apply IH; [done..|].
  destruct (retry_one_spec st op)
    as [[Hle _]|(_ & _ & [[-> _]|(e & -> & _)])]; [lia|done|].
  apply Forall_app. split; [done|]. by repeat constructor.
Qed.

Lemma retry_passes_counts m : forall k ops fs n,
  k + m = retry_count ->
  Forall (fun op => fo_retry_count op = k) ops ->
  Forall (fun op => fo_retry_count op = retry_count)
         (rs_still_failed
            (retry_passes retry_count retry_delay_seconds m ops fs n)).
Proof.
  induction m as [|m IH]; intros k ops fs n Hk Hall.
  - cbn. rewrite Nat.add_0_r in Hk. by subst.
  - cbn [retry_passes rs_still_failed]. apply (IH (k + 1)); [lia|].
    rewrite pass_fold. apply retry_fold_counts; [lia|done|done].
Qed.

(** X19: after [retry_count] passes over operations that were not retried
    before, every operation that is still in the list has used up its
    retries, and one more pass does nothing. *)
Theorem X19_retries_run_out ops fs n :
  Forall (fun op => fo_retry_count op = 0) ops ->
  let st := retry_passes retry_count retry_delay_seconds retry_count
                         ops fs n in
  Forall (fun op => fo_retry_count op = retry_count) (rs_still_failed st) /\
  retry_failed_operations retry_count retry_delay_seconds
    (rs_still_failed st) (rs_files st) (rs_operations_retried st)
  = RetryState (rs_files st) (rs_still_failed st)
               (rs_operations_retried st) [].
Proof.
  intros Hall st.
  assert (Forall (fun op => fo_retry_count op = retry_count)
                 (rs_still_failed st)) as H
      by (by apply (retry_passes_counts retry_count 0)).
  split; [done|]. rewrite pass_fold, retry_fold_exhausted; [done|].
  eapply Forall_impl; [exact H|]. intros op ->. done.
Qed.

End RetryPass.

Lemma X18_retry_pass_exhausted_witness :
  retry_failed_operations (F := busy_files) 3 2
    [FailedOperation (Delete "/library/Sample") "busy" 3] tt 0
  = RetryState tt [FailedOperation (Delete "/library/Sample") "busy" 3] 0 [].
Proof.
  apply (X18_retry_pass_exhausted (F := busy_files) 3 2).
  repeat constructor.
Defined.

Lemma X19_retries_run_out_witness :
  let st := retry_passes (F := busy_files) 3 2 3
              [FailedOperation (Delete "/library/Sample") "in use" 0] tt 0 in
  Forall (fun op => fo_retry_count op = 3) (rs_still_failed st) /\
  retry_failed_operations (F := busy_files) 3 2
    (rs_still_failed st) (rs_files st) (rs_operations_retried st)
  = RetryState (rs_files st) (rs_still_failed st)
               (rs_operations_retried st) [].
Proof.
  apply (X19_retries_run_out (F := busy_files) 3 2).
  repeat constructor.
Defined.

(** Passes over an operation that keeps failing: the waits are 2, 4 and 8
    seconds, and a fourth pass does not wait. *)
Example retry_waits :
  rs_slept (retry_passes (F := busy_files) 3 2 4
              [FailedOperation (Delete "/library/Sample") "in use" 0] tt 0)
  = [2; 4; 8].
Proof. vm_compute. reflexivity. Qed.

(** ** Codec labels and the transcoding check *)

Section CodecLabels.

Implicit Types (q : quality) (p : probe) (filename s : pystr).

Ltac branches :=
  repeat match goal with
         | |- context [if ?b then _ else _] => destruct b
         | |- context [match ?x with _ => _ end] => destruct x
         end.

Ltac in_list :=
  solve [repeat first [apply list_elem_of_here | apply list_elem_of_further]].

Lemma codec_measured_resolution mi q :
  codec (measured_resolution mi q) = codec q.
Proof. unfold measured_resolution. cbv zeta. branches; reflexivity. Qed.

Lemma codec_measured_audio mi q : codec (measured_audio mi q) = codec q.
Proof. unfold measured_audio. cbv zeta. branches; reflexivity. Qed.

Lemma codec_measured_hdr mi h q : codec (measured_hdr mi h q) = codec q.
Proof. unfold measured_hdr. cbv zeta. branches; reflexivity. Qed.

Lemma codec_measured_bitrate q : codec (measured_bitrate q) = codec q.
Proof. unfold measured_bitrate. branches; reflexivity. Qed.

Lemma codec_filename_resolution s q :
  codec (filename_resolution s q) = codec q.
Proof. unfold filename_resolution. branches; reflexivity. Qed.

Lemma codec_filename_audio s q : codec (filename_audio s q) = codec q.
Proof. unfold filename_audio. branches; reflexivity. Qed.

Lemma codec_filename_hdr s q : codec (filename_hdr s q) = codec q.
Proof. unfold filename_hdr, hdr_as. branches; reflexivity. Qed.

Lemma codec_score_source filename q :
  codec (score_source filename q) = codec q.
Proof. unfold score_source. cbv zeta. branches; reflexivity. Qed.

(** The codec label of a quality: one of the labels of the scorer, or the
    codec as MediaInfo names it, which then none of the patterns of the
    scorer finds. *)
Lemma codec_label_cases filename p :
  let c := codec (get_quality_score filename p) in
  c ∈ codec_labels \/ first_found codec_map c = None.
Proof.
  cbv zeta. unfold get_quality_score. rewrite codec_score_source.
  unfold score_attributes. destruct (probe_info p) as [mi|].
  - unfold score_measured. cbv zeta.
    rewrite codec_measured_bitrate, codec_measured_hdr, codec_measured_audio.
    unfold measured_codec. cbv zeta. destruct (truthy _).
    + destruct (first_found codec_map (mi_video_codec mi))
        as [[name points]|] eqn:E.
      * left. apply first_found_in in E. cbn [codec award set_codec].
        unfold codec_map in E. cbn [fmap list_fmap snd] in E.
        rewrite !elem_of_cons, elem_of_nil in E.
        destruct_or!; try done; simplify_eq; unfold codec_labels; in_list.
      * right. done.
    + left. rewrite codec_measured_resolution. unfold codec_labels. in_list.
  - left. unfold score_filename. cbv zeta.
    rewrite codec_filename_hdr, codec_filename_audio.
    unfold filename_codec.
    branches; cbn [codec award set_codec];
      rewrite ?codec_filename_resolution; unfold codec_labels; in_list.
Qed.

(** X20: the codec label of a quality is never [DivX], [MPEG-4], [H.264]
    or [AVC], whatever the file is called and whatever MediaInfo reports;
    so the transcoding check of [codec_analysis] turns on the labels
    [XviD] and [x264] and on the container alone.  In an AVI container
    every codec but [XviD] and [x264] counts as a legacy codec. *)
Theorem X20_transcode_check_labels filename p :
  let c := codec (get_quality_score filename p) in
  Forall (fun label => c <> label) idle_labels /\
  forall container,
    check_transcode c container
    = if bool_decide (c = str "XviD") then
        TranscodeCheck true [str "Legacy codec - will transcode to H.264"]
                       ModeTranscode
      else if bool_decide (container = str "AVI") then
        if bool_decide (c = str "x264") then
          TranscodeCheck true
            [str "H.264 in AVI - will remux to MKV (no re-encoding)"]
            ModeRemux
        else
          TranscodeCheck true
            [str "AVI with legacy codec - will transcode to H.264"]
            ModeTranscode
      else TranscodeCheck false [] ModeNone.
Proof.
  intros c.
  assert (Forall (fun label => c <> label) idle_labels) as Hc.
  { destruct (codec_label_cases filename p) as [H|H]; fold c in H.
    - unfold codec_labels in H. rewrite !elem_of_cons, elem_of_nil in H.
      unfold idle_labels.
      destruct_or!; try done; rewrite H; repeat constructor; done.
    - unfold idle_labels.
      repeat constructor; intros E; rewrite E in H; vm_compute in H; done. }
  split; [done|]. intros container. unfold check_transcode.
  unfold idle_labels in Hc.
  apply Forall_cons in Hc as [H1 Hc]. apply Forall_cons in Hc as [H2 Hc].
  apply Forall_cons in Hc as [H3 Hc]. apply Forall_cons in Hc as [H4 _].
  destruct (bool_decide (c = str "XviD")) eqn:Ex.
  - apply bool_decide_eq_true in Ex. rewrite bool_decide_true; [done|].
    rewrite Ex. in_list.
  - apply bool_decide_eq_false in Ex. rewrite bool_decide_false; last first.
    { rewrite !elem_of_cons, elem_of_nil. intros H. by destruct_or!. }
    destruct (bool_decide (container = str "AVI")); [|done].
    destruct (bool_decide (c = str "x264")) eqn:E4.
    + apply bool_decide_eq_true in E4. rewrite bool_decide_true; [done|].
      rewrite E4. in_list.
    + apply bool_decide_eq_false in E4. rewrite bool_decide_false; [done|].
      rewrite !elem_of_cons, elem_of_nil. intros H. by destruct_or!.
Qed.

(** A film in 2160p and HEVC in an AVI container is queued for
    transcoding to H.264 as a legacy codec. *)
Example hevc_in_avi :
  check_transcode (codec (get_quality_score "Dune.2160p.HEVC.avi" no_probe))
                  "AVI"
  = TranscodeCheck true
      [str "AVI with legacy codec - will transcode to H.264"] ModeTranscode.
Proof. vm_compute. reflexivity. Qed.

End CodecLabels.

(** ** The year of the normaliser and the year of the health check *)

Section YearFound.

Implicit Types (s t x : pystr) (c : ascii).

Lemma first_year_has_year s : is_Some (first_year s) <-> has_year s = true.
Proof.
  induction s as [|c s IH]; cbn [first_year has_year].
  - destruct (is_year_at []) eqn:E; [done|]. split; [by intros [? ?]|done].
  - destruct (is_year_at (c :: s)); [by split; [|eexists]|]. apply IH.
Qed.

(** [re.search] with the pattern of a year finds a year token when, and
    only when, the text holds one. *)
Lemma found_year s : found year_re s = has_year s.
Proof.
  unfold found, re_search. apply eq_true_iff_eq.
  rewrite bool_decide_eq_true, <- first_year_has_year, <- (search_year s 0).
  by rewrite fmap_is_Some.
Qed.

Lemma split_on_first sep s : forall w ws,
  split_on sep s = w :: ws -> w `prefix_of` s.
Proof.
  induction s as [|c s IH]; intros w ws; cbn [split_on].
  - intros [= <- <-]. done.
  - destruct (split_on sep s) as [|w' ws'] eqn:E.
    + intros [= <- <-]. apply prefix_nil.
    + destruct (char_eqb c sep).
      * intros [= <- <-]. apply prefix_nil.
      * intros [= <- <-]. apply prefix_cons. by apply (IH w' ws').
Qed.

(** Every part of a text that was split is a piece of the text. *)
Lemma split_on_piece sep s : forall x,
  x ∈ split_on sep s -> exists a b, s = a ++ x ++ b.
Proof.
  induction s as [|c s IH]; intros x; cbn [split_on].
  - intros ->%list_elem_of_singleton. by exists [], [].
  - destruct (split_on sep s) as [|w ws] eqn:E.
    + intros ->%list_elem_of_singleton. by exists [], (c :: s).
    + destruct (char_eqb c sep).
      * intros [->|H]%elem_of_cons; [by exists [], (c :: s)|].
        destruct (IH x H) as (a & b & ->). by exists (c :: a), b.
      * intros [->|H]%elem_of_cons.
        -- destruct (split_on_first sep s w ws E) as [b ->].
           by exists [], b.
        -- destruct (IH x) as (a & b & ->); [by right|].
           by exists (c :: a), b.
Qed.

Lemma path_name_piece s : exists a b, s = a ++ path_name s ++ b.
Proof.
  unfold path_name. cbv zeta.
  destruct (last (filter _ (split_on slash s))) as [x|] eqn:E.
  - apply last_Some_elem_of, list_elem_of_filter in E as [_ E].
    by apply split_on_piece in E.
  - by exists [], s.
Qed.

(** The stem of a name is a piece of the name. *)
Lemma path_stem_piece s : exists a b, s = a ++ path_stem s ++ b.
Proof.
  destruct (path_name_piece s) as (a & b & Hs).
  unfold path_stem. cbv zeta.
  assert (exists b', s = a ++ take (default 0 (rfind_dot (path_name s)))
                                  (path_name s) ++ b') as [b' Hs'].
  { exists (drop (default 0 (rfind_dot (path_name s))) (path_name s) ++ b).
    by rewrite (app_assoc (take _ _)), take_drop. }
  destruct (rfind_dot (path_name s)) as [i|]; [|by exists a, b].
  destruct (_ && _); [by exists a, b'|by exists a, b].
Qed.

Lemma has_year_piece a s b :
  has_year s = true -> has_year (a ++ s ++ b) = true.
Proof.
  intros H. destruct (has_year (a ++ s ++ b)) eqn:E; [done|].
  apply (has_year_suffix (s ++ b)) in E; [|by apply suffix_app_r].
  apply (has_year_prefix s) in E; [congruence|by apply prefix_app_r].
Qed.

(** X21: a folder for whose name the normaliser gives a year is not
    reported by [health_check] for a missing year: the year token that the
    normaliser finds in the stem is a year token of the name. *)
Theorem X21_year_found_is_not_missing (name y : pystr) (movies : bool) :
  year (get_normalized_title name) = Some y ->
  MissingYear ∉ naming_issues movies name.
Proof.
  unfold get_normalized_title. rewrite year_normalize_stem. intros Hy.
  assert (found year_re name = true) as Hf.
  { rewrite found_year. destruct (path_stem_piece name) as (a & b & Hs).
    rewrite Hs. apply has_year_piece, first_year_has_year. by eexists. }
  unfold naming_issues. rewrite Hf. cbn [negb]. rewrite andb_false_r.
  rewrite app_nil_r. destruct (_ && _); [|apply not_elem_of_nil].
  by intros ?%list_elem_of_singleton.
Qed.

Lemma X21_year_found_is_not_missing_witness :
  MissingYear ∉ naming_issues true "The.Matrix.1999.1080p.BluRay.x264".
Proof.
  apply (X21_year_found_is_not_missing
           "The.Matrix.1999.1080p.BluRay.x264" "1999" true).
  vm_compute. reflexivity.
Defined.

(** The reverse fails: [health_check] sees the year of [Heat.1995], and
    the normaliser does not. *)
Example year_of_whole_name :
  naming_issues true "Heat.1995" = [] /\
  year (get_normalized_title "Heat.1995") = None.
Proof. split; vm_compute; reflexivity. Qed.

End YearFound.

